(** * PyQt5 Photo Editor: the editing core of [PyQt5_Photo_Editor_toplu.py]

    A shallow embedding of the document model ([ImageDocument]), the
    adjustment pipeline ([apply_adjustments_preview]), the effect
    operators ([apply_effect], [rotate90], [portrait_mode], ...), the
    colour-temperature gains ([kelvin_to_rgb_gains]) and the histogram
    ([compute_histogram]).

    Numbers.  The histogram's luma is computed by the source with binary64
    multiplications and additions only; these are Rocq's primitive floats,
    so that part of the model is bit for bit the source's arithmetic.  The
    white-balance gains go through [math.log] and [**], which have no
    executable counterpart here: they are real numbers.  The adjustment
    pipeline and the portrait rebalance then work on them in binary32, as
    NumPy does: every array operation is the exact operation on reals
    followed by rounding to the nearest binary32 number ([fl32]), Python's
    own scalar arithmetic by rounding to binary64 ([fl64]); the final
    [astype(np.uint8)] is truncation.  The vignette weights, which the
    source computes in binary64 through [np.sqrt], are real numbers.

    Libraries.  Pillow, NumPy and OpenCV calls whose code is not part of
    the repository (filters, enhancers, rotation, face detection) are the
    fields of the class [Imaging]; every theorem holds for every
    implementation of it. *)

From Stdlib Require Import Floats Uint63.
From Stdlib Require Import ZArith List String Ascii Bool Lia.
From Stdlib Require Import DecimalString DecimalNat Permutation.
From Stdlib Require Import Reals Lra.
Import ListNotations.

Set Warnings "-inexact-float".
Local Open Scope Z_scope.

(** ** Images *)

(** One RGB sample triple; each channel is a [uint8], kept as a [Z]
    in [0, 255]. *)
Definition pixel : Type := (Z * Z * Z)%type.

Definition red (p : pixel) : Z := fst (fst p).
Definition green (p : pixel) : Z := snd (fst p).
Definition blue (p : pixel) : Z := snd p.

(** A PIL image in mode RGB: its size and its samples in row-major
    order (the order of [np.array(im)] raveled). *)
Record Image : Type := mkImage {
  width : nat;
  height : nat;
  pixels : list pixel
}.

Definition uint8 (v : Z) : Prop := 0 <= v <= 255.

Definition pixel_ok (p : pixel) : Prop :=
  uint8 (red p) /\ uint8 (green p) /\ uint8 (blue p).

(** The invariant of an 8-bit RGB image. *)
Definition valid_image (im : Image) : Prop :=
  List.length (pixels im) = (width im * height im)%nat /\
  Forall pixel_ok (pixels im).

(** [np_map f a]: an elementwise NumPy expression over the pixels. *)
Definition np_map (f : pixel -> pixel) (im : Image) : Image :=
  mkImage (width im) (height im) (map f (pixels im)).

(** [im.copy()] and [im.convert('RGB')] on an RGB image: a new image with
    the same contents.  Images are values here, so every copy is the
    identity; the source never writes into an image it has stored. *)
Definition copy (im : Image) : Image := im.
Definition convert_RGB (im : Image) : Image := im.

(** ** Histogram ([compute_histogram]) *)

Module Float64.

(** [frshiftexp] writes a finite [f] as [m * 2^(e - shift)] with [m] in
    [[0.5, 1)], and [normfr_mantissa m] is the integer [m * 2^53].  The
    constant below is [53 + shift]. *)
Definition mantissa_shift : int :=
  Eval vm_compute in Uint63.of_Z (53 + FloatOps.shift).

(** Integer part of a float that is finite, non-negative and below
    [2^53]: the mantissa shifted right by [53 - (e - shift)] bits (a
    shift by 63 bits or more gives 0, which is the integer part of a
    float below 1). *)
Definition trunc (f : float) : int :=
  let (m, e) := frshiftexp f in
  Uint63.lsr (normfr_mantissa m) (Uint63.sub mantissa_shift e).

(** The same integer part read off the sign, mantissa and exponent of
    [f], for comparison. *)
Definition trunc_spec (f : float) : Z :=
  match Prim2SF f with
  | S754_finite s m e =>
      let a := if 0 <=? e then Z.shiftl (Zpos m) e else Z.shiftr (Zpos m) (- e) in
      if s then - a else a
  | _ => 0
  end.

(** [x.astype(np.uint8)] for a float64 [x]: truncation, kept to
    eight bits. *)
Definition astype_uint8 (f : float) : Z :=
  Uint63.to_Z (Uint63.land (trunc f) 255).

(** A [uint8] sample promoted to float64. *)
Definition of_uint8 (v : Z) : float := PrimFloat.of_uint63 (Uint63.of_Z v).

End Float64.

(** [0.2126*r + 0.7152*g + 0.0722*b], in binary64, left to right. *)
Definition luma (p : pixel) : float :=
  (0.2126 * Float64.of_uint8 (red p)
   + 0.7152 * Float64.of_uint8 (green p)
   + 0.0722 * Float64.of_uint8 (blue p))%float.

(** The [lum] array of [compute_histogram], one entry per pixel. *)
Definition lum_uint8 (p : pixel) : Z := Float64.astype_uint8 (luma p).

(** The luma of a pixel in exact arithmetic, rounded down. *)
Definition luma_floor (p : pixel) : Z :=
  (2126 * red p + 7152 * green p + 722 * blue p) / 10000.

(** Number of occurrences of [k] in [xs]. *)
Definition occurrences (k : Z) (xs : list Z) : nat :=
  List.length (filter (Z.eqb k) xs).

(** [np.bincount(xs, minlength=n)] for non-negative [xs]: one counter per
    value from [0] to [max(n, max(xs)+1) - 1]. *)
Definition bincount (xs : list Z) (minlength : nat) : list nat :=
  let n := Nat.max minlength (Z.to_nat (fold_right Z.max (-1) xs + 1)) in
  map (fun k => occurrences (Z.of_nat k) xs) (seq 0 n).

Record Histogram : Type := mkHistogram {
  hist_r : list nat;
  hist_g : list nat;
  hist_b : list nat;
  hist_lum : list nat;
  hist_total : nat
}.

Definition compute_histogram (pil_img : Image) : Histogram :=
  let im := convert_RGB pil_img in
  let r := map red (pixels im) in
  let g := map green (pixels im) in
  let b := map blue (pixels im) in
  let lum := map lum_uint8 (pixels im) in
  let bins := 256%nat in
  mkHistogram (bincount r bins) (bincount g bins) (bincount b bins)
              (bincount lum bins) (width im * height im)%nat.

(** ** Exceptions *)

Inductive exn : Type :=
| AttributeError   (* a method called on [None] *)
| IndexError       (* [history[-1]] on an empty list *)
| ValueError.      (* [math.log] outside its domain *)

Inductive result (A : Type) : Type :=
| Ok (a : A)
| Raise (e : exn).
Arguments Ok {A} a.
Arguments Raise {A} e.

(** ** Colour temperature ([kelvin_to_rgb_gains]) *)

(** The inner [clamp(v, lo=0, hi=255)]: [max(lo, min(hi, v))]. *)
Definition clamp (v : R) : R := Rmax 0 (Rmin 255 v).

(** [math.log] raises [ValueError] on a non-positive argument. *)
Definition math_log (x : R) : result R :=
  if Rlt_dec 0 x then Ok (ln x) else Raise ValueError.

Definition kelvin_to_rgb_gains (kelvin : Z) : result (R * R * R) :=
  let temp := (IZR kelvin / 100)%R in
  let r :=
    if Rle_dec temp 66 then 255%R
    else clamp (329.698727446 * Rpower (temp - 60) (-0.1332047592))%R in
  let g_raw :=
    if Rle_dec temp 66
    then match math_log temp with
         | Ok l => Ok (99.4708025861 * l - 161.1195681661)%R
         | Raise e => Raise e
         end
    else Ok (288.1221695283 * Rpower (temp - 60) (-0.0755148492))%R in
  match g_raw with
  | Raise e => Raise e
  | Ok g0 =>
      let g := clamp g0 in
      let b :=
        if Rge_dec temp 66 then 255%R
        else if Rle_dec temp 19 then 0%R
        else clamp (138.5177312231 * ln (temp - 10) - 305.0447927307)%R in
      Ok (r / 255, g / 255, b / 255)%R
  end.

(** ** Adjustment parameters *)

(** The [adjustments] dict.  Its six keys are set when the document is
    built and no code path adds or removes one, so it is a record. *)
Record Adjustments : Type := mkAdjustments {
  brightness : Z;    (* -100..100 *)
  contrast : Z;      (* -100..100 *)
  saturation : Z;    (* -100..100 *)
  kelvin : Z;        (* 2000..10000 *)
  shadows : Z;       (* -100..100 *)
  highlights : Z     (* -100..100 *)
}.

Inductive key : Type :=
| Kbrightness | Kcontrast | Ksaturation | Kkelvin | Kshadows | Khighlights.

(** [ad[k]] *)
Definition getitem (ad : Adjustments) (k : key) : Z :=
  match k with
  | Kbrightness => brightness ad
  | Kcontrast => contrast ad
  | Ksaturation => saturation ad
  | Kkelvin => kelvin ad
  | Kshadows => shadows ad
  | Khighlights => highlights ad
  end.

(** [ad[k] = v] *)
Definition setitem (ad : Adjustments) (k : key) (v : Z) : Adjustments :=
  match k with
  | Kbrightness =>
      mkAdjustments v (contrast ad) (saturation ad) (kelvin ad) (shadows ad) (highlights ad)
  | Kcontrast =>
      mkAdjustments (brightness ad) v (saturation ad) (kelvin ad) (shadows ad) (highlights ad)
  | Ksaturation =>
      mkAdjustments (brightness ad) (contrast ad) v (kelvin ad) (shadows ad) (highlights ad)
  | Kkelvin =>
      mkAdjustments (brightness ad) (contrast ad) (saturation ad) v (shadows ad) (highlights ad)
  | Kshadows =>
      mkAdjustments (brightness ad) (contrast ad) (saturation ad) (kelvin ad) v (highlights ad)
  | Khighlights =>
      mkAdjustments (brightness ad) (contrast ad) (saturation ad) (kelvin ad) (shadows ad) v
  end.

(** The value every key has in a new document and after
    [reset_adjustments]: [6500 if k == 'kelvin' else 0]. *)
Definition default_value (k : key) : Z :=
  match k with Kkelvin => 6500 | _ => 0 end.

Definition default_adjustments : Adjustments :=
  mkAdjustments (default_value Kbrightness) (default_value Kcontrast)
                (default_value Ksaturation) (default_value Kkelvin)
                (default_value Kshadows) (default_value Khighlights).

(** The range written next to each key in the source (and given to its
    slider). *)
Definition declared_range (k : key) : Z * Z :=
  match k with Kkelvin => (2000, 10000) | _ => (-100, 100) end.

Definition clamp_to_range (k : key) (v : Z) : Z :=
  Z.max (fst (declared_range k)) (Z.min (snd (declared_range k)) v).

(** ** Binary floating point

    NumPy computes the pipeline in binary32 and Python computes its
    scalars in binary64.  A float is the real number it denotes; every
    operation is the exact operation followed by [round]: rounding to
    the nearest number of the format, ties to the even mantissa.  The
    format has [pr] bits of precision and least exponent [em]; overflow
    to infinity is not modelled, so the model stands for operands that
    stay within the range of the format.

    [round_Q] computes the same rounding on a fraction of integers; it
    is used to evaluate the model on concrete inputs (lemma
    [round_Q_ok]). *)

(** [2^e] for an integer exponent. *)
Definition pow2 (e : Z) : R := powerRZ 2 e.

(** The exponent [e] of a non-zero real: [2^(e-1) <= |x| < 2^e]. *)
Definition mag (x : R) : Z := Int_part (ln (Rabs x) / ln 2) + 1.

(** The nearest integer, a tie going to the even one. *)
Definition rnd_even (r : R) : Z :=
  let f := Int_part r in
  if Rlt_dec (r - IZR f) (1 / 2) then f
  else if Rlt_dec (1 / 2) (r - IZR f) then f + 1
  else if Z.even f then f else f + 1.

(** The exponent of the last mantissa bit of [x] in the format. *)
Definition cexp (pr em : Z) (x : R) : Z := Z.max (mag x - pr) em.

(** [round pr em x]: the multiple of [2^(cexp pr em x)] nearest to [x]. *)
Definition round (pr em : Z) (x : R) : R :=
  let e := cexp pr em x in
  (IZR (rnd_even (x * pow2 (- e))) * pow2 e)%R.

(** binary32 ([np.float32]) and binary64 (a Python [float]). *)
Definition fl32 : R -> R := round 24 (-149).
Definition fl64 : R -> R := round 53 (-1074).

(** [p/q * 2^-c] as a fraction of integers. *)
Definition scaled_num (p c : Z) : Z := if 0 <=? c then p else p * 2 ^ (- c).
Definition scaled_den (q c : Z) : Z := if 0 <=? c then q * 2 ^ c else q.

(** [mag (p/q)] from the bit lengths of [p] and [q]. *)
Definition mag_Q (p q : Z) : Z :=
  let d := Z.log2 (Z.abs p) - Z.log2 q in
  if scaled_den q d <=? scaled_num (Z.abs p) d then d + 1 else d.

(** [rnd_even (N/D)] for [0 < D]. *)
Definition rnd_even_Q (N D : Z) : Z :=
  let f := N / D in
  let r2 := 2 * (N mod D) in
  if r2 <? D then f
  else if D <? r2 then f + 1
  else if Z.even f then f else f + 1.

(** [round pr em (p/q)] as a mantissa and an exponent. *)
Definition round_Q (pr em p q : Z) : Z * Z :=
  if p =? 0 then (0, 0)
  else
    let c := Z.max (mag_Q p q - pr) em in
    (rnd_even_Q (scaled_num p c) (scaled_den q c), c).

(** The same as a fraction with a power of two below. *)
Definition round_frac (pr em p q : Z) : Z * Z :=
  let '(m, c) := round_Q pr em p q in
  (scaled_num m (- c), scaled_den 1 (- c)).

(** ** The adjustment pipeline, one pixel at a time *)

(** The pipeline works on a float32 array
    ([np.array(base).astype(np.float32)]).  An array operation with a
    Python scalar is carried out in binary32 on the scalar converted to
    binary32; the scalars themselves ([c], [s], [lift], ...) are computed
    by Python in binary64.  Literals and integers that are numbers of
    both formats (0, 1, 128, 255) are written as they are. *)

Definition fpixel : Type := (R * R * R)%type.

(** [np.clip(x, lo, hi)] *)
Definition np_clip (x lo hi : R) : R := Rmin (Rmax x lo) hi.

(** [x.astype(np.uint8)] of a real: truncation towards zero, kept to
    eight bits. *)
Definition astype_uint8 (x : R) : Z :=
  (if Rle_dec 0 x then Int_part x else - Int_part (- x)) mod 256.

Definition astype_float (p : pixel) : fpixel :=
  (IZR (red p), IZR (green p), IZR (blue p)).

Definition fpixel_map (f : R -> R) (p : fpixel) : fpixel :=
  let '(r, g, b) := p in (f r, f g, f b).

Definition fpixel_astype_uint8 (p : fpixel) : pixel :=
  let '(r, g, b) := p in (astype_uint8 r, astype_uint8 g, astype_uint8 b).

(** [arr[:,:,i] = np.clip(arr[:,:,i] * gains[i], 0, 255)] *)
Definition white_balance (gains : R * R * R) (p : fpixel) : fpixel :=
  let '(r, g, b) := p in
  let '(g0, g1, g2) := gains in
  (np_clip (fl32 (r * fl32 g0)) 0 255, np_clip (fl32 (g * fl32 g1)) 0 255,
   np_clip (fl32 (b * fl32 g2)) 0 255)%R.

(** [arr = np.clip(arr + ad['brightness'], 0, 255)] *)
Definition add_brightness (ad : Adjustments) : fpixel -> fpixel :=
  fpixel_map (fun a => np_clip (fl32 (a + fl32 (IZR (brightness ad)))) 0 255)%R.

(** [c = 1 + (ad['contrast'] / 100.0)];
    [arr = np.clip((arr - 128) * c + 128, 0, 255)] *)
Definition scale_contrast (ad : Adjustments) : fpixel -> fpixel :=
  let c := fl64 (1 + fl64 (IZR (contrast ad) / 100))%R in
  fpixel_map (fun a => np_clip (fl32 (fl32 (fl32 (a - 128) * fl32 c) + 128)) 0 255)%R.

(** [s = ad['saturation'] / 100.0];
    [lum = 0.2126*arr[:,:,0] + 0.7152*arr[:,:,1] + 0.0722*arr[:,:,2]];
    [arr = np.clip(lum + (arr - lum) * (1 + s), 0, 255)] *)
Definition saturate (ad : Adjustments) (p : fpixel) : fpixel :=
  if Z.eqb (saturation ad) 0 then p
  else
    let s := fl64 (IZR (saturation ad) / 100)%R in
    let '(r, g, b) := p in
    let lum :=
      fl32 (fl32 (fl32 (fl32 (fl64 0.2126) * r) + fl32 (fl32 (fl64 0.7152) * g))
            + fl32 (fl32 (fl64 0.0722) * b))%R in
    let k := fl32 (fl64 (1 + s))%R in
    fpixel_map (fun a => np_clip (fl32 (lum + fl32 (fl32 (a - lum) * k))) 0 255)%R p.

(** The local function [tone_pixel(a, shadows, highlights)]. *)
Definition tone_pixel (a : R) (shadows highlights : Z) : R :=
  let t := fl32 (a / 255)%R in
  let s := fl64 (IZR shadows / 100)%R in
  let h := fl64 (IZR highlights / 100)%R in
  let t :=
    if Req_dec_T s 0 then t
    else
      let lift := fl64 (s * fl64 0.6)%R in
      let w :=
        Rmin 1 (Rmax 0 (fl32 (fl32 (t - 0) / fl32 (fl64 (fl64 0.6 - 0))))) in
      fl32 (t + fl32 (fl32 (fl32 lift * fl32 (1 - w)) * fl32 (1 - t)))%R in
  let t :=
    if Req_dec_T h 0 then t
    else
      let comp := fl64 (h * fl64 0.6)%R in
      let w2 :=
        Rmin 1 (Rmax 0 (fl32 (fl32 (t - fl32 (fl64 0.4))
                              / fl32 (fl64 (1 - fl64 0.4))))) in
      fl32 (t - fl32 (fl32 (fl32 comp * w2) * t))%R in
  np_clip (fl32 (t * 255)) 0 255.

Definition tone (ad : Adjustments) (p : fpixel) : fpixel :=
  if negb (Z.eqb (shadows ad) 0) || negb (Z.eqb (highlights ad) 0)
  then fpixel_map (fun a => tone_pixel a (shadows ad) (highlights ad)) p
  else p.

(** What [apply_adjustments_preview] does to one pixel of the base
    image, for given white-balance gains. *)
Definition adjust_pixel (gains : R * R * R) (ad : Adjustments) (p : pixel) : pixel :=
  fpixel_astype_uint8
    (tone ad (saturate ad (scale_contrast ad (add_brightness ad
       (white_balance gains (astype_float p)))))).

(** The stages other than the saturation act on each channel by
    itself: one sample, with its gain, through those stages. *)
Definition adjust_sample (g : R) (ad : Adjustments) (x : Z) : Z :=
  let a := np_clip (fl32 (IZR x * fl32 g)) 0 255 in
  let a := np_clip (fl32 (a + fl32 (IZR (brightness ad)))) 0 255 in
  let c := fl64 (1 + fl64 (IZR (contrast ad) / 100))%R in
  let a := np_clip (fl32 (fl32 (fl32 (a - 128) * fl32 c) + 128)) 0 255 in
  let a :=
    if negb (Z.eqb (shadows ad) 0) || negb (Z.eqb (highlights ad) 0)
    then tone_pixel a (shadows ad) (highlights ad)
    else a in
  astype_uint8 a.

(** The float32 array of [apply_adjustments_preview] at one pixel, as
    it is handed to [arr.astype(np.uint8)]. *)
Definition adjust_float (gains : R * R * R) (ad : Adjustments) (p : pixel) : fpixel :=
  tone ad (saturate ad (scale_contrast ad (add_brightness ad
    (white_balance gains (astype_float p))))).

(** The integer parts of the three samples. *)
Definition floor_pixel (q : fpixel) : pixel :=
  let '(r, g, b) := q in (Int_part r, Int_part g, Int_part b).

(** ** Library calls *)

(** A face rectangle [(x, y, w, h)] of [detectMultiScale]. *)
Definition Rect : Type := (nat * nat * nat * nat)%type.

(** The Pillow and OpenCV operations the editor calls.  Each is a total
    function on images, as the source uses them without a guard. *)
Class Imaging : Type := {
  (** [im.filter(ImageFilter.UnsharpMask(radius, percent, threshold))] *)
  UnsharpMask : Z -> Z -> Z -> Image -> Image;
  (** [ImageEnhance.Brightness(im).enhance(factor)] *)
  Brightness_enhance : R -> Image -> Image;
  (** [ImageEnhance.Sharpness(im).enhance(factor)] *)
  Sharpness_enhance : R -> Image -> Image;
  (** [ImageEnhance.Contrast(im).enhance(factor)] *)
  Contrast_enhance : R -> Image -> Image;
  (** [cv2.bilateralFilter(a, d, sigmaColor, sigmaSpace)] *)
  bilateralFilter : Z -> Z -> Z -> Image -> Image;
  (** [cv2.addWeighted(a, alpha, b, beta, gamma)] *)
  addWeighted : Image -> R -> Image -> R -> R -> Image;
  (** [im.rotate(angle, expand=...)] *)
  rotate : Z -> bool -> Image -> Image;
  (** [ImageOps.mirror(im)] *)
  mirror : Image -> Image;
  (** The array [cv2.cvtColor(a, cv2.COLOR_RGB2GRAY)] *)
  Gray : Type;
  cvtColor_RGB2GRAY : Image -> Gray;
  (** The [try] block of [portrait_mode]: loading the frontal-face cascade
      and [detectMultiScale(gray, scaleFactor, minNeighbors)]; [None]
      when it raises. *)
  detectMultiScale : Gray -> R -> Z -> option (list Rect)
}.

(** An image all of whose pixels are [c]. *)
Definition uniform (c : pixel) (im : Image) : Prop :=
  Forall (fun p => p = c) (pixels im).

(** The bilateral filter replaces each pixel by a normalised weighted
    mean of its neighbourhood, so it leaves a one-colour image as it
    is.  This is a property of OpenCV, used only where it is named. *)
Definition smoothing_keeps_uniform (L : Imaging) : Prop :=
  forall d sigmaColor sigmaSpace c im,
    uniform c im -> bilateralFilter d sigmaColor sigmaSpace im = im.

(** ** Effect operators *)

(** [Image.merge('RGB', (r.point(fr), g.point(fg), b.point(fb)))] after
    [im.split()]. *)
Definition point_channels (fr fg fb : Z -> Z) (im : Image) : Image :=
  np_map (fun p => (fr (red p), fg (green p), fb (blue p))) im.

(** [np.linspace(-1, 1, n)[i]] *)
Definition linspace (n i : nat) : R :=
  match n with
  | 1%nat => (-1)%R
  | _ => (-1 + INR i * (2 / (INR n - 1)))%R
  end.

(** The vignette weight of the pixel in column [x] and row [y] of a
    [w] by [h] image. *)
Definition vignette_mask (w h x y : nat) : R :=
  let xv := linspace w x in
  let yv := linspace h y in
  let dist := sqrt (xv * xv + yv * yv) in
  (0.6 + 0.4 * np_clip (1 - dist / sqrt 2) 0 1)%R.

Definition vignette (im : Image) : Image :=
  let w := width im in
  let h := height im in
  mkImage w h
    (map (fun ip : nat * pixel =>
            let '(i, p) := ip in
            let m := vignette_mask w h (i mod w) (i / w) in
            fpixel_astype_uint8 (fpixel_map (fun a => a * m)%R (astype_float p)))
         (combine (seq 0 (List.length (pixels im))) (pixels im))).

Section Effects.

Context {L : Imaging}.

Local Open Scope string_scope.

(** The [if]/[elif] chain of [apply_effect]: the image an effect name
    turns [img] into, [None] on the final [else: return]. *)
Definition effect_image (effect : string) (img : Image) : option Image :=
  if String.eqb effect "sharpen" then
    Some (UnsharpMask 1 120 3 img)
  else if String.eqb effect "orange" then
    Some (point_channels (fun v => Z.min 255 (v + 12))
                         (fun v => Z.min 255 (v + 6)) (fun v => v) img)
  else if String.eqb effect "red" then
    Some (point_channels (fun v => Z.min 255 (v + 18)) (fun v => v) (fun v => v) img)
  else if String.eqb effect "blue" then
    Some (point_channels (fun v => v) (fun v => v) (fun v => Z.min 255 (v + 18)) img)
  else if String.eqb effect "brighten" then
    Some (Brightness_enhance 1.15 img)
  else if String.eqb effect "clarity" then
    Some (Sharpness_enhance 1.2 img)
  else if String.eqb effect "vignette" then
    Some (vignette img)
  else if String.eqb effect "noise" then
    Some (bilateralFilter 5 75 75 img)
  else None.

(** The names [apply_effect] knows. *)
Definition catalog : list string :=
  ["sharpen"; "orange"; "red"; "blue"; "brighten"; "clarity"; "vignette"; "noise"].

(** The channel rebalance of [portrait_mode], on the float32 array
    [a.astype(np.float32)]: [arr[:,:,0] *= 0.95],
    [arr[:,:,1] = np.minimum(255, arr[:,:,1]*1.05)], the same for blue,
    then [astype(np.uint8)]. *)
Definition rebalance (p : pixel) : pixel :=
  let '(r, g, b) := astype_float p in
  fpixel_astype_uint8
    (fl32 (r * fl32 (fl64 0.95)), Rmin 255 (fl32 (g * fl32 (fl64 1.05))),
     Rmin 255 (fl32 (b * fl32 (fl64 1.05))))%R.

(** [a[y:y+h, x:x+w]]: the part of the rectangle that lies inside the
    array, as slicing gives it. *)
Definition crop (rc : Rect) (a : Image) : Image :=
  let '(x, y, w, h) := rc in
  let w' := Nat.min w (width a - x) in
  let h' := Nat.min h (height a - y) in
  mkImage w' h'
    (flat_map (fun j => firstn w' (skipn ((y + j) * width a + x) (pixels a)))
              (seq 0 h')).

(** [a[y:y+h, x:x+w] = patch]: the pixels of the rectangle are taken
    from [patch], the others kept. *)
Definition paste (rc : Rect) (patch a : Image) : Image :=
  let '(x, y, w, h) := rc in
  mkImage (width a) (height a)
    (map (fun ip : nat * pixel =>
            let '(i, p) := ip in
            let col := (i mod width a)%nat in
            let row := (i / width a)%nat in
            if ((x <=? col) && (col <? x + w) && (y <=? row) && (row <? y + h))%nat
            then nth ((row - y) * width patch + (col - x)) (pixels patch) p
            else p)
         (combine (seq 0 (List.length (pixels a))) (pixels a))).

(** One turn of the loop over the faces. *)
Definition retouch_face (a : Image) (rc : Rect) : Image :=
  let roi := crop rc a in
  let blurred := bilateralFilter 9 75 75 roi in
  paste rc (addWeighted roi 0.6 blurred 0.4 0) a.

(** The image [portrait_mode] computes from the current one. *)
Definition portrait_image (img : Image) : Image :=
  let a := img in
  let gray := cvtColor_RGB2GRAY a in
  let faces :=
    match detectMultiScale gray 1.1 4 with
    | Some fs => fs
    | None => []
    end in
  let a := np_map rebalance a in
  if (0 <? List.length faces)%nat
  then fold_left retouch_face faces a
  else bilateralFilter 9 75 75 a.

(** The image [auto_enhance] computes from the current one. *)
Definition auto_enhance_image (img : Image) : Image :=
  Brightness_enhance 1.06 (Contrast_enhance 1.08 img).

End Effects.

(** ** Documents ([class ImageDocument]) *)

(** [h[-1]] of a list, when there is one. *)
Definition last_item (h : list Image) : option Image :=
  match rev h with
  | im :: _ => Some im
  | [] => None
  end.

Module ImageDocument.

Record t : Type := mk {
  path : option string;
  pil : option Image;          (* [None] when built without an image *)
  history : list Image;        (* oldest first *)
  adjustments : Adjustments
}.

Definition set_pil (self : t) (im : option Image) : t :=
  mk (path self) im (history self) (adjustments self).

Definition set_adjustments (self : t) (ad : Adjustments) : t :=
  mk (path self) (pil self) (history self) ad.

(** [__init__(self, path=None, pil_image=None)] *)
Definition init (path : option string) (pil_image : option Image) : t :=
  let pil := option_map convert_RGB pil_image in
  let history :=
    match pil with
    | Some im => [copy im]
    | None => []
    end in
  mk path pil history default_adjustments.

(** [push(self)]: [self.history.append(self.pil.copy())] *)
Definition push (self : t) : result t :=
  match pil self with
  | Some im => Ok (mk (path self) (pil self) (history self ++ [copy im]) (adjustments self))
  | None => Raise AttributeError
  end.

(** [undo(self)]: the returned flag and the document afterwards.  Under
    the guard the popped list is not empty, so [history[-1]] is
    there. *)
Definition undo (self : t) : bool * t :=
  if (1 <? List.length (history self))%nat then
    let h := removelast (history self) in
    (true, mk (path self) (option_map copy (last_item h)) h (adjustments self))
  else (false, self).

(** [reset_adjustments(self)]: every key gets its default again. *)
Definition reset_adjustments (self : t) : t :=
  set_adjustments self
    (mkAdjustments (default_value Kbrightness) (default_value Kcontrast)
                   (default_value Ksaturation) (default_value Kkelvin)
                   (default_value Kshadows) (default_value Khighlights)).

End ImageDocument.

(** ** The editor ([class PhotoEditorMain]) *)

(** How a method call ends. *)
Inductive outcome : Type :=
| Returned
| Raised (e : exn).

Module PhotoEditorMain.

Import ImageDocument.

(** Every method below starts with [doc = self.current_doc()] and
    returns at once when no tab is open.  The definitions are the
    method bodies on the current document [doc]; they give how the call
    ends and the document as it is then.  Redrawing the tab and the
    histogram ([refresh_controls_for_current]) reads the document and
    writes widgets only. *)
Definition on_current (body : t -> outcome * t) (current_doc : option t)
  : outcome * option t :=
  match current_doc with
  | None => (Returned, None)
  | Some doc => let '(o, doc') := body doc in (o, Some doc')
  end.

Local Open Scope string_scope.

(** The dict [mapping] from slider titles to adjustment keys. *)
Definition mapping (name : string) : option key :=
  if String.eqb name "Parlaklık" then Some Kbrightness
  else if String.eqb name "Kontrast" then Some Kcontrast
  else if String.eqb name "Doygunluk" then Some Ksaturation
  else if String.eqb name "Beyaz Dengesi (K)" then Some Kkelvin
  else if String.eqb name "Shadows" then Some Kshadows
  else if String.eqb name "Highlights" then Some Khighlights
  else None.

Definition apply_adjustments_preview (doc : t) : outcome * t :=
  match last_item (history doc) with
  | None => (Raised IndexError, doc)
  | Some base =>
      let ad := adjustments doc in
      match kelvin_to_rgb_gains (kelvin ad) with
      | Raise e => (Raised e, doc)
      | Ok gains =>
          let img2 := np_map (adjust_pixel gains ad) base in
          (Returned, set_pil doc (Some img2))
      end
  end.

Definition on_slider (name : string) (value : Z) (doc : t) : outcome * t :=
  match mapping name with
  | None => (Returned, doc)
  | Some key =>
      let doc := set_adjustments doc (setitem (adjustments doc) key value) in
      apply_adjustments_preview doc
  end.

(** [doc.pil = img; doc.push()] *)
Definition set_and_push (doc : t) (img : Image) : outcome * t :=
  let doc := set_pil doc (Some img) in
  match push doc with
  | Ok doc' => (Returned, doc')
  | Raise e => (Raised e, doc)
  end.

Section Methods.

Context {L : Imaging}.

Definition apply_effect (effect : string) (doc : t) : outcome * t :=
  match pil doc with
  | None => (Raised AttributeError, doc)
  | Some p =>
      match effect_image effect (copy p) with
      | None => (Returned, doc)
      | Some img =>
          match set_and_push doc img with
          | (Returned, doc') => (Returned, reset_adjustments doc')
          | raised => raised
          end
      end
  end.

Definition rotate90 (doc : t) : outcome * t :=
  match pil doc with
  | None => (Raised AttributeError, doc)
  | Some p => set_and_push doc (rotate (-90) true p)
  end.

Definition flip_horizontal (doc : t) : outcome * t :=
  match pil doc with
  | None => (Raised AttributeError, doc)
  | Some p => set_and_push doc (mirror p)
  end.

Definition portrait_mode (doc : t) : outcome * t :=
  match pil doc with
  | None => (Raised AttributeError, doc)
  | Some p => set_and_push doc (portrait_image (copy p))
  end.

Definition auto_enhance (doc : t) : outcome * t :=
  match pil doc with
  | None => (Raised AttributeError, doc)
  | Some p => set_and_push doc (auto_enhance_image p)
  end.

End Methods.

(** [undo(self)]: the flag of [doc.undo()] only chooses whether the
    "nothing to undo" box is shown. *)
Definition undo (doc : t) : outcome * t :=
  let '(ok, doc') := ImageDocument.undo doc in
  (Returned, doc').

Definition reset_adjustments (doc : t) : outcome * t :=
  let doc := ImageDocument.reset_adjustments doc in
  match last_item (history doc) with
  | None => (Raised IndexError, doc)
  | Some base => (Returned, set_pil doc (Some (copy base)))
  end.

End PhotoEditorMain.

Import ImageDocument.

(** ** Sample inputs *)

Definition sample_image : Image :=
  mkImage 2 2 [(255, 255, 255); (10, 200, 3); (0, 0, 0); (255, 0, 0)].

Definition white_image : Image := mkImage 1 1 [(255, 255, 255)].
Definition black_image : Image := mkImage 1 1 [(0, 0, 0)].
Definition gray_image (v : Z) : Image := mkImage 1 1 [(v, v, v)].

(** A stand-in for the imaging libraries, to run the editor on sample
    inputs: every filter returns its argument, no face is found. *)
Definition identity_imaging : Imaging := {|
  UnsharpMask := fun _ _ _ im => im;
  Brightness_enhance := fun _ im => im;
  Sharpness_enhance := fun _ im => im;
  Contrast_enhance := fun _ im => im;
  bilateralFilter := fun _ _ _ im => im;
  addWeighted := fun a _ _ _ _ => a;
  rotate := fun _ _ im => im;
  mirror := fun im => im;
  Gray := unit;
  cvtColor_RGB2GRAY := fun _ => tt;
  detectMultiScale := fun _ _ _ => Some []
|}.

(** A freshly loaded one-pixel black document. *)
Definition black_doc : ImageDocument.t := ImageDocument.init None (Some black_image).

(** A document two entries into its history: the black original, then a
    white image, which is on display, with a brightness of 50 pending. *)
Definition two_step_doc : ImageDocument.t :=
  ImageDocument.mk None (Some white_image) [black_image; white_image]
    (setitem default_adjustments Kbrightness 50).

(** The document after the brightness slider was moved to 10 on the
    black document: the preview is on display, the history holds the
    clean base. *)
Definition preview_doc : ImageDocument.t :=
  mk None (Some (gray_image 10)) [black_image]
     (setitem default_adjustments Kbrightness 10).

(** ** Auxiliary definitions *)

(** What a commit leaves behind: [img] shown and appended, the parameters
    [ad]. *)
Definition committed (doc : ImageDocument.t) (img : Image) (ad : Adjustments)
  : ImageDocument.t :=
  mk (path doc) (Some img) (history doc ++ [img]) ad.

(** The face locator found nothing: it returned an empty sequence, or
    it raised and [faces] kept its initial value [[]]. *)
Definition no_faces {L : Imaging} (img : Image) : Prop :=
  detectMultiScale (cvtColor_RGB2GRAY img) 1.1 4 = Some [] \/
  detectMultiScale (cvtColor_RGB2GRAY img) 1.1 4 = None.

(** The five parameters other than the temperature are at zero. *)
Definition zeroed (ad : Adjustments) : Prop :=
  brightness ad = 0 /\ contrast ad = 0 /\ saturation ad = 0 /\
  shadows ad = 0 /\ highlights ad = 0.

(** The 256 sample values. *)
Definition levels : list Z := map Z.of_nat (seq 0 256).

(** An 8-bit sample times 1.05, capped at 255 and truncated, as binary32
    gives it: [105 x / 100] rounded down, except at the seven samples
    where the binary32 product falls just below the integer. *)
Definition times_105 (x : Z) : Z :=
  let y := Z.min 255 (105 * x / 100) in
  if existsb (Z.eqb x) [60; 100; 120; 180; 200; 220; 240] then y - 1 else y.

(** The binary32 product of the sample [x] and the binary32 number
    [num/den], as a fraction. *)
Definition sample_product (num den x : Z) : Z * Z :=
  round_frac 24 (-149) (x * num) den.

(** The green and blue terms of the luma, tabulated once: the integer
    term of the exact sum (in ten-thousandths) next to the binary64
    product. *)
Definition green_terms : list (int * float) :=
  map (fun g => ((7152 * Uint63.of_Z g)%uint63, (0.7152 * Float64.of_uint8 g)%float))
      levels.
Definition blue_terms : list (int * float) :=
  map (fun b => ((722 * Uint63.of_Z b)%uint63, (0.0722 * Float64.of_uint8 b)%float))
      levels.

(** [t] is [e] or [e - 1]. *)
Definition near (t e : int) : bool :=
  (Uint63.leb t e && Uint63.leb (e - t) 1)%uint63.

(** The truncated binary64 sum is near the exact rounded-down sum, along
    the blue terms and along the green ones. *)
Definition blues_near (n : int) (s : float) : bool :=
  forallb (fun bt => near (Float64.trunc (s + snd bt)%float) ((n + fst bt) / 10000)%uint63)
          blue_terms.
Definition greens_near (n : int) (a : float) : bool :=
  forallb (fun gt => blues_near (n + fst gt)%uint63 (a + snd gt)%float) green_terms.

(** Reals are enclosed between fixed-point numbers [a / scale]. *)
Definition scale : Z := 10 ^ 30.

Definition fixed (a : Z) : R := (IZR a / IZR scale)%R.

Definition sq_down (a : Z) : Z := a * a / scale.
Definition sq_up (a : Z) : Z := (a * a + scale - 1) / scale.

(** A lower and an upper enclosure of [exp (p / q)], from
    [1 + y <= exp y <= 1 / (1 - y)] at [y = p / (q * 2^k)] and [k]
    squarings. *)
Definition exp_lower (p q : Z) (k : nat) : Z :=
  let d := q * 2 ^ Z.of_nat k in
  Nat.iter k sq_down (scale * (d + p) / d).

Definition exp_upper (p q : Z) (k : nat) : Z :=
  let d := q * 2 ^ Z.of_nat k in
  Nat.iter k sq_up ((scale * d + (d - p) - 1) / (d - p)).

(** The green and blue channel values (before the division by 255)
    that [kelvin_to_rgb_gains] computes at 6500 K. *)
Definition green_6500 : R := (99.4708025861 * ln 65 - 161.1195681661)%R.
Definition blue_6500 : R := (138.5177312231 * ln 55 - 305.0447927307)%R.

(** ** The control panel *)

(** What the user can do to the current document: move a slider
    ([valueChanged] is connected to [on_slider]) or press one of the
    buttons ([btn(text, cb)]). *)
Inductive action : Type :=
| SliderMoved (name : string) (value : Z)
| EffectButton (effect : string)      (* [partial(self.apply_effect, effect)] *)
| Rotate90Button
| FlipButton
| UndoButton
| PortraitButton
| AutoEnhanceButton
| ResetButton.

(** The slot an action is wired to. *)
Definition slot {L : Imaging} (a : action)
  : ImageDocument.t -> outcome * ImageDocument.t :=
  match a with
  | SliderMoved name value => PhotoEditorMain.on_slider name value
  | EffectButton effect => PhotoEditorMain.apply_effect effect
  | Rotate90Button => PhotoEditorMain.rotate90
  | FlipButton => PhotoEditorMain.flip_horizontal
  | UndoButton => PhotoEditorMain.undo
  | PortraitButton => PhotoEditorMain.portrait_mode
  | AutoEnhanceButton => PhotoEditorMain.auto_enhance
  | ResetButton => PhotoEditorMain.reset_adjustments
  end.

(** A session on one document: the actions in order, up to the first
    slot that raises. *)
Fixpoint run {L : Imaging} (acts : list action) (doc : ImageDocument.t)
  : outcome * ImageDocument.t :=
  match acts with
  | [] => (Returned, doc)
  | a :: rest =>
      match slot a doc with
      | (Returned, doc') => run rest doc'
      | raised => raised
      end
  end.

(** The document as [load_images] builds it from a decoded file. *)
Definition loaded (doc : ImageDocument.t) : Prop :=
  pil doc <> None /\ history doc <> [].

(** The test of [paste]: the pixel of index [i] in an array of width [w]
    lies in the rectangle. *)
Definition in_rect (rc : Rect) (w i : nat) : bool :=
  let '(x, y, rw, rh) := rc in
  let col := (i mod w)%nat in
  let row := (i / w)%nat in
  ((x <=? col) && (col <? x + rw) && (y <=? row) && (row <? y + rh))%nat.

(** ** Tabs, loading and export *)

(** [str(n)] of a natural number. *)
Definition str (n : nat) : string := NilZero.string_of_uint (Nat.to_uint n).

(** A Python string is true when it is not empty. *)
Definition truthy (s : string) : bool := negb (String.eqb s "").


Section Files.

(** [os.path.basename], [os.path.join], [Image.open(p).convert('RGB')]
    ([None] when it raises) and [im.save(dst)] ([false] when it
    raises). *)
Variable basename : string -> string.
Variable join : string -> string -> string.
Variable open_RGB : string -> option Image.
Variable save : Image -> string -> bool.

(** The title [add_tab] gives a document, [tabs_docs] being the tabs
    that are already there. *)
Definition tab_name (tabs_docs : list ImageDocument.t) (doc : ImageDocument.t) : string :=
  match path doc with
  | Some p =>
      if truthy p then basename p
      else ("Resim " ++ str (List.length tabs_docs + 1))%string
  | None => ("Resim " ++ str (List.length tabs_docs + 1))%string
  end.

(** [add_tab]: the new tab goes to the end of [tabs_docs]. *)
Definition add_tab (tabs_docs : list ImageDocument.t) (doc : ImageDocument.t)
  : list ImageDocument.t :=
  tabs_docs ++ [doc].

(** [load_images] on the paths the dialog returned: the tabs afterwards
    and the paths a warning was shown for.  A file that does not open is
    skipped ([continue]). *)
Fixpoint load_images (paths : list string) (tabs_docs : list ImageDocument.t)
  : list ImageDocument.t * list string :=
  match paths with
  | [] => (tabs_docs, [])
  | p :: rest =>
      match open_RGB p with
      | None =>
          let '(tabs, warned) := load_images rest tabs_docs in
          (tabs, p :: warned)
      | Some im =>
          load_images rest (add_tab tabs_docs (ImageDocument.init (Some p) (Some im)))
      end
  end.




End Files.

(** ** Further sample inputs and predicates *)

Definition empty_doc : ImageDocument.t := ImageDocument.init None None.

(** Every stage from the contrast on ends in a clip. *)
Definition clipped (p : fpixel) : Prop :=
  let '(r, g, b) := p in
  (0 <= r <= 255)%R /\ (0 <= g <= 255)%R /\ (0 <= b <= 255)%R.

Definition bright_doc : ImageDocument.t :=
  mk None (Some sample_image) [sample_image]
     (setitem (setitem default_adjustments Kkelvin 6600) Kbrightness 100).

(** What a slider can deliver: Qt's [valueChanged(int)] carries a 32-bit
    integer.  On such values every conversion to a float and every
    float operation of the pipeline has a finite result. *)
Definition int32 (v : Z) : Prop := - 2 ^ 31 <= v < 2 ^ 31.

Definition qt_values (ad : Adjustments) : Prop :=
  int32 (brightness ad) /\ int32 (contrast ad) /\ int32 (saturation ad) /\
  int32 (kelvin ad) /\ int32 (shadows ad) /\ int32 (highlights ad).

Definition qt_action (a : action) : Prop :=
  match a with SliderMoved _ v => int32 v | _ => True end.

(** An integer brought into the range of an 8-bit sample. *)
Definition saturating (v : Z) : Z := Z.min 255 (Z.max 0 v).

Definition flat_doc : ImageDocument.t :=
  mk None (Some sample_image) [sample_image] (setitem default_adjustments Kcontrast (-100)).

Definition gray_doc : ImageDocument.t :=
  mk None (Some sample_image) [sample_image]
     (setitem default_adjustments Ksaturation (-100)).

(** The actions that commit a new history entry. *)
Definition commits (a : action) : Prop :=
  match a with
  | EffectButton effect => In effect catalog
  | Rotate90Button | FlipButton | PortraitButton | AutoEnhanceButton => True
  | _ => False
  end.

(** [n] presses of the undo button. *)
Definition undo_n (n : nat) (doc : ImageDocument.t) : ImageDocument.t :=
  Nat.iter n (fun d => snd (ImageDocument.undo d)) doc.

Definition sample_mirrored : Image :=
  mkImage 2 2 [(10, 200, 3); (255, 255, 255); (255, 0, 0); (0, 0, 0)].

(** A library that finds one face, the left column of the image. *)
Definition one_face_imaging : Imaging := {|
  UnsharpMask := fun _ _ _ im => im;
  Brightness_enhance := fun _ im => im;
  Sharpness_enhance := fun _ im => im;
  Contrast_enhance := fun _ im => im;
  bilateralFilter := fun _ _ _ im => im;
  addWeighted := fun a _ _ _ _ => a;
  rotate := fun _ _ im => im;
  mirror := fun im => im;
  Gray := unit;
  cvtColor_RGB2GRAY := fun _ => tt;
  detectMultiScale := fun _ _ _ => Some [(0, 0, 1, 2)%nat]
|}.



(** Nothing pending: the baseline is on display and the parameters are
    at their defaults. *)
Definition clean (doc : ImageDocument.t) : Prop :=
  history doc <> [] /\ pil doc = last_item (history doc) /\
  adjustments doc = default_adjustments.

Definition slider_move (a : action) : Prop :=
  match a with SliderMoved _ v => int32 v | _ => False end.

(** * Properties *)

(** ** Powers of two *)

Lemma pow2_pos (e : Z) : (0 < pow2 e)%R.
Proof. apply powerRZ_lt. lra. Qed.

Lemma pow2_add (a b : Z) : pow2 (a + b) = (pow2 a * pow2 b)%R.
Proof. apply powerRZ_add. lra. Qed.

Lemma pow2_opp (a : Z) : pow2 (- a) = (/ pow2 a)%R.
Proof. apply powerRZ_neg'. Qed.

Lemma pow2_cancel (a : Z) : (pow2 a * pow2 (- a) = 1)%R.
Proof. rewrite <- pow2_add, Z.add_opp_diag_r. reflexivity. Qed.

Lemma pow2_Z (n : Z) : 0 <= n -> pow2 n = IZR (2 ^ n).
Proof.
  intro H. unfold pow2. destruct n as [|p|p]; [reflexivity | | lia].
  cbn [powerRZ]. rewrite pow_IZR, positive_nat_Z. reflexivity.
Qed.

Lemma pow2_ge_1 (n : Z) : 0 <= n -> (1 <= pow2 n)%R.
Proof.
  intro H. rewrite pow2_Z by exact H. apply IZR_le.
  pose proof (Z.pow_pos_nonneg 2 n ltac:(lia) H). lia.
Qed.

Lemma pow2_le (a b : Z) : a <= b -> (pow2 a <= pow2 b)%R.
Proof.
  intro H. replace b with (a + (b - a)) by lia. rewrite pow2_add.
  pose proof (pow2_pos a). pose proof (pow2_ge_1 (b - a) ltac:(lia)). nra.
Qed.

Lemma pow2_lt (a b : Z) : a < b -> (pow2 a < pow2 b)%R.
Proof.
  intro H. replace b with (a + 1 + (b - a - 1)) by lia. rewrite !pow2_add.
  pose proof (pow2_pos a). pose proof (pow2_ge_1 (b - a - 1) ltac:(lia)).
  rewrite (pow2_Z 1) by lia. change (2 ^ 1) with 2. nra.
Qed.

Lemma pow2_lt_inv (a b : Z) : (pow2 a < pow2 b)%R -> a < b.
Proof.
  intro H. destruct (Z_lt_le_dec a b) as [L|L]; [exact L|].
  apply pow2_le in L. lra.
Qed.

(** ** The exponent of a real *)

Lemma ln_2_pos : (0 < ln 2)%R.
Proof. rewrite <- ln_1. apply ln_increasing; lra. Qed.

Lemma pow2_exp (k : Z) : pow2 k = exp (IZR k * ln 2).
Proof. unfold pow2. rewrite powerRZ_Rpower by lra. reflexivity. Qed.

Lemma mag_spec (x : R) :
  x <> 0%R -> (pow2 (mag x - 1) <= Rabs x < pow2 (mag x))%R.
Proof.
  intro Hx. pose proof (Rabs_pos_lt x Hx) as Ha.
  unfold mag. set (L := (ln (Rabs x) / ln 2)%R).
  destruct (base_Int_part L) as [H1 H2].
  pose proof ln_2_pos as H2p.
  assert (E : (L * ln 2 = ln (Rabs x))%R) by (unfold L; field; lra).
  replace (Int_part L + 1 - 1) with (Int_part L) by lia.
  assert (Hexp : Rabs x = exp (L * ln 2)) by (rewrite E, exp_ln; auto).
  rewrite !pow2_exp, plus_IZR, Hexp. split.
  - destruct (Req_dec (IZR (Int_part L)) L) as [Q|Q].
    + rewrite Q. lra.
    + left. apply exp_increasing. nra.
  - apply exp_increasing. nra.
Qed.

Lemma mag_unique (x : R) (e : Z) :
  (pow2 (e - 1) <= Rabs x < pow2 e)%R -> mag x = e.
Proof.
  intros [H1 H2].
  assert (Hx : x <> 0%R).
  { intro Q. rewrite Q, Rabs_R0 in H1. pose proof (pow2_pos (e - 1)). lra. }
  destruct (mag_spec x Hx) as [M1 M2].
  assert (mag x - 1 < e) by (apply pow2_lt_inv; lra).
  assert (e - 1 < mag x) by (apply pow2_lt_inv; lra).
  lia.
Qed.

(** ** Rounding to the nearest integer, ties to even *)

Lemma Int_part_IZR (n : Z) : Int_part (IZR n) = n.
Proof. symmetry. apply Int_part_spec. lra. Qed.

Lemma rnd_even_IZR (n : Z) : rnd_even (IZR n) = n.
Proof.
  unfold rnd_even. rewrite Int_part_IZR.
  destruct Rlt_dec as [_|H]; [reflexivity | lra].
Qed.

Lemma Int_part_bounds (r : R) : (IZR (Int_part r) <= r < IZR (Int_part r) + 1)%R.
Proof. destruct (base_Int_part r). lra. Qed.

Lemma rnd_even_near (r : R) (n : Z) :
  (Rabs (r - IZR n) < 1 / 2)%R -> rnd_even r = n.
Proof.
  intro H. apply Rabs_def2 in H. destruct H as [H1 H2].
  pose proof (Int_part_bounds r) as [F1 F2].
  unfold rnd_even. set (f := Int_part r) in *.
  assert (Hf : f = n \/ f = n - 1).
  { assert (f < n + 1) by (apply lt_IZR; rewrite plus_IZR; lra).
    assert (n - 2 < f) by (apply lt_IZR; rewrite minus_IZR; lra).
    lia. }
  destruct Hf as [-> | ->].
  - destruct Rlt_dec as [_|Q]; [reflexivity | lra].
  - rewrite minus_IZR in *.
    destruct Rlt_dec as [Q|_]; [lra|].
    destruct Rlt_dec as [_|Q]; [lia | lra].
Qed.

Lemma rnd_even_tie (r : R) (n : Z) :
  (Rabs (r - IZR n) = 1 / 2)%R -> Z.even n = true -> rnd_even r = n.
Proof.
  intros H Hn.
  pose proof (Int_part_bounds r) as [F1 F2].
  unfold rnd_even. set (f := Int_part r) in *.
  assert (Hf : f = n /\ (r - IZR n = 1 / 2)%R \/ f = n - 1 /\ (r - IZR n = - (1 / 2))%R).
  { unfold Rabs in H. destruct Rcase_abs in H.
    - right. split; [|lra].
      assert (f < n) by (apply lt_IZR; lra).
      assert (n - 2 < f) by (apply lt_IZR; rewrite minus_IZR; lra).
      lia.
    - left. split; [|lra].
      assert (f < n + 1) by (apply lt_IZR; rewrite plus_IZR; lra).
      assert (n - 1 < f) by (apply lt_IZR; rewrite minus_IZR; lra).
      lia. }
  destruct Hf as [[-> E] | [-> E]].
  - destruct Rlt_dec as [Q|_]; [lra|].
    destruct Rlt_dec as [Q|_]; [lra|].
    rewrite Hn. reflexivity.
  - rewrite minus_IZR in *.
    destruct Rlt_dec as [Q|_]; [lra|].
    destruct Rlt_dec as [Q|_]; [lra|].
    replace (n - 1) with (Z.pred n) by lia.
    rewrite Z.even_pred, <- Z.negb_even, Hn. cbn. lia.
Qed.

Lemma rnd_even_error (r : R) : (Rabs (IZR (rnd_even r) - r) <= 1 / 2)%R.
Proof.
  pose proof (Int_part_bounds r) as [F1 F2].
  unfold rnd_even. set (f := Int_part r) in *.
  destruct Rlt_dec as [Q|Q].
  - apply Rabs_le. lra.
  - destruct Rlt_dec as [Q'|Q'].
    + rewrite plus_IZR. apply Rabs_le. lra.
    + destruct (Z.even f); [|rewrite plus_IZR]; apply Rabs_le; lra.
Qed.

Lemma rnd_even_le (r : R) (n : Z) : (r <= IZR n)%R -> rnd_even r <= n.
Proof.
  intro H. pose proof (Int_part_bounds r) as [F1 F2].
  unfold rnd_even. set (f := Int_part r) in *.
  assert (f <= n) by (apply le_IZR; lra).
  destruct Rlt_dec as [Q|Q]; [assumption|].
  assert (f < n) by (apply lt_IZR; lra).
  destruct Rlt_dec; [lia|]. destruct (Z.even f); lia.
Qed.

Lemma rnd_even_ge (r : R) (n : Z) : (IZR n <= r)%R -> n <= rnd_even r.
Proof.
  intro H. pose proof (Int_part_bounds r) as [F1 F2].
  unfold rnd_even. set (f := Int_part r) in *.
  assert (n < f + 1) by (apply lt_IZR; rewrite plus_IZR; lra).
  destruct Rlt_dec; [lia|]. destruct Rlt_dec; [lia|]. destruct (Z.even f); lia.
Qed.

(** ** Rounding to a binary format *)

Section Format.

Variables pr em : Z.
Hypothesis pr_pos : 0 < pr.

Lemma round_cexp (x : R) :
  round pr em x = (IZR (rnd_even (x * pow2 (- cexp pr em x))) * pow2 (cexp pr em x))%R.
Proof. reflexivity. Qed.

Lemma round_0 : round pr em 0 = 0%R.
Proof. rewrite round_cexp, Rmult_0_l, (rnd_even_IZR 0). lra. Qed.

Lemma cexp_ge (x : R) : em <= cexp pr em x.
Proof. unfold cexp. lia. Qed.

Lemma cexp_normal (x : R) (c : Z) :
  (pow2 (c + pr - 1) <= Rabs x < pow2 (c + pr))%R -> em <= c -> cexp pr em x = c.
Proof.
  intros H Hc. unfold cexp. rewrite (mag_unique x (c + pr) H). lia.
Qed.

Lemma cexp_subnormal (x : R) :
  x <> 0%R -> (Rabs x < pow2 (em + pr))%R -> cexp pr em x = em.
Proof.
  intros Hx H. destruct (mag_spec x Hx) as [M1 _].
  assert (mag x - 1 < em + pr) by (apply pow2_lt_inv; lra).
  unfold cexp. lia.
Qed.

Lemma cexp_le (x : R) (e : Z) :
  x <> 0%R -> (Rabs x < pow2 e)%R -> cexp pr em x <= Z.max (e - pr) em.
Proof.
  intros Hx H. destruct (mag_spec x Hx) as [M1 _].
  assert (mag x - 1 < e) by (apply pow2_lt_inv; lra).
  unfold cexp. lia.
Qed.

(** The value of [round] once the exponent [c] and the nearest
    mantissa [n] are known. *)
Lemma round_near (x : R) (n c : Z) :
  cexp pr em x = c ->
  (Rabs (x * pow2 (- c) - IZR n) < 1 / 2)%R
  \/ (Rabs (x * pow2 (- c) - IZR n) = 1 / 2)%R /\ Z.even n = true ->
  round pr em x = (IZR n * pow2 c)%R.
Proof.
  intros Hc H. rewrite round_cexp, Hc.
  destruct H as [H|[H He]].
  - rewrite (rnd_even_near _ n H). reflexivity.
  - rewrite (rnd_even_tie _ n H He). reflexivity.
Qed.

Lemma round_error (x : R) (e : Z) :
  (Rabs x < pow2 e)%R ->
  (Rabs (round pr em x - x) <= pow2 (Z.max (e - pr) em) / 2)%R.
Proof.
  intro H. destruct (Req_dec x 0) as [->|Hx].
  - rewrite round_0, Rminus_0_r, Rabs_R0.
    pose proof (pow2_pos (Z.max (e - pr) em)). lra.
  - pose proof (cexp_le x e Hx H) as Hc. apply pow2_le in Hc.
    rewrite round_cexp. set (c := cexp pr em x) in *.
    pose proof (rnd_even_error (x * pow2 (- c))) as E.
    pose proof (pow2_pos c) as Pc.
    replace (IZR (rnd_even (x * pow2 (- c))) * pow2 c - x)%R
      with ((IZR (rnd_even (x * pow2 (- c))) - x * pow2 (- c)) * pow2 c)%R.
    2:{ rewrite Rmult_minus_distr_r, Rmult_assoc, (Rmult_comm (pow2 (- c))),
          pow2_cancel. ring. }
    rewrite Rabs_mult, (Rabs_pos_eq (pow2 c)) by lra.
    apply Rle_trans with (1 / 2 * pow2 c)%R; [|lra].
    apply Rmult_le_compat_r; lra.
Qed.

(** What [round] returns is a number of the format. *)
Lemma round_representable (x : R) :
  exists m c : Z,
    round pr em x = (IZR m * pow2 c)%R /\ Z.abs m <= 2 ^ pr /\ em <= c.
Proof.
  destruct (Req_dec x 0) as [->|Hx].
  - exists 0, em. rewrite round_0. split; [lra|]. split; [|lia].
    pose proof (Z.pow_pos_nonneg 2 pr ltac:(lia) ltac:(lia)). lia.
  - exists (rnd_even (x * pow2 (- cexp pr em x))), (cexp pr em x).
    split; [apply round_cexp|]. split; [|apply cexp_ge].
    destruct (mag_spec x Hx) as [_ M2].
    set (c := cexp pr em x).
    assert (Hc : mag x - c <= pr) by (unfold c, cexp; lia).
    assert (B : (Rabs (x * pow2 (- c)) < IZR (2 ^ pr))%R).
    { rewrite Rabs_mult, (Rabs_pos_eq (pow2 (- c))) by (left; apply pow2_pos).
      rewrite <- pow2_Z by lia.
      apply Rlt_le_trans with (pow2 (mag x) * pow2 (- c))%R.
      - apply Rmult_lt_compat_r; [apply pow2_pos | exact M2].
      - rewrite <- pow2_add. apply pow2_le. lia. }
    apply Rabs_def2 in B. destruct B as [B1 B2].
    apply Z.abs_le. split.
    + apply rnd_even_ge. rewrite opp_IZR. lra.
    + apply rnd_even_le. lra.
Qed.

(** A number of the format is left as it is. *)
Lemma round_exact (n e : Z) :
  em <= e -> Z.abs n <= 2 ^ pr ->
  round pr em (IZR n * pow2 e) = (IZR n * pow2 e)%R.
Proof.
  intros He Hn.
  destruct (Z.eq_dec n 0) as [->|Hn0]; [rewrite Rmult_0_l; apply round_0|].
  set (x := (IZR n * pow2 e)%R).
  pose proof (pow2_pos e) as Pe.
  assert (Hx : x <> 0%R).
  { unfold x. apply Rmult_integral_contrapositive_currified; [|lra].
    intro Q. apply eq_IZR in Q. contradiction. }
  assert (Ax : Rabs x = (IZR (Z.abs n) * pow2 e)%R).
  { unfold x. rewrite Rabs_mult, (Rabs_pos_eq (pow2 e)) by lra.
    rewrite <- abs_IZR. reflexivity. }
  assert (Hint : exists m : Z, (x * pow2 (- cexp pr em x) = IZR m)%R).
  { destruct (Z_le_gt_dec (cexp pr em x) e) as [L|G].
    - exists (n * 2 ^ (e - cexp pr em x)). unfold x at 1.
      rewrite Rmult_assoc, <- pow2_add, pow2_Z, <- mult_IZR by lia.
      reflexivity.
    - (* only at the power of two at the top of the range *)
      destruct (mag_spec x Hx) as [M1 M2].
      assert (Hm : e + pr + 1 <= mag x) by (unfold cexp in G; lia).
      assert (Hp : (pow2 (e + pr) <= Rabs x)%R).
      { apply Rle_trans with (pow2 (mag x - 1)); [apply pow2_le; lia | exact M1]. }
      rewrite Ax, pow2_add, (pow2_Z pr) in Hp by lia.
      assert (Hn' : 2 ^ pr <= Z.abs n).
      { apply le_IZR. nra. }
      assert (En : Z.abs n = 2 ^ pr) by lia.
      assert (Em : mag x = e + pr + 1).
      { apply mag_unique. rewrite Ax, En, <- pow2_Z, <- pow2_add by lia.
        split; [apply pow2_le; lia | apply pow2_lt; lia]. }
      assert (Ec : cexp pr em x = e + 1) by (unfold cexp; lia).
      rewrite Ec.
      exists (Z.sgn n * 2 ^ (pr - 1)).
      unfold x.
      replace (IZR n) with (IZR (Z.sgn n) * IZR (Z.abs n))%R
        by (rewrite <- mult_IZR; f_equal; destruct n; reflexivity).
      rewrite En, <- pow2_Z, mult_IZR, <- pow2_Z by lia.
      rewrite !Rmult_assoc, <- !pow2_add. do 2 f_equal. lia. }
  destruct Hint as [m Hm].
  rewrite round_cexp, Hm, rnd_even_IZR, <- Hm.
  rewrite Rmult_assoc, (Rmult_comm (pow2 (- cexp pr em x))), pow2_cancel. ring.
Qed.

Lemma round_idem (x : R) : round pr em (round pr em x) = round pr em x.
Proof.
  destruct (round_representable x) as (m & c & E & Hm & Hc).
  rewrite E. apply round_exact; assumption.
Qed.

Lemma round_IZR (n : Z) :
  em <= 0 -> Z.abs n <= 2 ^ pr -> round pr em (IZR n) = IZR n.
Proof.
  intros He Hn. rewrite <- (Rmult_1_r (IZR n)).
  change 1%R with (pow2 0). apply round_exact; assumption.
Qed.

End Format.

(** ** Symmetry and monotonicity *)

Lemma Int_part_unique (r : R) (n : Z) :
  (IZR n <= r < IZR n + 1)%R -> Int_part r = n.
Proof. intro H. symmetry. apply Int_part_spec. lra. Qed.

Lemma rnd_even_tie_even (r : R) :
  (Rabs (IZR (rnd_even r) - r) = 1 / 2)%R -> Z.even (rnd_even r) = true.
Proof.
  pose proof (Int_part_bounds r) as [F1 F2].
  unfold rnd_even. set (f := Int_part r) in *.
  destruct Rlt_dec as [Q|Q].
  - intro H. exfalso. unfold Rabs in H. destruct Rcase_abs in H; lra.
  - destruct Rlt_dec as [Q'|Q'].
    + rewrite plus_IZR. intro H. exfalso.
      unfold Rabs in H. destruct Rcase_abs in H; lra.
    + intros _. destruct (Z.even f) eqn:Ev; [exact Ev|].
      replace (f + 1) with (Z.succ f) by lia.
      rewrite Z.even_succ, <- Z.negb_even, Ev. reflexivity.
Qed.

Lemma rnd_even_opp (r : R) : rnd_even (- r) = - rnd_even r.
Proof.
  pose proof (rnd_even_error r) as E.
  assert (A : (- r - IZR (- rnd_even r) = - (r - IZR (rnd_even r)))%R)
    by (rewrite opp_IZR; ring).
  destruct E as [E|E].
  - apply rnd_even_near. rewrite A, Rabs_Ropp, Rabs_minus_sym. exact E.
  - apply rnd_even_tie.
    + rewrite A, Rabs_Ropp, Rabs_minus_sym. exact E.
    + rewrite Z.even_opp. apply rnd_even_tie_even, E.
Qed.

Lemma Rabs_le_between (a b : R) : (Rabs a <= b)%R -> (- b <= a <= b)%R.
Proof. unfold Rabs. destruct Rcase_abs; lra. Qed.

Lemma rnd_even_mono (a b : R) : (a <= b)%R -> rnd_even a <= rnd_even b.
Proof.
  intro H.
  destruct (Z_le_gt_dec (rnd_even a) (rnd_even b)) as [L|G]; [exact L|exfalso].
  (* two reals in order whose roundings are out of order: both are ties
     between the two integers, which is impossible *)
  pose proof (rnd_even_error a) as Ea. pose proof (rnd_even_error b) as Eb.
  apply Rabs_le_between in Ea. apply Rabs_le_between in Eb.
  assert (G1 : (IZR (rnd_even b) + 1 <= IZR (rnd_even a))%R).
  { rewrite <- plus_IZR. apply IZR_le. lia. }
  assert (Ta : (IZR (rnd_even a) - a = 1 / 2)%R) by lra.
  assert (Tb : (IZR (rnd_even b) - b = - (1 / 2))%R) by lra.
  assert (Eab : (IZR (rnd_even a) = IZR (rnd_even b) + 1)%R) by lra.
  assert (Ha : Z.even (rnd_even a) = true).
  { apply rnd_even_tie_even. rewrite Ta. apply Rabs_pos_eq. lra. }
  assert (Hb : Z.even (rnd_even b) = true).
  { apply rnd_even_tie_even. rewrite Tb, Rabs_Ropp. apply Rabs_pos_eq. lra. }
  rewrite <- plus_IZR in Eab. apply eq_IZR in Eab.
  rewrite Eab in Ha. replace (rnd_even b + 1) with (Z.succ (rnd_even b)) in Ha by lia.
  rewrite Z.even_succ, <- Z.negb_even, Hb in Ha. discriminate.
Qed.

Lemma mag_opp (x : R) : mag (- x) = mag x.
Proof. unfold mag. rewrite Rabs_Ropp. reflexivity. Qed.

Section Order.

Variables pr em : Z.
Hypothesis pr_pos : 0 < pr.

Lemma round_opp (x : R) : round pr em (- x) = (- round pr em x)%R.
Proof.
  rewrite !round_cexp. unfold cexp. rewrite mag_opp.
  rewrite <- Ropp_mult_distr_l, rnd_even_opp, opp_IZR. ring.
Qed.

Lemma round_nonneg (x : R) : (0 <= x)%R -> (0 <= round pr em x)%R.
Proof.
  intro H. rewrite round_cexp.
  pose proof (pow2_pos (cexp pr em x)). pose proof (pow2_pos (- cexp pr em x)).
  apply Rmult_le_pos; [|lra].
  apply IZR_le, rnd_even_ge. nra.
Qed.

(** Between positive reals. *)
Lemma round_mono_pos (x y : R) :
  (0 < x <= y)%R -> (round pr em x <= round pr em y)%R.
Proof.
  intros [Hx Hxy].
  assert (Nx : x <> 0%R) by lra. assert (Ny : y <> 0%R) by lra.
  destruct (mag_spec x Nx) as [X1 X2]. destruct (mag_spec y Ny) as [Y1 Y2].
  rewrite Rabs_pos_eq in X1, X2, Y1, Y2 by lra.
  assert (Hm : mag x <= mag y).
  { assert (mag x - 1 < mag y) by (apply pow2_lt_inv; lra). lia. }
  rewrite !round_cexp.
  set (cx := cexp pr em x). set (cy := cexp pr em y).
  assert (Hc : cx <= cy) by (unfold cx, cy, cexp; lia).
  destruct (Z.eq_dec cx cy) as [E|NE].
  - rewrite E. apply Rmult_le_compat_r; [left; apply pow2_pos|].
    apply IZR_le, rnd_even_mono.
    apply Rmult_le_compat_r; [left; apply pow2_pos | exact Hxy].
  - (* different exponents: a power of two lies in between *)
    assert (Ecy : cy = mag y - pr) by (unfold cx, cy, cexp in *; lia).
    assert (Hmx : mag x <= mag y - 1) by (unfold cx, cy, cexp in *; lia).
    assert (Hcx : mag x - cx <= pr) by (unfold cx, cexp; lia).
    set (M := Z.max (mag x) cx).
    apply Rle_trans with (pow2 M).
    + assert (EM : pow2 M = (pow2 (M - cx) * pow2 cx)%R)
        by (rewrite <- pow2_add; f_equal; lia).
      rewrite EM. apply Rmult_le_compat_r; [left; apply pow2_pos|].
      rewrite (pow2_Z (M - cx)) by (unfold M; lia).
      apply IZR_le, rnd_even_le.
      rewrite <- (pow2_Z (M - cx)) by (unfold M; lia).
      replace (M - cx) with (M + - cx) by lia. rewrite pow2_add.
      apply Rmult_le_compat_r; [left; apply pow2_pos|].
      apply Rle_trans with (pow2 (mag x)); [lra | apply pow2_le; unfold M; lia].
    + apply Rle_trans with (pow2 (mag y - 1)); [apply pow2_le; unfold M; lia|].
      assert (EY : pow2 (mag y - 1) = (pow2 (pr - 1) * pow2 cy)%R)
        by (rewrite <- pow2_add; f_equal; lia).
      rewrite EY. apply Rmult_le_compat_r; [left; apply pow2_pos|].
      rewrite (pow2_Z (pr - 1)) by lia.
      apply IZR_le, rnd_even_ge.
      rewrite <- (pow2_Z (pr - 1)) by lia.
      replace (pr - 1) with (mag y - 1 + - cy) by lia. rewrite pow2_add.
      apply Rmult_le_compat_r; [left; apply pow2_pos | lra].
Qed.

Lemma round_mono (x y : R) :
  (x <= y)%R -> (round pr em x <= round pr em y)%R.
Proof.
  intro H.
  destruct (Rlt_le_dec 0 x) as [Px|Nx].
  - apply round_mono_pos. lra.
  - destruct (Rlt_le_dec y 0) as [Ny|Py].
    + (* both negative *)
      replace x with (- - x)%R by ring. replace y with (- - y)%R by ring.
      rewrite (round_opp (- x)), (round_opp (- y)).
      apply Ropp_le_contravar, round_mono_pos. lra.
    + apply Rle_trans with 0%R; [|apply round_nonneg, Py].
      replace x with (- - x)%R by ring. rewrite round_opp.
      pose proof (round_nonneg (- x) ltac:(lra)). lra.
Qed.

End Order.

(** ** Evaluation on rationals *)

Lemma scaled_den_pos (q c : Z) : 0 < q -> 0 < scaled_den q c.
Proof.
  intro H. unfold scaled_den. destruct (0 <=? c) eqn:E; [|exact H].
  apply Z.leb_le in E. pose proof (Z.pow_pos_nonneg 2 c ltac:(lia) E). nia.
Qed.

Lemma scaled_frac (p q c : Z) :
  0 < q ->
  (IZR p / IZR q * pow2 (- c) = IZR (scaled_num p c) / IZR (scaled_den q c))%R.
Proof.
  intro H. assert (Hq : (0 < IZR q)%R) by (apply (IZR_lt 0), H).
  unfold scaled_num, scaled_den. destruct (0 <=? c) eqn:E.
  - apply Z.leb_le in E. rewrite pow2_opp, (pow2_Z c), mult_IZR by exact E.
    assert (0 < IZR (2 ^ c))%R.
    { apply (IZR_lt 0). apply Z.pow_pos_nonneg; lia. }
    field. lra.
  - apply Z.leb_gt in E. rewrite (pow2_Z (- c)), mult_IZR by lia.
    field. lra.
Qed.

Lemma mag_Q_ok (p q : Z) :
  p <> 0 -> 0 < q -> mag (IZR p / IZR q) = mag_Q p q.
Proof.
  intros Hp Hq. assert (Hq' : (0 < IZR q)%R) by (apply (IZR_lt 0), Hq).
  assert (Ha : 0 < Z.abs p) by lia.
  assert (Ea : Rabs (IZR p / IZR q) = (IZR (Z.abs p) / IZR q)%R).
  { unfold Rdiv. rewrite Rabs_mult, Rabs_inv, (Rabs_pos_eq (IZR q)), <- abs_IZR by lra.
    reflexivity. }
  destruct (Z.log2_spec (Z.abs p) Ha) as [A1 A2].
  destruct (Z.log2_spec q Hq) as [Q1 Q2].
  pose proof (Z.log2_nonneg (Z.abs p)) as La. pose proof (Z.log2_nonneg q) as Lq.
  apply IZR_le in A1, Q1. apply IZR_lt in A2, Q2.
  rewrite <- !pow2_Z in A1, A2, Q1, Q2 by lia.
  replace (Z.succ (Z.log2 (Z.abs p))) with (Z.log2 (Z.abs p) + 1) in A2 by lia.
  replace (Z.succ (Z.log2 q)) with (Z.log2 q + 1) in Q2 by lia.
  unfold mag_Q. set (d := Z.log2 (Z.abs p) - Z.log2 q).
  set (a := IZR (Z.abs p)) in *. set (lp := Z.log2 (Z.abs p)) in *.
  set (lq := Z.log2 q) in *.
  pose proof (scaled_frac (Z.abs p) q d Hq) as S. fold a in S.
  pose proof (scaled_den_pos q d Hq) as Dp. apply (IZR_lt 0) in Dp.
  pose proof (pow2_pos d) as Pd. pose proof (pow2_pos (- d)) as Pnd.
  pose proof (pow2_cancel d) as Cd.
  pose proof (pow2_pos lq) as Plq.
  assert (U : (a / IZR q < pow2 (d + 1))%R).
  { replace (d + 1) with ((lp + 1) + - lq) by (unfold d; lia).
    rewrite pow2_add, pow2_opp.
    apply Rlt_le_trans with (pow2 (lp + 1) / IZR q)%R.
    - apply Rmult_lt_compat_r; [apply Rinv_0_lt_compat; lra | exact A2].
    - unfold Rdiv. apply Rmult_le_compat_l; [left; apply pow2_pos|].
      apply Rinv_le_contravar; lra. }
  assert (W : (pow2 (d - 1) < a / IZR q)%R).
  { replace (d - 1) with (lp + - (lq + 1)) by (unfold d; lia).
    rewrite pow2_add, pow2_opp.
    pose proof (pow2_pos (lq + 1)). pose proof (pow2_pos lp).
    apply Rlt_le_trans with (pow2 lp / IZR q)%R.
    - unfold Rdiv. apply Rmult_lt_compat_l; [lra|].
      apply Rinv_lt_contravar; [nra | lra].
    - apply Rmult_le_compat_r; [left; apply Rinv_0_lt_compat; lra | exact A1]. }
  assert (T : (a / IZR q = IZR (scaled_num (Z.abs p) d) / IZR (scaled_den q d) * pow2 d)%R).
  { rewrite <- S. rewrite Rmult_assoc, (Rmult_comm (pow2 (- d))), Cd. ring. }
  apply mag_unique. rewrite Ea.
  destruct (scaled_den q d <=? scaled_num (Z.abs p) d) eqn:E.
  - apply Z.leb_le in E. apply IZR_le in E.
    replace (d + 1 - 1) with d by lia. split; [|exact U].
    rewrite T.
    assert (1 <= IZR (scaled_num (Z.abs p) d) / IZR (scaled_den q d))%R.
    { apply Rmult_le_reg_r with (IZR (scaled_den q d)); [exact Dp|].
      unfold Rdiv. rewrite Rmult_assoc, Rinv_l by lra. lra. }
    nra.
  - apply Z.leb_gt in E. apply IZR_lt in E.
    split; [left; exact W|].
    rewrite T.
    assert (IZR (scaled_num (Z.abs p) d) / IZR (scaled_den q d) < 1)%R.
    { apply Rmult_lt_reg_r with (IZR (scaled_den q d)); [exact Dp|].
      unfold Rdiv. rewrite Rmult_assoc, Rinv_l by lra. lra. }
    nra.
Qed.

Lemma rnd_even_Q_ok (N D : Z) :
  0 < D -> rnd_even (IZR N / IZR D) = rnd_even_Q N D.
Proof.
  intro HD. assert (HD' : (0 < IZR D)%R) by (apply (IZR_lt 0), HD).
  pose proof (Z.div_mod N D ltac:(lia)) as E.
  pose proof (Z.mod_pos_bound N D HD) as [R0 R1].
  unfold rnd_even_Q. set (f := N / D) in *. set (r := N mod D) in *.
  assert (V : (IZR N / IZR D = IZR f + IZR r / IZR D)%R).
  { rewrite E, plus_IZR, mult_IZR. field. lra. }
  assert (Hr : (0 <= IZR r / IZR D < 1)%R).
  { apply IZR_le in R0. apply IZR_lt in R1. split.
    - apply Rmult_le_pos; [lra | left; apply Rinv_0_lt_compat; lra].
    - apply Rmult_lt_reg_r with (IZR D); [lra|].
      unfold Rdiv. rewrite Rmult_assoc, Rinv_l by lra. lra. }
  destruct (2 * r <? D) eqn:C1.
  - apply Z.ltb_lt in C1. apply IZR_lt in C1. rewrite mult_IZR in C1.
    apply rnd_even_near. rewrite V.
    assert (IZR r / IZR D < 1 / 2)%R.
    { apply Rmult_lt_reg_r with (IZR D); [lra|].
      unfold Rdiv. rewrite Rmult_assoc, Rinv_l by lra. lra. }
    apply Rabs_def1; lra.
  - apply Z.ltb_ge in C1. destruct (D <? 2 * r) eqn:C2.
    + apply Z.ltb_lt in C2. apply IZR_lt in C2. rewrite mult_IZR in C2.
      apply rnd_even_near. rewrite V, plus_IZR.
      assert (1 / 2 < IZR r / IZR D)%R.
      { apply Rmult_lt_reg_r with (IZR D); [lra|].
        unfold Rdiv at 2. rewrite Rmult_assoc, Rinv_l by lra. lra. }
      apply Rabs_def1; lra.
    + apply Z.ltb_ge in C2. assert (T : 2 * r = D) by lia.
      apply (f_equal IZR) in T. rewrite mult_IZR in T.
      assert (IZR r / IZR D = 1 / 2)%R.
      { apply Rmult_eq_reg_r with (IZR D); [|lra].
        unfold Rdiv at 1. rewrite Rmult_assoc, Rinv_l by lra. lra. }
      destruct (Z.even f) eqn:Ev.
      * apply rnd_even_tie; [|exact Ev].
        rewrite V. replace (IZR f + IZR r / IZR D - IZR f)%R with (1 / 2)%R by lra.
        apply Rabs_pos_eq. lra.
      * apply rnd_even_tie.
        -- rewrite V, plus_IZR.
           replace (IZR f + IZR r / IZR D - (IZR f + 1))%R with (- (1 / 2))%R by lra.
           rewrite Rabs_Ropp. apply Rabs_pos_eq. lra.
        -- replace (f + 1) with (Z.succ f) by lia.
           rewrite Z.even_succ, <- Z.negb_even, Ev. reflexivity.
Qed.

Lemma round_Q_ok (pr em p q : Z) :
  0 < q ->
  round pr em (IZR p / IZR q)
  = (IZR (fst (round_Q pr em p q)) * pow2 (snd (round_Q pr em p q)))%R.
Proof.
  intro Hq. unfold round_Q. destruct (p =? 0) eqn:E.
  - apply Z.eqb_eq in E. subst p. cbn [fst snd].
    unfold Rdiv. rewrite !Rmult_0_l. rewrite round_cexp, Rmult_0_l, (rnd_even_IZR 0). lra.
  - apply Z.eqb_neq in E. cbn [fst snd].
    rewrite round_cexp. unfold cexp. rewrite (mag_Q_ok p q E Hq).
    set (c := Z.max (mag_Q p q - pr) em).
    rewrite (scaled_frac p q c Hq).
    rewrite (rnd_even_Q_ok _ _ (scaled_den_pos q c Hq)). reflexivity.
Qed.

Lemma round_frac_ok (pr em p q : Z) :
  0 < q ->
  round pr em (IZR p / IZR q)
  = (IZR (fst (round_frac pr em p q)) / IZR (snd (round_frac pr em p q)))%R
  /\ 0 < snd (round_frac pr em p q).
Proof.
  intro Hq. rewrite (round_Q_ok pr em p q Hq). unfold round_frac.
  destruct (round_Q pr em p q) as [m c]. cbn [fst snd].
  split; [|apply scaled_den_pos; lia].
  rewrite <- (scaled_frac m 1 (- c)) by lia.
  rewrite Z.opp_involutive. field.
Qed.

(** ** binary32 and binary64 *)

Lemma pow2_neg (n : Z) : 0 <= n -> pow2 (- n) = (/ IZR (2 ^ n))%R.
Proof. intro H. rewrite pow2_opp, pow2_Z by exact H. reflexivity. Qed.

Lemma fl32_0 : fl32 0 = 0%R.
Proof. apply round_0. Qed.

Lemma fl64_0 : fl64 0 = 0%R.
Proof. apply round_0. Qed.

Lemma fl32_IZR (n : Z) : Z.abs n <= 16777216 -> fl32 (IZR n) = IZR n.
Proof. intro H. apply round_IZR; [lia | lia | exact H]. Qed.

Lemma fl64_IZR (n : Z) : Z.abs n <= 9007199254740992 -> fl64 (IZR n) = IZR n.
Proof. intro H. apply round_IZR; [lia | lia | exact H]. Qed.

Lemma fl32_1 : fl32 1 = 1%R.
Proof. apply (fl32_IZR 1). lia. Qed.

Lemma fl32_idem (x : R) : fl32 (fl32 x) = fl32 x.
Proof. apply round_idem. lia. Qed.

Lemma fl32_mono (x y : R) : (x <= y)%R -> (fl32 x <= fl32 y)%R.
Proof. apply round_mono. lia. Qed.

Lemma fl32_frac (p q a b : Z) :
  0 < q -> round_frac 24 (-149) p q = (a, b) ->
  fl32 (IZR p / IZR q) = (IZR a / IZR b)%R.
Proof.
  intros Hq E. unfold fl32.
  rewrite (proj1 (round_frac_ok 24 (-149) p q Hq)), E. reflexivity.
Qed.

Lemma fl64_frac (p q a b : Z) :
  0 < q -> round_frac 53 (-1074) p q = (a, b) ->
  fl64 (IZR p / IZR q) = (IZR a / IZR b)%R.
Proof.
  intros Hq E. unfold fl64.
  rewrite (proj1 (round_frac_ok 53 (-1074) p q Hq)), E. reflexivity.
Qed.

(** Evaluates the roundings of literal fractions in the goal. *)
Ltac fl_eval :=
  repeat match goal with
  | |- context [fl64 (IZR ?p / IZR ?q)] =>
      let v := eval vm_compute in (round_frac 53 (-1074) p q) in
      match v with
      | (?a, ?b) =>
          rewrite (fl64_frac p q a b) by first [lia | vm_compute; reflexivity]
      end
  | |- context [fl32 (IZR ?p / IZR ?q)] =>
      let v := eval vm_compute in (round_frac 24 (-149) p q) in
      match v with
      | (?a, ?b) =>
          rewrite (fl32_frac p q a b) by first [lia | vm_compute; reflexivity]
      end
  end.

(** Brings an operation on literal fractions and integers to one
    fraction. *)
Ltac frac_norm :=
  match goal with
  | |- context [(IZR ?a / IZR ?b * (IZR ?c / IZR ?d))%R] =>
      let n := eval vm_compute in (a * c) in
      let m := eval vm_compute in (b * d) in
      replace (IZR a / IZR b * (IZR c / IZR d))%R with (IZR n / IZR m)%R by lra
  | |- context [(IZR ?a / IZR ?b * IZR ?c)%R] =>
      let n := eval vm_compute in (a * c) in
      replace (IZR a / IZR b * IZR c)%R with (IZR n / IZR b)%R by lra
  | |- context [(IZR ?c * (IZR ?a / IZR ?b))%R] =>
      let n := eval vm_compute in (c * a) in
      replace (IZR c * (IZR a / IZR b))%R with (IZR n / IZR b)%R by lra
  | |- context [(IZR ?a / IZR ?b + IZR ?c / IZR ?d)%R] =>
      let n := eval vm_compute in (a * d + c * b) in
      let m := eval vm_compute in (b * d) in
      replace (IZR a / IZR b + IZR c / IZR d)%R with (IZR n / IZR m)%R by lra
  | |- context [(IZR ?a / IZR ?b - IZR ?c / IZR ?d)%R] =>
      let n := eval vm_compute in (a * d - c * b) in
      let m := eval vm_compute in (b * d) in
      replace (IZR a / IZR b - IZR c / IZR d)%R with (IZR n / IZR m)%R by lra
  | |- context [(IZR ?a / IZR ?b + IZR ?c)%R] =>
      let n := eval vm_compute in (a + c * b) in
      replace (IZR a / IZR b + IZR c)%R with (IZR n / IZR b)%R by lra
  | |- context [(IZR ?a / IZR ?b - IZR ?c)%R] =>
      let n := eval vm_compute in (a - c * b) in
      replace (IZR a / IZR b - IZR c)%R with (IZR n / IZR b)%R by lra
  | |- context [(IZR ?c - IZR ?a / IZR ?b)%R] =>
      let n := eval vm_compute in (c * b - a) in
      replace (IZR c - IZR a / IZR b)%R with (IZR n / IZR b)%R by lra
  | |- context [(IZR ?a / IZR ?b / (IZR ?c / IZR ?d))%R] =>
      let n := eval vm_compute in (a * d) in
      let m := eval vm_compute in (b * c) in
      replace (IZR a / IZR b / (IZR c / IZR d))%R with (IZR n / IZR m)%R by lra
  end.

Ltac fl_compute := repeat first [progress fl_eval | progress frac_norm].

(** The error of one rounding, for a real below [2^e] in the normal
    range. *)
Lemma fl32_error (x : R) (e : Z) :
  -125 <= e -> (Rabs x < pow2 e)%R -> (Rabs (fl32 x - x) <= pow2 (e - 25))%R.
Proof.
  intros He H. pose proof (round_error 24 (-149) x e H) as E.
  rewrite Z.max_l in E by lia.
  replace (e - 24) with ((e - 25) + 1) in E by lia.
  rewrite pow2_add, (pow2_Z 1) in E by lia. change (2 ^ 1) with 2 in E.
  unfold fl32. lra.
Qed.

Lemma fl32_error_2 (x : R) :
  (Rabs x < 2)%R -> (Rabs (fl32 x - x) <= / 16777216)%R.
Proof.
  intro H. pose proof (fl32_error x 1 ltac:(lia)) as E.
  rewrite (pow2_Z 1) in E by lia. change (1 - 25) with (Z.opp 24) in E.
  rewrite (pow2_neg 24) in E by lia. exact (E H).
Qed.

Lemma fl32_error_128 (x : R) :
  (Rabs x < 128)%R -> (Rabs (fl32 x - x) <= / 262144)%R.
Proof.
  intro H. pose proof (fl32_error x 7 ltac:(lia)) as E.
  rewrite (pow2_Z 7) in E by lia. change (7 - 25) with (Z.opp 18) in E.
  rewrite (pow2_neg 18) in E by lia. exact (E H).
Qed.

Lemma fl32_error_256 (x : R) :
  (Rabs x < 256)%R -> (Rabs (fl32 x - x) <= / 131072)%R.
Proof.
  intro H. pose proof (fl32_error x 8 ltac:(lia)) as E.
  rewrite (pow2_Z 8) in E by lia. change (8 - 25) with (Z.opp 17) in E.
  rewrite (pow2_neg 17) in E by lia. exact (E H).
Qed.



(** ** The model on small inputs *)

Example crop_sample :
  crop (1, 0, 1, 2)%nat sample_image = mkImage 1 2 [(10, 200, 3); (255, 0, 0)].
Proof. reflexivity. Qed.

(** A slice that reaches over the border is cut at the border. *)
Example crop_over_border :
  crop (1, 1, 5, 5)%nat sample_image = mkImage 1 1 [(255, 0, 0)].
Proof. reflexivity. Qed.

Example paste_sample :
  paste (1, 0, 1, 2)%nat (mkImage 1 2 [(1, 1, 1); (2, 2, 2)]) sample_image
  = mkImage 2 2 [(255, 255, 255); (1, 1, 1); (0, 0, 0); (2, 2, 2)].
Proof. reflexivity. Qed.

Example orange_sample (L : Imaging) :
  effect_image "orange" sample_image
  = Some (mkImage 2 2 [(255, 255, 255); (22, 206, 3); (12, 6, 0); (255, 6, 0)]).
Proof. reflexivity. Qed.

Example init_sample :
  ImageDocument.init None (Some black_image)
  = mk None (Some black_image) [black_image] default_adjustments
  /\ ImageDocument.init None None = mk None None [] default_adjustments.
Proof. split; reflexivity. Qed.

(** With no tab open a method returns at once. *)
Lemma on_current_no_tab (body : ImageDocument.t -> outcome * ImageDocument.t) :
  PhotoEditorMain.on_current body None = (Returned, None).
Proof. reflexivity. Qed.

(** The reset button puts the parameters at their defaults and the
    baseline itself on display. *)
Lemma reset_shows_baseline (doc : ImageDocument.t) (base : Image) :
  last_item (history doc) = Some base ->
  PhotoEditorMain.reset_adjustments doc
  = (Returned, mk (path doc) (Some base) (history doc) default_adjustments).
Proof.
  intro H. unfold PhotoEditorMain.reset_adjustments.
  cbn [ImageDocument.reset_adjustments set_adjustments history].
  rewrite H. reflexivity.
Qed.

(** ** Counting *)

Section Counting.

Lemma occurrences_cons (k x : Z) (xs : list Z) :
  occurrences k (x :: xs)
  = ((if Z.eqb k x then 1%nat else 0%nat) + occurrences k xs)%nat.
Proof.
  unfold occurrences; simpl.
  destruct (Z.eqb k x); reflexivity.
Qed.

Lemma list_sum_map_add {A : Type} (f g : A -> nat) (l : list A) :
  list_sum (map (fun a => (f a + g a)%nat) l)
  = (list_sum (map f l) + list_sum (map g l))%nat.
Proof.
  induction l as [|a l IH]; simpl; [reflexivity | rewrite IH; lia].
Qed.

(** Exactly one bin among the first [n] receives a value of [[0, n)]. *)
Lemma one_bin (x : Z) (n : nat) :
  list_sum (map (fun k => if Z.eqb (Z.of_nat k) x then 1%nat else 0%nat) (seq 0 n))
  = if (0 <=? x) && (x <? Z.of_nat n) then 1%nat else 0%nat.
Proof.
  induction n as [|n IH].
  - simpl. destruct (0 <=? x) eqn:E0; simpl; [|reflexivity].
    destruct (x <? 0) eqn:E1; [lia | reflexivity].
  - rewrite seq_S, map_app, list_sum_app, IH, Nat2Z.inj_succ.
    cbn [map Nat.add]. unfold list_sum at 1. cbn [fold_right].
    destruct (Z.eqb_spec (Z.of_nat n) x) as [E|E];
      destruct (Z.leb_spec 0 x); destruct (Z.ltb_spec x (Z.of_nat n));
      destruct (Z.ltb_spec x (Z.succ (Z.of_nat n))); cbn [andb]; lia.
Qed.

Lemma bins_sum (n : nat) (xs : list Z) :
  Forall (fun x => 0 <= x < Z.of_nat n) xs ->
  list_sum (map (fun k => occurrences (Z.of_nat k) xs) (seq 0 n)) = List.length xs.
Proof.
  induction 1 as [|x xs Hx _ IH]; simpl.
  - induction (seq 0 n); simpl; auto.
  - rewrite (map_ext _ (fun k => ((if Z.eqb (Z.of_nat k) x then 1 else 0)
                                   + occurrences (Z.of_nat k) xs)%nat))
      by (intro; apply occurrences_cons).
    rewrite list_sum_map_add, one_bin, IH.
    destruct (Z.leb_spec 0 x); destruct (Z.ltb_spec x (Z.of_nat n)); simpl; lia.
Qed.

Lemma max_uint8 (xs : list Z) :
  Forall uint8 xs -> -1 <= fold_right Z.max (-1) xs <= 255.
Proof.
  unfold uint8. induction 1; simpl; lia.
Qed.

Lemma bincount_uint8 (xs : list Z) :
  Forall uint8 xs ->
  bincount xs 256 = map (fun k => occurrences (Z.of_nat k) xs) (seq 0 256).
Proof.
  intro H. unfold bincount.
  replace (Nat.max 256 _) with 256%nat; [reflexivity|].
  pose proof (max_uint8 xs H). lia.
Qed.

Lemma bincount_length (xs : list Z) :
  Forall uint8 xs -> List.length (bincount xs 256) = 256%nat.
Proof.
  intro H. rewrite (bincount_uint8 xs H), length_map, length_seq. reflexivity.
Qed.

Lemma bincount_sum (xs : list Z) :
  Forall uint8 xs -> list_sum (bincount xs 256) = List.length xs.
Proof.
  intro H. rewrite (bincount_uint8 xs H). apply bins_sum.
  revert H. apply Forall_impl. unfold uint8. intros; lia.
Qed.

Lemma bincount_nth (xs : list Z) (k : nat) :
  Forall uint8 xs -> (k < 256)%nat ->
  nth k (bincount xs 256) 0%nat = occurrences (Z.of_nat k) xs.
Proof.
  intros H Hk. rewrite (bincount_uint8 xs H).
  set (f := fun k => occurrences (Z.of_nat k) xs).
  rewrite (nth_indep _ 0%nat (f 0%nat))
    by (rewrite length_map, length_seq; exact Hk).
  rewrite map_nth, seq_nth by exact Hk. reflexivity.
Qed.

End Counting.

(** ** The luma array *)

Section Luma.

Lemma in_levels (v : Z) : uint8 v -> In v levels.
Proof.
  intros [H0 H1]. unfold levels.
  rewrite <- (Z2Nat.id v) by exact H0.
  apply in_map, in_seq. lia.
Qed.

(** Over all [2^24] pixels the truncated binary64 luma is the exact
    rounded-down luma or one less. *)
Lemma luma_near_floor_all :
  forallb (fun r => greens_near (2126 * Uint63.of_Z r)%uint63
                                (0.2126 * Float64.of_uint8 r)%float) levels = true.
Proof. vm_cast_no_check (eq_refl true). Qed.

Lemma to_Z_scaled (c v : Z) :
  0 <= c <= 10000 -> uint8 v ->
  Uint63.to_Z (Uint63.of_Z c * Uint63.of_Z v)%uint63 = c * v.
Proof.
  intros Hc [H0 H1].
  assert (W : wB = 9223372036854775808) by reflexivity.
  rewrite Uint63.mul_spec, !Uint63.of_Z_spec.
  rewrite (Z.mod_small c), (Z.mod_small v) by lia.
  apply Z.mod_small. nia.
Qed.

Lemma luma_floor_le (p : pixel) : pixel_ok p -> 0 <= luma_floor p <= 255.
Proof.
  destruct p as [[r g] b]. intros (Hr & Hg & Hb).
  unfold luma_floor. cbn [red green blue fst snd] in *.
  destruct Hr, Hg, Hb. split.
  - apply Z.div_pos; lia.
  - apply Z.div_le_upper_bound; lia.
Qed.

Lemma luma_near_floor (p : pixel) :
  pixel_ok p ->
  luma_floor p - 1 <= Uint63.to_Z (Float64.trunc (luma p)) <= luma_floor p.
Proof.
  intro Hp. pose proof (luma_floor_le p Hp) as F. revert Hp F.
  destruct p as [[r g] b]. intros (Hr & Hg & Hb) F. cbn [red green blue fst snd] in *.
  pose proof (proj1 (forallb_forall _ _) luma_near_floor_all r (in_levels r Hr)) as H1.
  pose proof (proj1 (forallb_forall _ _) H1 _
                (in_map (fun g => ((7152 * Uint63.of_Z g)%uint63,
                                   (0.7152 * Float64.of_uint8 g)%float)) _ g
                        (in_levels g Hg))) as H2.
  pose proof (proj1 (forallb_forall _ _) H2 _
                (in_map (fun b => ((722 * Uint63.of_Z b)%uint63,
                                   (0.0722 * Float64.of_uint8 b)%float)) _ b
                        (in_levels b Hb))) as H3.
  cbn [fst snd] in H3.
  change (Float64.trunc _) with (Float64.trunc (luma (r, g, b))) in H3.
  set (t := Float64.trunc (luma (r, g, b))) in *.
  unfold near in H3. apply andb_true_iff in H3. destruct H3 as [Hle Hge].
  rewrite Uint63.leb_spec in Hle, Hge.
  assert (W : wB = 9223372036854775808) by reflexivity.
  assert (E : Uint63.to_Z ((2126 * Uint63.of_Z r + 7152 * Uint63.of_Z g
                             + 722 * Uint63.of_Z b) / 10000)%uint63
              = luma_floor (r, g, b)).
  { unfold luma_floor. cbn [red green blue fst snd].
    rewrite Uint63.div_spec, !Uint63.add_spec.
    change 2126%uint63 with (Uint63.of_Z 2126).
    change 7152%uint63 with (Uint63.of_Z 7152).
    change 722%uint63 with (Uint63.of_Z 722).
    rewrite !to_Z_scaled by (assumption || lia).
    destruct Hr, Hg, Hb.
    rewrite (Z.mod_small (2126 * r + 7152 * g)) by lia.
    rewrite Z.mod_small by lia. reflexivity. }
  pose proof (Uint63.to_Z_bounded t) as Ht.
  rewrite Uint63.sub_spec in Hge. rewrite E in Hle, Hge.
  change (Uint63.to_Z 1) with 1 in Hge.
  rewrite Z.mod_small in Hge by lia.
  lia.
Qed.

Lemma luma_trunc_le (p : pixel) :
  pixel_ok p -> 0 <= Uint63.to_Z (Float64.trunc (luma p)) <= 255.
Proof.
  intro Hp. pose proof (luma_near_floor p Hp). pose proof (luma_floor_le p Hp).
  pose proof (Uint63.to_Z_bounded (Float64.trunc (luma p))). lia.
Qed.

(** The cast keeps eight bits, so it always lands on a bin. *)
Lemma astype_uint8_land (f : float) :
  Float64.astype_uint8 f = Uint63.to_Z (Float64.trunc f) mod 256.
Proof.
  unfold Float64.astype_uint8. rewrite Uint63.land_spec'.
  change (Uint63.to_Z 255) with (Z.ones 8).
  rewrite Z.land_ones by lia. reflexivity.
Qed.

Lemma lum_uint8_range (p : pixel) : uint8 (lum_uint8 p).
Proof.
  unfold lum_uint8, uint8. rewrite astype_uint8_land.
  pose proof (Z.mod_pos_bound (Uint63.to_Z (Float64.trunc (luma p))) 256). lia.
Qed.

(** On an 8-bit pixel the cast is the truncation itself: nothing
    wraps. *)
Lemma lum_uint8_trunc (p : pixel) :
  pixel_ok p -> lum_uint8 p = Uint63.to_Z (Float64.trunc (luma p)).
Proof.
  intro H. unfold lum_uint8. rewrite astype_uint8_land.
  apply luma_trunc_le in H. apply Z.mod_small. lia.
Qed.

(** Binary64 rounding puts the luma of white just below 255, where the
    exact weighted sum is 255. *)
Example luma_white : lum_uint8 (255, 255, 255) = 254 /\ luma_floor (255, 255, 255) = 255.
Proof. split; vm_compute; reflexivity. Qed.

(** The two readings of the integer part agree on sample values. *)
Example trunc_samples :
  map (fun f => Uint63.to_Z (Float64.trunc f))
      [0; 0.25; 0.9999999999999999; 1; 1.5; 54.213; 254.99999999999997; 255;
       65535.75; 4503599627370496.5]%float
  = map Float64.trunc_spec
      [0; 0.25; 0.9999999999999999; 1; 1.5; 54.213; 254.99999999999997; 255;
       65535.75; 4503599627370496.5]%float.
Proof. vm_compute. reflexivity. Qed.

Example luma_samples :
  map lum_uint8 [(0, 0, 0); (255, 0, 0); (0, 255, 0); (0, 0, 255); (10, 200, 3)]
  = [0; 54; 182; 18; 145].
Proof. vm_compute. reflexivity. Qed.

End Luma.

Lemma occurrences_map {A : Type} (f : A -> Z) (k : Z) (l : list A) :
  occurrences k (map f l) = List.length (filter (fun a => Z.eqb k (f a)) l).
Proof.
  unfold occurrences. induction l as [|a l IH]; simpl; [reflexivity|].
  destruct (Z.eqb k (f a)); simpl; rewrite IH; reflexivity.
Qed.

Lemma Forall_map_uint8 {A : Type} (f : A -> Z) (l : list A) :
  (forall a, In a l -> uint8 (f a)) -> Forall uint8 (map f l).
Proof.
  intro H. apply Forall_forall. intros x Hx.
  apply in_map_iff in Hx. destruct Hx as (a & <- & Ha). auto.
Qed.

(** ** C8: the histogram *)

(** C8 (as the code has it).  For every 8-bit RGB image,
    [compute_histogram] returns four arrays of length 256 (red, green,
    blue, luma); each of them sums to width times height, which is also
    the [total] entry; bin [k] of the red, green and blue arrays counts
    the pixels whose red, green and blue sample is [k]; and bin [k] of
    the luma array counts the pixels whose luma
    [0.2126*r + 0.7152*g + 0.0722*b], as the source computes it in
    binary64, has the integer part [k].  That integer part is not always
    the rounded-down exact luma: it is the rounded-down exact luma or,
    where the binary64 sum falls just below an integer, one less. *)
Theorem C8_histogram_sums (im : Image) :
  valid_image im ->
  let h := compute_histogram im in
  (List.length (hist_r h) = 256 /\ List.length (hist_g h) = 256 /\
   List.length (hist_b h) = 256 /\ List.length (hist_lum h) = 256)%nat /\
  (list_sum (hist_r h) = width im * height im /\
   list_sum (hist_g h) = width im * height im /\
   list_sum (hist_b h) = width im * height im /\
   list_sum (hist_lum h) = width im * height im /\
   hist_total h = width im * height im)%nat /\
  (forall k : nat, (k < 256)%nat ->
     nth k (hist_r h) 0%nat
     = List.length (filter (fun p => Z.eqb (Z.of_nat k) (red p)) (pixels im)) /\
     nth k (hist_g h) 0%nat
     = List.length (filter (fun p => Z.eqb (Z.of_nat k) (green p)) (pixels im)) /\
     nth k (hist_b h) 0%nat
     = List.length (filter (fun p => Z.eqb (Z.of_nat k) (blue p)) (pixels im))) /\
  (forall k : nat, (k < 256)%nat ->
     nth k (hist_lum h) 0%nat
     = List.length (filter (fun p => Z.eqb (Z.of_nat k)
                                       (Uint63.to_Z (Float64.trunc (luma p))))
                           (pixels im))) /\
  (forall p : pixel, In p (pixels im) ->
     luma_floor p - 1 <= Uint63.to_Z (Float64.trunc (luma p)) <= luma_floor p).
Proof.
  intros [Hlen Hpix] h.
  assert (Hr : Forall uint8 (map red (pixels im))).
  { apply Forall_map_uint8. intros p Hp.
    rewrite Forall_forall in Hpix. apply (Hpix p Hp). }
  assert (Hg : Forall uint8 (map green (pixels im))).
  { apply Forall_map_uint8. intros p Hp.
    rewrite Forall_forall in Hpix. apply (Hpix p Hp). }
  assert (Hb : Forall uint8 (map blue (pixels im))).
  { apply Forall_map_uint8. intros p Hp.
    rewrite Forall_forall in Hpix. apply (Hpix p Hp). }
  assert (Hl : Forall uint8 (map lum_uint8 (pixels im))).
  { apply Forall_map_uint8. intros p _. apply lum_uint8_range. }
  subst h. unfold compute_histogram, convert_RGB.
  cbn [hist_r hist_g hist_b hist_lum hist_total].
  rewrite !bincount_length, !bincount_sum by assumption.
  rewrite !length_map, Hlen.
  rewrite Forall_forall in Hpix.
  split; [repeat split|]. split; [repeat split|]. split; [|split].
  - intros k Hk. rewrite !bincount_nth, !occurrences_map by assumption.
    repeat split.
  - intros k Hk. rewrite bincount_nth by assumption.
    rewrite occurrences_map.
    f_equal. apply filter_ext_in. intros p Hp.
    rewrite lum_uint8_trunc; [reflexivity | exact (Hpix p Hp)].
  - intros p Hp. exact (luma_near_floor p (Hpix p Hp)).
Qed.

Lemma sample_image_valid : valid_image sample_image.
Proof.
  split; [reflexivity|].
  repeat constructor; cbn; lia.
Defined.

Lemma C8_histogram_sums_witness :
  valid_image sample_image /\
  list_sum (hist_lum (compute_histogram sample_image)) = 4%nat.
Proof.
  split; [exact sample_image_valid|].
  exact (proj1 (proj2 (proj2 (proj2 (proj1 (proj2
           (C8_histogram_sums sample_image sample_image_valid))))))).
Defined.

Lemma white_image_valid : valid_image white_image.
Proof.
  split; [reflexivity|].
  repeat constructor; cbn; lia.
Defined.

(** C8 (counterexample).  The white pixel has the exact luma 255, which
    rounded down is 255; the histogram of the one-pixel white image
    counts it in bin 254 of the luma array and has nothing in bin 255:
    the luma array does not count the rounded-down luma. *)
Lemma C8_counterexample :
  valid_image white_image /\
  List.length (filter (fun p => Z.eqb 255 (luma_floor p)) (pixels white_image)) = 1%nat /\
  nth 255 (hist_lum (compute_histogram white_image)) 0%nat = 0%nat /\
  nth 254 (hist_lum (compute_histogram white_image)) 0%nat = 1%nat.
Proof.
  split; [exact white_image_valid|].
  split; [reflexivity|].
  split; vm_compute; reflexivity.
Qed.

(** ** Bounds on the exponential and the logarithm *)

Section ExpBounds.

Lemma scale_pos : (0 < IZR scale)%R.
Proof. apply IZR_lt. reflexivity. Qed.

Lemma fixed_le (a b : Z) : a <= b -> (fixed a <= fixed b)%R.
Proof.
  intro H. unfold fixed. apply Rmult_le_compat_r.
  - left. apply Rinv_0_lt_compat, scale_pos.
  - apply IZR_le, H.
Qed.

Lemma fixed_nonneg (a : Z) : 0 <= a -> (0 <= fixed a)%R.
Proof.
  intro H. unfold fixed. apply Rmult_le_pos.
  - apply IZR_le, H.
  - left. apply Rinv_0_lt_compat, scale_pos.
Qed.

Lemma fixed_mul (a b : Z) : (fixed a * fixed b = fixed (a * b) / IZR scale)%R.
Proof.
  unfold fixed. rewrite mult_IZR. pose proof scale_pos. field. lra.
Qed.

Lemma sq_down_nonneg (a : Z) : 0 <= a -> 0 <= sq_down a.
Proof. intro H. unfold sq_down. apply Z.div_pos; [nia | reflexivity]. Qed.

Lemma sq_down_sound (a : Z) (r : R) :
  0 <= a -> (fixed a <= r)%R -> (fixed (sq_down a) <= r * r)%R.
Proof.
  intros Ha Hr.
  apply Rle_trans with (fixed a * fixed a)%R.
  - rewrite fixed_mul. unfold fixed at 1. unfold Rdiv.
    apply Rmult_le_compat_r; [left; apply Rinv_0_lt_compat, scale_pos|].
    apply Rmult_le_reg_r with (IZR scale); [apply scale_pos|].
    unfold fixed. unfold Rdiv. rewrite Rmult_assoc, Rinv_l, Rmult_1_r
      by (apply Rgt_not_eq, scale_pos).
    rewrite <- mult_IZR. apply IZR_le. unfold sq_down.
    rewrite Z.mul_comm. apply Z.mul_div_le. reflexivity.
  - pose proof (fixed_nonneg a Ha). apply Rmult_le_compat; assumption.
Qed.

Lemma sq_up_sound (a : Z) (r : R) :
  (0 <= r)%R -> (r <= fixed a)%R -> (r * r <= fixed (sq_up a))%R.
Proof.
  intros H0 Hr.
  apply Rle_trans with (fixed a * fixed a)%R.
  - apply Rmult_le_compat; assumption.
  - rewrite fixed_mul. unfold fixed at 2. unfold Rdiv.
    apply Rmult_le_compat_r; [left; apply Rinv_0_lt_compat, scale_pos|].
    apply Rmult_le_reg_r with (IZR scale); [apply scale_pos|].
    unfold fixed. unfold Rdiv. rewrite Rmult_assoc, Rinv_l, Rmult_1_r
      by (apply Rgt_not_eq, scale_pos).
    rewrite <- mult_IZR. apply IZR_le. unfold sq_up.
    pose proof (Z.div_mod (a * a + scale - 1) scale ltac:(discriminate)).
    pose proof (Z.mod_pos_bound (a * a + scale - 1) scale ltac:(reflexivity)).
    lia.
Qed.

Lemma exp_double (x : R) : (exp (2 * x) = exp x * exp x)%R.
Proof. rewrite <- exp_plus. f_equal. lra. Qed.

Lemma iter_down_sound (k : nat) (a : Z) (x : R) :
  0 <= a -> (fixed a <= exp x)%R ->
  0 <= Nat.iter k sq_down a /\ (fixed (Nat.iter k sq_down a) <= exp (2 ^ k * x))%R.
Proof.
  intros Ha Hx. induction k as [|k [IH0 IH]].
  - simpl. split; [exact Ha|]. now rewrite Rmult_1_l.
  - cbn [Nat.iter nat_rect]. split; [apply sq_down_nonneg, IH0|].
    replace (2 ^ S k * x)%R with (2 * (2 ^ k * x))%R by (simpl; ring).
    rewrite exp_double. apply sq_down_sound; assumption.
Qed.

Lemma iter_up_sound (k : nat) (a : Z) (x : R) :
  (exp x <= fixed a)%R -> (exp (2 ^ k * x) <= fixed (Nat.iter k sq_up a))%R.
Proof.
  intros Hx. induction k as [|k IH].
  - simpl. now rewrite Rmult_1_l.
  - cbn [Nat.iter nat_rect].
    replace (2 ^ S k * x)%R with (2 * (2 ^ k * x))%R by (simpl; ring).
    rewrite exp_double. apply sq_up_sound; [left; apply exp_pos | exact IH].
Qed.

(** [exp y <= 1 / (1 - y)] below 1. *)
Lemma exp_le_inv (y : R) : (y < 1)%R -> (exp y <= / (1 - y))%R.
Proof.
  intro Hy.
  pose proof (exp_ineq1_le (- y)) as H.
  pose proof (exp_pos y) as Hp.
  assert (E : (exp y * exp (- y) = 1)%R) by (rewrite <- exp_plus, Rplus_opp_r; apply exp_0).
  apply Rmult_le_reg_r with (1 - y)%R; [lra|].
  rewrite Rinv_l by lra. nra.
Qed.

Lemma pow2_IZR (k : nat) : IZR (2 ^ Z.of_nat k) = (2 ^ k)%R.
Proof. rewrite <- pow_IZR. reflexivity. Qed.

Lemma exp_lower_sound (p q : Z) (k : nat) :
  0 < q -> 0 <= p -> (fixed (exp_lower p q k) <= exp (IZR p / IZR q))%R.
Proof.
  intros Hq Hp. unfold exp_lower. cbv zeta.
  set (d := q * 2 ^ Z.of_nat k).
  assert (Hd : 0 < d) by (subst d; apply Z.mul_pos_pos; [lia | apply Z.pow_pos_nonneg; lia]).
  assert (HdR : (0 < IZR d)%R) by (apply IZR_lt, Hd).
  assert (HqR : (0 < IZR q)%R) by (apply IZR_lt, Hq).
  replace (IZR p / IZR q)%R with (2 ^ k * (IZR p / IZR d))%R.
  2:{ subst d. rewrite mult_IZR, pow2_IZR.
      assert (2 ^ k <> 0)%R by (apply pow_nonzero; lra). field. split; lra. }
  apply iter_down_sound.
  - apply Z.div_pos; [|exact Hd]. apply Z.mul_nonneg_nonneg; [discriminate | lia].
  - apply Rle_trans with (1 + IZR p / IZR d)%R; [|apply exp_ineq1_le].
    pose proof scale_pos as HS.
    unfold fixed.
    apply Rmult_le_reg_r with (IZR scale * IZR d)%R; [apply Rmult_lt_0_compat; lra|].
    replace (IZR (scale * (d + p) / d) / IZR scale * (IZR scale * IZR d))%R
      with (IZR (scale * (d + p) / d) * IZR d)%R by (field; lra).
    replace ((1 + IZR p / IZR d) * (IZR scale * IZR d))%R
      with (IZR scale * (IZR d + IZR p))%R by (field; lra).
    rewrite <- plus_IZR, <- !mult_IZR. apply IZR_le.
    rewrite Z.mul_comm. apply Z.mul_div_le. exact Hd.
Qed.

Lemma exp_upper_sound (p q : Z) (k : nat) :
  0 < q -> p < q * 2 ^ Z.of_nat k ->
  (exp (IZR p / IZR q) <= fixed (exp_upper p q k))%R.
Proof.
  intros Hq Hp. unfold exp_upper. cbv zeta.
  set (d := q * 2 ^ Z.of_nat k) in *.
  assert (Hd : 0 < d) by (subst d; apply Z.mul_pos_pos; [lia | apply Z.pow_pos_nonneg; lia]).
  assert (HdR : (0 < IZR d)%R) by (apply IZR_lt, Hd).
  assert (HqR : (0 < IZR q)%R) by (apply IZR_lt, Hq).
  assert (Hdp : (0 < IZR d - IZR p)%R).
  { rewrite <- minus_IZR. apply IZR_lt. lia. }
  replace (IZR p / IZR q)%R with (2 ^ k * (IZR p / IZR d))%R.
  2:{ subst d. rewrite mult_IZR, pow2_IZR.
      assert (2 ^ k <> 0)%R by (apply pow_nonzero; lra). field. split; lra. }
  apply iter_up_sound.
  assert (Hy : (IZR p / IZR d < 1)%R).
  { apply Rmult_lt_reg_r with (IZR d); [exact HdR|].
    unfold Rdiv. rewrite Rmult_assoc, Rinv_l, Rmult_1_r, Rmult_1_l by lra. lra. }
  apply Rle_trans with (/ (1 - IZR p / IZR d))%R; [apply exp_le_inv, Hy|].
  pose proof scale_pos as HS.
  replace (/ (1 - IZR p / IZR d))%R with (IZR d / (IZR d - IZR p))%R by (field; lra).
  unfold fixed.
  apply Rmult_le_reg_r with (IZR scale * (IZR d - IZR p))%R; [apply Rmult_lt_0_compat; lra|].
  replace (IZR d / (IZR d - IZR p) * (IZR scale * (IZR d - IZR p)))%R
    with (IZR scale * IZR d)%R by (field; lra).
  match goal with |- (_ <= IZR ?n / _ * _)%R =>
    replace (IZR n / IZR scale * (IZR scale * (IZR d - IZR p)))%R
      with (IZR n * (IZR d - IZR p))%R by (field; lra) end.
  rewrite <- minus_IZR, <- !mult_IZR. apply IZR_le.
  pose proof (Z.div_mod (scale * d + (d - p) - 1) (d - p) ltac:(lia)).
  pose proof (Z.mod_pos_bound (scale * d + (d - p) - 1) (d - p) ltac:(lia)).
  lia.
Qed.

(** Enclosing a logarithm: [p / q <= ln n] as soon as the upper enclosure
    of [exp (p / q)] is at most [n], and dually. *)
Lemma ln_lower (n p q : Z) (k : nat) :
  0 < q -> p < q * 2 ^ Z.of_nat k -> exp_upper p q k <= n * scale ->
  (IZR p / IZR q <= ln (IZR n))%R.
Proof.
  intros Hq Hp H.
  pose proof (exp_upper_sound p q k Hq Hp) as Hu.
  apply fixed_le in H. unfold fixed at 2 in H.
  rewrite mult_IZR in H. pose proof scale_pos.
  replace (IZR n * IZR scale / IZR scale)%R with (IZR n) in H by (field; lra).
  rewrite <- (ln_exp (IZR p / IZR q)).
  pose proof (exp_pos (IZR p / IZR q)).
  destruct (Rle_lt_or_eq_dec _ _ (Rle_trans _ _ _ Hu H)) as [Hlt|Heq].
  - left. apply ln_increasing; assumption.
  - right. now rewrite Heq.
Qed.

Lemma ln_upper (n p q : Z) (k : nat) :
  0 < q -> 0 <= p -> 0 < n -> n * scale <= exp_lower p q k ->
  (ln (IZR n) <= IZR p / IZR q)%R.
Proof.
  intros Hq Hp Hn H.
  pose proof (exp_lower_sound p q k Hq Hp) as Hl.
  apply fixed_le in H. unfold fixed at 1 in H.
  rewrite mult_IZR in H. pose proof scale_pos.
  replace (IZR n * IZR scale / IZR scale)%R with (IZR n) in H by (field; lra).
  rewrite <- (ln_exp (IZR p / IZR q)).
  assert (0 < IZR n)%R by (apply IZR_lt, Hn).
  destruct (Rle_lt_or_eq_dec _ _ (Rle_trans _ _ _ H Hl)) as [Hlt|Heq].
  - left. apply ln_increasing; assumption.
  - right. now rewrite Heq.
Qed.

End ExpBounds.

Lemma ln_65 : (4.1743 <= ln 65 <= 4.1745)%R.
Proof.
  split.
  - replace 4.1743%R with (IZR 41743 / IZR 10000)%R by lra.
    apply (ln_lower 65 41743 10000 24); [reflexivity | reflexivity | ].
    vm_compute. discriminate.
  - replace 4.1745%R with (IZR 41745 / IZR 10000)%R by lra.
    apply (ln_upper 65 41745 10000 24); [reflexivity | discriminate | reflexivity | ].
    vm_compute. discriminate.
Qed.

Lemma ln_55 : (4.0073 <= ln 55 <= 4.0074)%R.
Proof.
  split.
  - replace 4.0073%R with (IZR 40073 / IZR 10000)%R by lra.
    apply (ln_lower 55 40073 10000 24); [reflexivity | reflexivity | ].
    vm_compute. discriminate.
  - replace 4.0074%R with (IZR 40074 / IZR 10000)%R by lra.
    apply (ln_upper 55 40074 10000 24); [reflexivity | discriminate | reflexivity | ].
    vm_compute. discriminate.
Qed.

(** ** Colour temperature *)

Lemma clamp_range (v : R) : (0 <= clamp v <= 255)%R.
Proof.
  unfold clamp, Rmax, Rmin.
  repeat destruct Rle_dec; lra.
Qed.

Lemma clamp_inside (v : R) : (0 <= v <= 255)%R -> clamp v = v.
Proof.
  intro H. unfold clamp, Rmax, Rmin.
  repeat destruct Rle_dec; lra.
Qed.

Lemma clamp_above (v : R) : (255 <= v)%R -> clamp v = 255%R.
Proof.
  intro H. unfold clamp, Rmax, Rmin.
  repeat destruct Rle_dec; lra.
Qed.

Lemma unit_of_255 (v : R) : (0 <= v <= 255)%R -> (0 <= v / 255 <= 1)%R.
Proof. intro H. lra. Qed.

Lemma green_6500_bounds : (254.10 <= green_6500 <= 254.13)%R.
Proof. unfold green_6500. pose proof ln_65. lra. Qed.

Lemma blue_6500_bounds : (250.03 <= blue_6500 <= 250.06)%R.
Proof. unfold blue_6500. pose proof ln_55. lra. Qed.

Lemma gains_6500 :
  kelvin_to_rgb_gains 6500 = Ok (1, green_6500 / 255, blue_6500 / 255)%R.
Proof.
  unfold kelvin_to_rgb_gains, math_log. cbv zeta.
  replace (IZR 6500 / 100)%R with 65%R by lra.
  destruct (Rle_dec 65 66) as [_|H]; [|lra].
  destruct (Rlt_dec 0 65) as [_|H]; [|lra].
  destruct (Rge_dec 65 66) as [H|_]; [lra|].
  destruct (Rle_dec 65 19) as [H|_]; [lra|].
  replace (65 - 10)%R with 55%R by lra.
  fold green_6500 blue_6500.
  pose proof green_6500_bounds. pose proof blue_6500_bounds.
  rewrite !clamp_inside by lra.
  do 2 f_equal. f_equal. lra.
Qed.

(** The gains are defined on the whole declared range, and they are
    fractions of 255 after a clamp to [[0, 255]]. *)
Lemma gains_in_unit_interval (k : Z) :
  0 < k ->
  exists r g b : R,
    kelvin_to_rgb_gains k = Ok (r, g, b) /\
    (0 <= r <= 1)%R /\ (0 <= g <= 1)%R /\ (0 <= b <= 1)%R.
Proof.
  intro Hk.
  assert (Ht : (0 < IZR k / 100)%R).
  { apply IZR_lt in Hk. lra. }
  unfold kelvin_to_rgb_gains, math_log. cbv zeta.
  destruct (Rlt_dec 0 (IZR k / 100)) as [_|H]; [|contradiction].
  destruct (Rle_dec (IZR k / 100) 66) as [Hle|Hgt].
  - eexists _, _, _. split; [reflexivity|].
    split; [lra|]. split; [apply unit_of_255, clamp_range|].
    destruct (Rge_dec (IZR k / 100) 66); [lra|].
    destruct (Rle_dec (IZR k / 100) 19); [lra|].
    apply unit_of_255, clamp_range.
  - eexists _, _, _. split; [reflexivity|].
    split; [apply unit_of_255, clamp_range|].
    split; [apply unit_of_255, clamp_range|].
    destruct (Rge_dec (IZR k / 100) 66); [lra|].
    destruct (Rle_dec (IZR k / 100) 19); [lra|].
    apply unit_of_255, clamp_range.
Qed.

(** C6.  For every Kelvin value in [[2000, 10000]], [kelvin_to_rgb_gains]
    returns three gains, each in [[0, 1]]; and at 6500 K the three gains
    are 1 up to two hundredths: red is 1, green lies in
    [[0.996, 0.997]] and blue in [[0.980, 0.981]]. *)
Theorem C6_gains_range (k : Z) :
  2000 <= k <= 10000 ->
  (exists r g b : R,
     kelvin_to_rgb_gains k = Ok (r, g, b) /\
     (0 <= r <= 1)%R /\ (0 <= g <= 1)%R /\ (0 <= b <= 1)%R) /\
  (exists r g b : R,
     kelvin_to_rgb_gains 6500 = Ok (r, g, b) /\
     r = 1%R /\ (0.996 <= g <= 0.997)%R /\ (0.980 <= b <= 0.981)%R /\
     (Rabs (r - 1) <= 0.02)%R /\ (Rabs (g - 1) <= 0.02)%R /\
     (Rabs (b - 1) <= 0.02)%R).
Proof.
  intro Hk. split.
  - apply gains_in_unit_interval. lia.
  - exists 1%R, (green_6500 / 255)%R, (blue_6500 / 255)%R.
    pose proof green_6500_bounds. pose proof blue_6500_bounds.
    split; [exact gains_6500|].
    split; [reflexivity|].
    split; [lra|]. split; [lra|].
    repeat split; apply Rabs_le; lra.
Qed.

Lemma C6_gains_range_witness :
  2000 <= 3000 <= 10000 /\
  exists r g b : R,
    kelvin_to_rgb_gains 3000 = Ok (r, g, b) /\
    (0 <= r <= 1)%R /\ (0 <= g <= 1)%R /\ (0 <= b <= 1)%R.
Proof.
  split; [lia|].
  apply (C6_gains_range 3000). lia.
Defined.

(** ** The pipeline on one pixel *)

Lemma np_clip_inside (x : R) : (0 <= x <= 255)%R -> np_clip x 0 255 = x.
Proof.
  intro H. unfold np_clip, Rmax, Rmin.
  repeat destruct Rle_dec; lra.
Qed.

Lemma np_clip_range (x : R) : (0 <= np_clip x 0 255 <= 255)%R.
Proof.
  unfold np_clip, Rmax, Rmin.
  repeat destruct Rle_dec; lra.
Qed.

Lemma astype_uint8_floor (x : R) (n : Z) :
  uint8 n -> (IZR n <= x < IZR n + 1)%R -> astype_uint8 x = n.
Proof.
  intros [Hn0 Hn1] Hx. unfold astype_uint8.
  assert (0 <= IZR n)%R by (apply IZR_le, Hn0).
  destruct (Rle_dec 0 x) as [_|H0]; [|lra].
  rewrite <- (Int_part_spec x n) by lra.
  apply Z.mod_small. lia.
Qed.

Lemma astype_uint8_IZR (n : Z) : uint8 n -> astype_uint8 (IZR n) = n.
Proof. intro H. apply astype_uint8_floor; [exact H | lra]. Qed.

Lemma IZR_uint8 (n : Z) : uint8 n -> (0 <= IZR n <= 255)%R.
Proof. intros [H0 H1]. split; apply IZR_le; assumption. Qed.

Lemma np_clip_above (x : R) : (255 <= x)%R -> np_clip x 0 255 = 255%R.
Proof.
  intro H. unfold np_clip, Rmax, Rmin. repeat destruct Rle_dec; lra.
Qed.

Lemma np_clip_below (x : R) : (x <= 0)%R -> np_clip x 0 255 = 0%R.
Proof.
  intro H. unfold np_clip, Rmax, Rmin. repeat destruct Rle_dec; lra.
Qed.

Lemma np_clip_IZR (n : Z) : np_clip (IZR n) 0 255 = IZR (saturating n).
Proof.
  unfold saturating.
  destruct (Z_le_gt_dec n 0) as [H0|H0].
  - rewrite np_clip_below by (apply (IZR_le _ 0); exact H0). f_equal. lia.
  - destruct (Z_le_gt_dec 255 n) as [H1|H1].
    + rewrite np_clip_above by (apply (IZR_le 255); exact H1). f_equal. lia.
    + rewrite np_clip_inside
        by (split; [apply (IZR_le 0) | apply (IZR_le _ 255)]; lia).
      f_equal. lia.
Qed.

Lemma saturating_uint8 (n : Z) : uint8 (saturating n).
Proof. unfold saturating, uint8. lia. Qed.

(** *** The stages on a sample that is an integer *)

(** The brightness offset on an integer sample is exact and saturates,
    whatever the offset. *)
Lemma brightness_sample (y b : Z) :
  uint8 y ->
  np_clip (fl32 (IZR y + fl32 (IZR b))) 0 255 = IZR (saturating (y + b)).
Proof.
  intros [Y0 Y1].
  pose proof (IZR_le _ _ Y0) as Y0'. pose proof (IZR_le _ _ Y1) as Y1'.
  destruct (Z_le_gt_dec (Z.abs b) 16776000) as [Hb|Hb].
  - rewrite fl32_IZR by lia. rewrite <- plus_IZR, fl32_IZR by lia.
    apply np_clip_IZR.
  - destruct (Z_le_gt_dec 0 b) as [Pb|Nb].
    + (* far above the range *)
      assert (B : (16776000 <= fl32 (IZR b))%R).
      { rewrite <- (fl32_IZR 16776000) by lia. apply fl32_mono, IZR_le. lia. }
      assert (A : (255 <= fl32 (IZR y + fl32 (IZR b)))%R).
      { rewrite <- (fl32_IZR 255) by lia. apply fl32_mono. lra. }
      rewrite np_clip_above by exact A. unfold saturating. f_equal. lia.
    + assert (B : (fl32 (IZR b) <= -16776000)%R).
      { rewrite <- (fl32_IZR (-16776000)) by lia. apply fl32_mono, IZR_le. lia. }
      assert (A : (fl32 (IZR y + fl32 (IZR b)) <= 0)%R).
      { rewrite <- fl32_0. apply fl32_mono. lra. }
      rewrite np_clip_below by exact A. unfold saturating. f_equal. lia.
Qed.

(** The contrast factor [c] at a contrast of 0 and of -100. *)
Lemma contrast_factor_0 : fl32 (fl64 (1 + fl64 (IZR 0 / 100))) = 1%R.
Proof.
  replace (IZR 0 / 100)%R with 0%R by lra.
  rewrite fl64_0, Rplus_0_r, (fl64_IZR 1) by lia. apply fl32_1.
Qed.

Lemma contrast_factor_m100 : fl32 (fl64 (1 + fl64 (IZR (-100) / 100))) = 0%R.
Proof.
  replace (IZR (-100) / 100)%R with (IZR (-1)) by lra.
  rewrite (fl64_IZR (-1)) by lia.
  replace (1 + IZR (-1))%R with 0%R by lra.
  rewrite fl64_0. apply fl32_0.
Qed.

(** At a contrast of 0 the contrast stage leaves an integer sample as
    it is. *)
Lemma contrast_sample (v : Z) :
  uint8 v ->
  np_clip (fl32 (fl32 (fl32 (IZR v - 128) * 1) + 128)) 0 255 = IZR v.
Proof.
  intros [V0 V1].
  rewrite <- minus_IZR, fl32_IZR, Rmult_1_r, fl32_IZR by lia.
  rewrite <- plus_IZR, fl32_IZR by lia.
  replace (v - 128 + 128) with v by lia.
  apply np_clip_inside. split; [apply (IZR_le 0) | apply (IZR_le _ 255)]; assumption.
Qed.

(** With the saturation at zero the pipeline acts on each channel by
    itself. *)
Lemma adjust_pixel_channels (g0 g1 g2 : R) (ad : Adjustments) (p : pixel) :
  saturation ad = 0 ->
  adjust_pixel (g0, g1, g2) ad p
  = (adjust_sample g0 ad (red p), adjust_sample g1 ad (green p),
     adjust_sample g2 ad (blue p)).
Proof.
  intro Hs. destruct p as [[r g] b].
  unfold adjust_pixel, adjust_sample, tone, saturate, scale_contrast, add_brightness,
    white_balance, astype_float, fpixel_map, fpixel_astype_uint8.
  cbn [red green blue fst snd]. rewrite Hs. cbn [Z.eqb].
  destruct (negb (shadows ad =? 0) || negb (highlights ad =? 0)); reflexivity.
Qed.

(** With contrast, shadows and highlights at zero too, a sample that the
    white balance maps to an integer [y] comes out as [y] plus the
    brightness, saturated. *)
Lemma adjust_sample_int (g : R) (ad : Adjustments) (x y : Z) :
  contrast ad = 0 -> shadows ad = 0 -> highlights ad = 0 ->
  uint8 y -> (IZR x * fl32 g = IZR y)%R ->
  adjust_sample g ad x = saturating (y + brightness ad).
Proof.
  intros Hc Hsh Hh Hy E. unfold adjust_sample.
  rewrite Hc, Hsh, Hh, E. cbn [Z.eqb negb orb].
  rewrite fl32_IZR by (destruct Hy; lia).
  rewrite (np_clip_inside (IZR y)) by (apply IZR_uint8, Hy).
  rewrite brightness_sample by exact Hy.
  rewrite contrast_factor_0.
  rewrite contrast_sample by apply saturating_uint8.
  apply astype_uint8_IZR, saturating_uint8.
Qed.

(** At the defaults of the five parameters, a sample whose product with
    the gain keeps clear of the integers is that product rounded
    down: the roundings of the pipeline do not reach the next integer. *)
Lemma adjust_sample_default (g : R) (ad : Adjustments) (x n : Z) :
  zeroed ad -> (0 <= g <= 1)%R -> uint8 x -> uint8 n ->
  (IZR n + / 1000 <= IZR x * g <= IZR n + 999 / 1000)%R ->
  adjust_sample g ad x = n.
Proof.
  intros (Hbr & Hc & _ & Hsh & Hh) Hg Hx Hn B.
  apply IZR_uint8 in Hx. pose proof (IZR_uint8 n Hn) as Hn'.
  unfold adjust_sample. rewrite Hbr, Hc, Hsh, Hh. cbn [Z.eqb negb orb].
  rewrite fl32_0, contrast_factor_0.
  (* the gain, then the product, in binary32 *)
  pose proof (fl32_error_2 g ltac:(apply Rabs_def1; lra)) as Eg.
  apply Rabs_le_between in Eg.
  set (g' := fl32 g) in *.
  pose proof (fl32_error_256 (IZR x * g') ltac:(apply Rabs_def1; nra)) as Ea.
  apply Rabs_le_between in Ea.
  set (a := fl32 (IZR x * g')) in *.
  assert (Ha : (IZR n + / 2000 <= a <= IZR n + 1999 / 2000)%R) by nra.
  assert (Hn254 : (IZR n <= 254)%R).
  { apply (IZR_le _ 254). assert (n < 255) by (apply lt_IZR; nra). lia. }
  rewrite (np_clip_inside a) by lra.
  rewrite Rplus_0_r. unfold a at 1. rewrite fl32_idem. fold a.
  rewrite (np_clip_inside a) by lra.
  (* the contrast stage *)
  pose proof (fl32_error_128 (a - 128) ltac:(apply Rabs_def1; lra)) as E1.
  apply Rabs_le_between in E1.
  set (y := fl32 (a - 128)) in *.
  rewrite Rmult_1_r. unfold y at 1. rewrite fl32_idem. fold y.
  pose proof (fl32_error_256 (y + 128) ltac:(apply Rabs_def1; lra)) as E2.
  apply Rabs_le_between in E2.
  set (z := fl32 (y + 128)) in *.
  rewrite (np_clip_inside z) by lra.
  apply astype_uint8_floor; [exact Hn | lra].
Qed.

(** Unit gains and the five defaults make the pipeline the identity. *)
Lemma adjust_pixel_neutral (ad : Adjustments) (p : pixel) :
  zeroed ad -> pixel_ok p -> adjust_pixel (1, 1, 1)%R ad p = p.
Proof.
  intros (Hbr & Hc & Hs & Hsh & Hh) (Hr & Hg & Hb).
  rewrite adjust_pixel_channels by exact Hs.
  destruct p as [[r g] b]. cbn [red green blue fst snd] in *.
  rewrite (adjust_sample_int 1 ad r r), (adjust_sample_int 1 ad g g),
    (adjust_sample_int 1 ad b b); try assumption; try (rewrite fl32_1; lra).
  rewrite Hbr, !Z.add_0_r. unfold saturating, uint8 in *.
  repeat f_equal; lia.
Qed.

Lemma ln_66 : (4.189 <= ln 66)%R.
Proof.
  replace 4.189%R with (IZR 4189 / IZR 1000)%R by lra.
  apply (ln_lower 66 4189 1000 24); [reflexivity | reflexivity | ].
  vm_compute. discriminate.
Qed.

(** The formula's neutral point is 6600 K: there all three gains are 1. *)
Lemma gains_6600 : kelvin_to_rgb_gains 6600 = Ok (1, 1, 1)%R.
Proof.
  unfold kelvin_to_rgb_gains, math_log. cbv zeta.
  replace (IZR 6600 / 100)%R with 66%R by lra.
  destruct (Rle_dec 66 66) as [_|H]; [|lra].
  destruct (Rlt_dec 0 66) as [_|H]; [|lra].
  destruct (Rge_dec 66 66) as [_|H]; [|lra].
  pose proof ln_66.
  rewrite clamp_above by lra.
  do 2 f_equal; [f_equal|]; lra.
Qed.

(** ** The vignette on a single pixel *)

(** [np.linspace(-1, 1, 1)] is [[-1.]]: the only pixel of a one-pixel
    image sits at distance [sqrt 2], where the weight is 0.6. *)
Lemma vignette_mask_1x1 : vignette_mask 1 1 0 0 = 0.6%R.
Proof.
  unfold vignette_mask, linspace.
  replace (-1 * -1 + -1 * -1)%R with 2%R by lra.
  assert (H : sqrt 2 <> 0%R) by (apply Rgt_not_eq, sqrt_lt_R0; lra).
  unfold Rdiv. rewrite Rinv_r by exact H.
  unfold np_clip, Rmin, Rmax. repeat destruct Rle_dec; lra.
Qed.

Example vignette_1x1 : vignette (gray_image 100) = gray_image 60.
Proof.
  unfold vignette, gray_image.
  cbn [width height pixels List.length seq combine map].
  change (0 mod 1)%nat with 0%nat. change (0 / 1)%nat with 0%nat.
  rewrite vignette_mask_1x1.
  unfold fpixel_astype_uint8, fpixel_map, astype_float. cbn [red green blue fst snd].
  rewrite (astype_uint8_floor (100 * 0.6) 60) by (unfold uint8; lra || lia).
  reflexivity.
Qed.

(** ** The preview *)

Lemma np_map_id (f : pixel -> pixel) (im : Image) :
  (forall p, In p (pixels im) -> f p = p) -> np_map f im = im.
Proof.
  intro H. destruct im as [w h px]. unfold np_map. cbn [width height pixels] in *.
  f_equal. rewrite <- (map_id px) at 2. apply map_ext_in, H.
Qed.

Lemma gains_6500_unit :
  (0 <= green_6500 / 255 <= 1)%R /\ (0 <= blue_6500 / 255 <= 1)%R.
Proof.
  pose proof green_6500_bounds. pose proof blue_6500_bounds. lra.
Qed.

(** The preview of a one-pixel black base with only the brightness
    moved to [v]. *)
Lemma preview_black (v : Z) (doc : ImageDocument.t) :
  history doc = [black_image] ->
  adjustments doc = setitem default_adjustments Kbrightness v ->
  uint8 v ->
  PhotoEditorMain.apply_adjustments_preview doc
  = (Returned, set_pil doc (Some (gray_image v))).
Proof.
  intros Hh Ha Hv. unfold PhotoEditorMain.apply_adjustments_preview.
  rewrite Hh, Ha. cbn [last_item rev app kelvin setitem default_adjustments default_value].
  rewrite gains_6500. do 2 f_equal. f_equal.
  unfold np_map, black_image, gray_image. cbn [width height pixels map].
  rewrite adjust_pixel_channels by reflexivity.
  cbn [red green blue fst snd].
  rewrite !(adjust_sample_int _ _ 0 0);
    try reflexivity; try (unfold uint8; lia); try apply Rmult_0_l.
  cbn [brightness setitem]. unfold saturating, uint8 in *.
  repeat f_equal; lia.
Qed.

Lemma slider_black (v : Z) :
  uint8 v ->
  PhotoEditorMain.on_slider "Parlaklık" v black_doc
  = (Returned,
     mk None (Some (gray_image v)) [black_image]
        (setitem default_adjustments Kbrightness v)).
Proof.
  intro Hv. unfold PhotoEditorMain.on_slider.
  change (PhotoEditorMain.mapping "Parlaklık") with (Some Kbrightness).
  cbv iota beta zeta.
  rewrite (preview_black v); [reflexivity | reflexivity | reflexivity | exact Hv].
Qed.

(** ** C2: the preview at the default parameters *)

(** C2 (the code at the failing input).  On a one-pixel white base the
    preview at the default parameters is the pixel (255, 254, 250), not
    the base pixel (255, 255, 255): at the default 6500 K the green and
    blue gains are below 1. *)
Theorem C2_default_preview_of_white :
  let doc := ImageDocument.init None (Some white_image) in
  adjustments doc = default_adjustments /\
  PhotoEditorMain.apply_adjustments_preview doc
  = (Returned, set_pil doc (Some (mkImage 1 1 [(255, 254, 250)]))).
Proof.
  cbv zeta. split; [reflexivity|].
  unfold PhotoEditorMain.apply_adjustments_preview, init, copy, convert_RGB.
  cbn [option_map history adjustments last_item rev app].
  change (kelvin default_adjustments) with 6500.
  rewrite gains_6500. do 2 f_equal. f_equal.
  unfold np_map, white_image. cbn [width height pixels map].
  destruct gains_6500_unit.
  pose proof green_6500_bounds. pose proof blue_6500_bounds.
  rewrite adjust_pixel_channels by reflexivity.
  cbn [red green blue fst snd].
  rewrite (adjust_sample_int 1 _ 255 255);
    try reflexivity; [| unfold uint8; lia | rewrite fl32_1; lra].
  rewrite (adjust_sample_default (green_6500 / 255) _ 255 254);
    try (unfold uint8; lia); try lra; [|repeat split].
  rewrite (adjust_sample_default (blue_6500 / 255) _ 255 250);
    try (unfold uint8; lia); try lra; [|repeat split].
  reflexivity.
Qed.

(** With the temperature at 6600 K, where the formula is neutral, and the
    five other parameters at zero, the preview is the base image. *)
Lemma preview_identity_at_6600 (doc : ImageDocument.t) (base : Image) :
  last_item (history doc) = Some base ->
  valid_image base ->
  adjustments doc = setitem default_adjustments Kkelvin 6600 ->
  PhotoEditorMain.apply_adjustments_preview doc = (Returned, set_pil doc (Some base)).
Proof.
  intros Hb [_ Hpix] Ha. unfold PhotoEditorMain.apply_adjustments_preview.
  rewrite Hb, Ha.
  change (kelvin (setitem default_adjustments Kkelvin 6600)) with 6600.
  rewrite gains_6600. do 2 f_equal. f_equal.
  apply np_map_id. intros p Hp.
  rewrite Forall_forall in Hpix.
  apply adjust_pixel_neutral; [repeat split | exact (Hpix p Hp)].
Qed.

(** ** C7: the preview is a function of the base and the parameters *)

(** C7.  [apply_adjustments_preview] is deterministic and leaves the base
    alone: two documents with the same base image ([history[-1]]) and the
    same parameters end the call the same way and, when it returns, show
    the same preview, whatever each showed before; the call changes
    neither the history (so not the base) nor the parameters; and
    invoking it again gives the same result again. *)
Theorem C7_preview_deterministic (d1 d2 : ImageDocument.t) :
  last_item (history d1) = last_item (history d2) ->
  adjustments d1 = adjustments d2 ->
  let r1 := PhotoEditorMain.apply_adjustments_preview d1 in
  let r2 := PhotoEditorMain.apply_adjustments_preview d2 in
  fst r1 = fst r2 /\
  (fst r1 = Returned -> pil (snd r1) = pil (snd r2)) /\
  history (snd r1) = history d1 /\
  adjustments (snd r1) = adjustments d1 /\
  PhotoEditorMain.apply_adjustments_preview (snd r1) = r1.
Proof.
  intros Hb Ha. cbv zeta. unfold PhotoEditorMain.apply_adjustments_preview.
  rewrite <- Hb, <- Ha.
  destruct (last_item (history d1)) as [base|] eqn:E1.
  - destruct (kelvin_to_rgb_gains (kelvin (adjustments d1))) as [gains|e] eqn:E2;
      cbn [fst snd set_pil pil history adjustments].
    + rewrite E1, E2. repeat split; reflexivity.
    + rewrite E1, E2. repeat split; try reflexivity. discriminate.
  - cbn [fst snd]. rewrite E1. repeat split; try reflexivity. discriminate.
Qed.

Lemma C7_preview_deterministic_witness :
  (last_item (history black_doc)
   = last_item (history (set_pil black_doc (Some white_image))) /\
   adjustments black_doc = adjustments (set_pil black_doc (Some white_image))) /\
  fst (PhotoEditorMain.apply_adjustments_preview black_doc)
  = fst (PhotoEditorMain.apply_adjustments_preview (set_pil black_doc (Some white_image))).
Proof.
  split; [split; reflexivity|].
  exact (proj1 (C7_preview_deterministic black_doc (set_pil black_doc (Some white_image))
                  eq_refl eq_refl)).
Defined.

(** ** C5: slider values are used as given *)

Lemma preview_keeps_adjustments (doc : ImageDocument.t) :
  adjustments (snd (PhotoEditorMain.apply_adjustments_preview doc)) = adjustments doc.
Proof.
  unfold PhotoEditorMain.apply_adjustments_preview.
  destruct (last_item (history doc)); [|reflexivity].
  destruct (kelvin_to_rgb_gains _); reflexivity.
Qed.

Lemma getitem_setitem (ad : Adjustments) (k : key) (v : Z) :
  getitem (setitem ad k v) k = v.
Proof. destruct k; reflexivity. Qed.

Lemma clamp_to_range_inside (k : key) (v : Z) :
  fst (declared_range k) <= v <= snd (declared_range k) -> clamp_to_range k v = v.
Proof. unfold clamp_to_range. lia. Qed.

(** C5 (as the code has it).  For every slider and every value, inside
    its declared range or not, [on_slider] stores the value unchanged and
    the pipeline runs on the stored value: nothing clamps it.  For a value
    inside the declared range clamping would change nothing. *)
Theorem C5_slider_value_used_as_given
    (name : string) (k : key) (v : Z) (doc : ImageDocument.t) :
  PhotoEditorMain.mapping name = Some k ->
  PhotoEditorMain.on_slider name v doc
  = PhotoEditorMain.apply_adjustments_preview
      (set_adjustments doc (setitem (adjustments doc) k v)) /\
  getitem (adjustments (snd (PhotoEditorMain.on_slider name v doc))) k = v /\
  (fst (declared_range k) <= v <= snd (declared_range k) ->
   PhotoEditorMain.on_slider name (clamp_to_range k v) doc
   = PhotoEditorMain.on_slider name v doc).
Proof.
  intro Hm. unfold PhotoEditorMain.on_slider. rewrite Hm.
  split; [reflexivity|]. split.
  - rewrite preview_keeps_adjustments. cbn [adjustments set_adjustments].
    apply getitem_setitem.
  - intro Hv. rewrite clamp_to_range_inside by exact Hv. reflexivity.
Qed.

Lemma C5_slider_value_used_as_given_witness :
  PhotoEditorMain.mapping "Parlaklık" = Some Kbrightness /\
  getitem (adjustments (snd (PhotoEditorMain.on_slider "Parlaklık" 200 black_doc)))
          Kbrightness = 200.
Proof.
  split; [reflexivity|].
  exact (proj1 (proj2 (C5_slider_value_used_as_given "Parlaklık" Kbrightness 200
                         black_doc eq_refl))).
Defined.

(** C5 (counterexample).  Brightness 200 lies outside [[-100, 100]] and
    its nearest in-range value is 100; on a black pixel the two previews
    are (200, 200, 200) and (100, 100, 100). *)
Lemma C5_counterexample :
  clamp_to_range Kbrightness 200 = 100 /\
  pil (snd (PhotoEditorMain.on_slider "Parlaklık" 200 black_doc))
  = Some (gray_image 200) /\
  pil (snd (PhotoEditorMain.on_slider "Parlaklık" 100 black_doc))
  = Some (gray_image 100) /\
  pil (snd (PhotoEditorMain.on_slider "Parlaklık" 200 black_doc))
  <> pil (snd (PhotoEditorMain.on_slider "Parlaklık"
                 (clamp_to_range Kbrightness 200) black_doc)).
Proof.
  change (clamp_to_range Kbrightness 200) with 100.
  rewrite (slider_black 200), (slider_black 100) by (unfold uint8; lia).
  cbn [snd pil]. repeat split; try reflexivity. discriminate.
Qed.

(** ** Committing effects *)

Section Commit.

Context {L : Imaging}.

Lemma effect_image_unknown (effect : string) (img : Image) :
  ~ In effect catalog -> effect_image effect img = None.
Proof.
  intro H. unfold effect_image.
  repeat match goal with
         | |- context [String.eqb effect ?s] =>
             destruct (String.eqb_spec effect s) as [E|_];
             [exfalso; apply H; rewrite E; simpl; tauto|]
         end.
  reflexivity.
Qed.

Lemma effect_image_known (effect : string) (img : Image) :
  In effect catalog -> exists img', effect_image effect img = Some img'.
Proof.
  intro H. simpl in H.
  repeat (destruct H as [<-|H]; [eexists; reflexivity|]).
  contradiction.
Qed.

Lemma set_and_push_committed (doc : ImageDocument.t) (img : Image) :
  PhotoEditorMain.set_and_push doc img
  = (Returned, committed doc img (adjustments doc)).
Proof. reflexivity. Qed.

Lemma apply_effect_commits
    (effect : string) (doc : ImageDocument.t) (p img : Image) :
  pil doc = Some p ->
  effect_image effect p = Some img ->
  PhotoEditorMain.apply_effect effect doc
  = (Returned, committed doc img default_adjustments).
Proof.
  intros Hp He. unfold PhotoEditorMain.apply_effect.
  rewrite Hp. unfold copy. rewrite He. reflexivity.
Qed.

(** C1 (as the code has it).  [apply_effect] runs the operator on
    [doc.pil], the image on display (the live preview when a slider has
    been moved), appends the result to the history and shows it, and
    resets the parameters. *)
Theorem C1_effect_applies_to_preview
    (effect : string) (doc : ImageDocument.t) (p img : Image) :
  pil doc = Some p ->
  effect_image effect p = Some img ->
  PhotoEditorMain.apply_effect effect doc
  = (Returned, committed doc img default_adjustments).
Proof. exact (apply_effect_commits effect doc p img). Qed.

(** C3 (the code on every operator).  With an image on display, each of
    the eight named effects appends one history entry and resets the
    parameters; [rotate90], [flip_horizontal], [portrait_mode] and
    [auto_enhance] append one entry too but leave the parameters as they
    are. *)
Theorem C3_commit_history_and_parameters (doc : ImageDocument.t) (p : Image) :
  pil doc = Some p ->
  (forall effect, In effect catalog ->
     exists img,
       PhotoEditorMain.apply_effect effect doc
       = (Returned, committed doc img default_adjustments)) /\
  (forall method,
     In method [PhotoEditorMain.rotate90; PhotoEditorMain.flip_horizontal;
                PhotoEditorMain.portrait_mode; PhotoEditorMain.auto_enhance] ->
     exists img,
       method doc = (Returned, committed doc img (adjustments doc))) /\
  (forall img ad,
     List.length (history (committed doc img ad)) = S (List.length (history doc))).
Proof.
  intro Hp. split; [|split].
  - intros effect He.
    destruct (effect_image_known effect p He) as [img Hi].
    exists img. exact (apply_effect_commits effect doc p img Hp Hi).
  - intros method Hm. simpl in Hm.
    destruct Hm as [<-|[<-|[<-|[<-|[]]]]];
      unfold PhotoEditorMain.rotate90, PhotoEditorMain.flip_horizontal,
        PhotoEditorMain.portrait_mode, PhotoEditorMain.auto_enhance;
      rewrite Hp; eexists; apply set_and_push_committed.
  - intros img ad. cbn [committed history]. rewrite length_app. simpl. lia.
Qed.

(** C10.  An effect name outside the catalog leaves the document exactly
    as it was: no history entry, the same image on display, the same
    parameters; with an image on display the call returns normally. *)
Theorem C10_unknown_effect_is_noop (effect : string) (doc : ImageDocument.t) :
  ~ In effect catalog ->
  snd (PhotoEditorMain.apply_effect effect doc) = doc /\
  (pil doc <> None -> PhotoEditorMain.apply_effect effect doc = (Returned, doc)).
Proof.
  intro H. unfold PhotoEditorMain.apply_effect.
  destruct (pil doc) as [p|].
  - rewrite (effect_image_unknown effect (copy p) H). split; reflexivity.
  - split; [reflexivity | intro C; contradiction].
Qed.

End Commit.

Lemma C1_effect_applies_to_preview_witness :
  (pil preview_doc = Some (gray_image 10) /\
   effect_image (L := identity_imaging) "red" (gray_image 10)
   = Some (mkImage 1 1 [(28, 10, 10)])) /\
  PhotoEditorMain.apply_effect (L := identity_imaging) "red" preview_doc
  = (Returned, committed preview_doc (mkImage 1 1 [(28, 10, 10)]) default_adjustments).
Proof.
  split; [split; reflexivity|].
  exact (C1_effect_applies_to_preview (L := identity_imaging) "red" preview_doc
           (gray_image 10) (mkImage 1 1 [(28, 10, 10)]) eq_refl eq_refl).
Defined.

(** C1 (counterexample).  Moving the brightness slider to 10 on the black
    document and then committing "red": the operator on the clean
    baseline [history[-1]] would give (18, 0, 0), but the entry appended
    is (28, 10, 10), the operator applied to the preview; the slider
    preview is baked into the history. *)
Lemma C1_counterexample :
  snd (PhotoEditorMain.on_slider "Parlaklık" 10 black_doc) = preview_doc /\
  last_item (history preview_doc) = Some black_image /\
  (forall L : Imaging,
     effect_image "red" black_image = Some (mkImage 1 1 [(18, 0, 0)]) /\
     history (snd (PhotoEditorMain.apply_effect "red" preview_doc))
     = [black_image; mkImage 1 1 [(28, 10, 10)]]) /\
  ~ (forall (L : Imaging) (effect : string) (doc : ImageDocument.t) (base img : Image),
       last_item (history doc) = Some base ->
       effect_image effect base = Some img ->
       last_item (history (snd (PhotoEditorMain.apply_effect effect doc))) = Some img).
Proof.
  split; [rewrite (slider_black 10) by (unfold uint8; lia); reflexivity|].
  split; [reflexivity|].
  split; [intro L; split; reflexivity|].
  intro H.
  specialize (H identity_imaging "red"%string preview_doc black_image
                (mkImage 1 1 [(18, 0, 0)]) eq_refl eq_refl).
  discriminate H.
Qed.

Lemma C3_commit_history_and_parameters_witness :
  pil two_step_doc = Some white_image /\
  exists img,
    PhotoEditorMain.rotate90 (L := identity_imaging) two_step_doc
    = (Returned, committed two_step_doc img (setitem default_adjustments Kbrightness 50)).
Proof.
  split; [reflexivity|].
  exact (proj1 (proj2 (C3_commit_history_and_parameters (L := identity_imaging)
                         two_step_doc white_image eq_refl))
           PhotoEditorMain.rotate90 (or_introl eq_refl)).
Defined.

(** At the failing input of C3: a brightness of 50 is pending, the image
    is rotated, and the brightness is still 50 afterwards, for every
    imaging library. *)
Example rotate90_keeps_pending_brightness (L : Imaging) :
  brightness (adjustments (snd (PhotoEditorMain.rotate90 two_step_doc))) = 50 /\
  adjustments (snd (PhotoEditorMain.rotate90 two_step_doc)) <> default_adjustments /\
  List.length (history (snd (PhotoEditorMain.rotate90 two_step_doc))) = 3%nat.
Proof. repeat split. discriminate. Qed.

Lemma C10_unknown_effect_is_noop_witness :
  ~ In "sepia"%string catalog /\
  snd (PhotoEditorMain.apply_effect (L := identity_imaging) "sepia" two_step_doc)
  = two_step_doc.
Proof.
  assert (H : ~ In "sepia"%string catalog).
  { simpl. intros [E|[E|[E|[E|[E|[E|[E|[E|[]]]]]]]]]; discriminate E. }
  split; [exact H|].
  exact (proj1 (C10_unknown_effect_is_noop (L := identity_imaging) "sepia"
                  two_step_doc H)).
Defined.

(** ** C4: undo *)

Lemma last_item_app (h : list Image) (im : Image) : last_item (h ++ [im]) = Some im.
Proof. unfold last_item. rewrite rev_app_distr. reflexivity. Qed.

Lemma two_or_more (h : list Image) :
  (2 <= List.length h)%nat ->
  exists h' base top, h = h' ++ [base; top].
Proof.
  intro H.
  destruct (exists_last (l := h)) as (h1 & top & ->); [intros ->; simpl in H; lia|].
  rewrite length_app in H. simpl in H.
  destruct (exists_last (l := h1)) as (h' & base & ->); [intros ->; simpl in H; lia|].
  exists h', base, top. rewrite <- app_assoc. reflexivity.
Qed.

(** C4 (the code on every document).  With at most one history entry
    [undo] returns [False] and changes nothing.  With two or more it
    returns [True], removes exactly the last entry and shows the new last
    entry; the parameters are left as they are, not reset.  The editor's
    [undo] is [doc.undo()] followed by a redraw. *)
Theorem C4_undo (doc : ImageDocument.t) :
  ((List.length (history doc) <= 1)%nat -> ImageDocument.undo doc = (false, doc)) /\
  ((2 <= List.length (history doc))%nat ->
   exists h base top,
     history doc = h ++ [base; top] /\
     ImageDocument.undo doc
     = (true, mk (path doc) (Some base) (h ++ [base]) (adjustments doc))) /\
  PhotoEditorMain.undo doc = (Returned, snd (ImageDocument.undo doc)).
Proof.
  split; [|split].
  - intro H. unfold ImageDocument.undo.
    destruct (Nat.ltb_spec 1 (List.length (history doc))); [lia | reflexivity].
  - intro H. destruct (two_or_more _ H) as (h & base & top & E).
    exists h, base, top. split; [exact E|].
    unfold ImageDocument.undo.
    destruct (Nat.ltb_spec 1 (List.length (history doc))); [|lia].
    rewrite E.
    replace (h ++ [base; top]) with ((h ++ [base]) ++ [top])
      by (rewrite <- app_assoc; reflexivity).
    rewrite removelast_last, last_item_app. reflexivity.
  - unfold PhotoEditorMain.undo. destruct (ImageDocument.undo doc). reflexivity.
Qed.

Lemma C4_undo_witness :
  (2 <= List.length (history two_step_doc))%nat /\
  exists h base top,
    history two_step_doc = h ++ [base; top] /\
    ImageDocument.undo two_step_doc
    = (true, mk (path two_step_doc) (Some base) (h ++ [base])
               (adjustments two_step_doc)).
Proof.
  split; [simpl; lia|].
  apply (proj1 (proj2 (C4_undo two_step_doc))). simpl. lia.
Defined.

(** At the failing input of C4: a brightness of 50 is pending, [undo]
    succeeds, shows the restored baseline, and the brightness is still
    50. *)
Example undo_keeps_pending_brightness :
  ImageDocument.undo two_step_doc
  = (true, mk None (Some black_image) [black_image]
             (setitem default_adjustments Kbrightness 50)) /\
  adjustments (snd (ImageDocument.undo two_step_doc)) <> default_adjustments.
Proof. split; [reflexivity | discriminate]. Qed.

(** ** C9: portrait retouch without faces *)

(** The integer part of a fraction. *)
Lemma frac_floor (a b : Z) :
  0 < b -> (IZR (a / b) <= IZR a / IZR b < IZR (a / b) + 1)%R.
Proof.
  intro Hb. assert (Hb' : (0 < IZR b)%R) by (apply (IZR_lt 0), Hb).
  pose proof (Z.mul_div_le a b Hb) as Hlo.
  pose proof (Z.mul_succ_div_gt a b Hb) as Hhi.
  apply IZR_le in Hlo. apply IZR_lt in Hhi.
  rewrite mult_IZR in Hlo. rewrite mult_IZR, succ_IZR in Hhi.
  split.
  - apply Rmult_le_reg_r with (IZR b); [exact Hb'|].
    unfold Rdiv. rewrite Rmult_assoc, Rinv_l by lra. lra.
  - apply Rmult_lt_reg_r with (IZR b); [exact Hb'|].
    unfold Rdiv. rewrite Rmult_assoc, Rinv_l by lra. lra.
Qed.

Lemma astype_uint8_frac (a b : Z) :
  0 < b -> uint8 (a / b) -> astype_uint8 (IZR a / IZR b) = a / b.
Proof.
  intros Hb Hq. apply astype_uint8_floor; [exact Hq | apply frac_floor, Hb].
Qed.

Lemma astype_uint8_min_frac (a b : Z) :
  0 < b -> 0 <= a / b ->
  astype_uint8 (Rmin 255 (IZR a / IZR b)) = Z.min 255 (a / b).
Proof.
  intros Hb Hq. pose proof (frac_floor a b Hb) as [F1 F2].
  destruct (Z_lt_le_dec (a / b) 255) as [Hs|Hbig].
  - rewrite Z.min_r by lia.
    assert (IZR (a / b) + 1 <= 255)%R.
    { rewrite <- (plus_IZR _ 1). apply IZR_le. lia. }
    apply astype_uint8_floor; [unfold uint8; lia|].
    unfold Rmin. destruct Rle_dec; lra.
  - rewrite Z.min_l by lia. apply IZR_le in Hbig.
    apply astype_uint8_floor; [unfold uint8; lia|].
    unfold Rmin. destruct Rle_dec; lra.
Qed.

(** The two factors of the rebalance as binary32 numbers. *)
Lemma factor_095 : fl32 (fl64 0.95) = (IZR 15938355 / IZR 16777216)%R.
Proof.
  replace 0.95%R with (IZR 95 / IZR 100)%R by lra.
  fl_eval. reflexivity.
Qed.

Lemma factor_105 : fl32 (fl64 1.05) = (IZR 8808038 / IZR 8388608)%R.
Proof.
  replace 1.05%R with (IZR 105 / IZR 100)%R by lra.
  fl_eval. reflexivity.
Qed.

(** A sample times a binary32 factor, in binary32. *)
Lemma fl32_sample_product (num den x : Z) :
  0 < den ->
  fl32 (IZR x * (IZR num / IZR den))
  = (IZR (fst (sample_product num den x)) / IZR (snd (sample_product num den x)))%R.
Proof.
  intro Hd. assert (Hd' : (0 < IZR den)%R) by (apply (IZR_lt 0), Hd).
  replace (IZR x * (IZR num / IZR den))%R with (IZR (x * num) / IZR den)%R
    by (rewrite mult_IZR; field; lra).
  unfold sample_product.
  destruct (round_frac 24 (-149) (x * num) den) as [a b] eqn:E.
  apply fl32_frac; assumption.
Qed.

(** The products of all 256 samples, computed. *)
Lemma red_products :
  forallb (fun x => let '(a, b) := sample_product 15938355 16777216 x in
                    (0 <? b) && (0 <=? a / b) && (a / b <=? 255)
                    && (a / b =? 95 * x / 100))
          levels = true.
Proof. vm_compute. reflexivity. Qed.

Lemma green_products :
  forallb (fun x => let '(a, b) := sample_product 8808038 8388608 x in
                    (0 <? b) && (0 <=? a / b)
                    && (Z.min 255 (a / b) =? times_105 x))
          levels = true.
Proof. vm_compute. reflexivity. Qed.

Lemma rebalance_red (x : Z) :
  uint8 x -> astype_uint8 (fl32 (IZR x * fl32 (fl64 0.95))) = 95 * x / 100.
Proof.
  intro Hx. rewrite factor_095, fl32_sample_product by lia.
  pose proof (proj1 (forallb_forall _ _) red_products x (in_levels x Hx)) as T.
  cbv beta in T.
  destruct (sample_product 15938355 16777216 x) as [a b]. cbn [fst snd].
  apply andb_prop in T. destruct T as [T T4].
  apply andb_prop in T. destruct T as [T T3].
  apply andb_prop in T. destruct T as [T1 T2].
  apply Z.ltb_lt in T1. apply Z.leb_le in T2, T3. apply Z.eqb_eq in T4.
  rewrite astype_uint8_frac by (assumption || (unfold uint8; lia)).
  exact T4.
Qed.

Lemma rebalance_green (x : Z) :
  uint8 x ->
  astype_uint8 (Rmin 255 (fl32 (IZR x * fl32 (fl64 1.05)))) = times_105 x.
Proof.
  intro Hx. rewrite factor_105, fl32_sample_product by lia.
  pose proof (proj1 (forallb_forall _ _) green_products x (in_levels x Hx)) as T.
  cbv beta in T.
  destruct (sample_product 8808038 8388608 x) as [a b]. cbn [fst snd].
  apply andb_prop in T. destruct T as [T T3].
  apply andb_prop in T. destruct T as [T1 T2].
  apply Z.ltb_lt in T1. apply Z.leb_le in T2. apply Z.eqb_eq in T3.
  rewrite astype_uint8_min_frac by assumption.
  exact T3.
Qed.

(** The rebalance in integers. *)
Lemma rebalance_closed (p : pixel) :
  pixel_ok p ->
  rebalance p = (95 * red p / 100, times_105 (green p), times_105 (blue p)).
Proof.
  destruct p as [[r g] b]. intros (Hr & Hg & Hb).
  cbn [red green blue fst snd] in *.
  unfold rebalance, astype_float, fpixel_astype_uint8. cbn [red green blue fst snd].
  rewrite rebalance_red, !rebalance_green by assumption. reflexivity.
Qed.

(** On the gray 60 the binary32 products are 57.000004 and 62.999996:
    the green and the blue sample come out as 62, not as 63. *)
Lemma rebalance_gray_60 : rebalance (60, 60, 60) = (57, 62, 62).
Proof. rewrite rebalance_closed by (repeat split; cbn; lia). reflexivity. Qed.

Section Portrait.

Context {L : Imaging}.

Lemma portrait_image_no_faces (img : Image) :
  no_faces img ->
  portrait_image img = bilateralFilter 9 75 75 (np_map rebalance img).
Proof.
  unfold portrait_image. intros [H|H]; rewrite H; reflexivity.
Qed.

(** C9 (as the code has it).  When the face locator returns nothing,
    [portrait_mode] commits exactly the bilateral smoothing (d = 9, both
    sigmas 75) of the whole rebalanced image.  The rebalance, computed in
    binary32 and truncated, maps an 8-bit pixel (r, g, b) to
    (95 r / 100, min(255, 105 g / 100), min(255, 105 b / 100)), rounded
    down, but for the green and blue samples 60, 100, 120, 180, 200, 220
    and 240, which come out one less ([times_105]: there the binary32
    product falls just below the integer). *)
Theorem C9_portrait_without_faces (doc : ImageDocument.t) (p : Image) :
  pil doc = Some p ->
  no_faces p ->
  let img := bilateralFilter 9 75 75 (np_map rebalance p) in
  portrait_image p = img /\
  PhotoEditorMain.portrait_mode doc = (Returned, committed doc img (adjustments doc)) /\
  (valid_image p ->
   np_map rebalance p
   = np_map (fun q => (95 * red q / 100, times_105 (green q), times_105 (blue q))) p).
Proof.
  intros Hp Hf img. subst img. split; [|split].
  - apply portrait_image_no_faces, Hf.
  - unfold PhotoEditorMain.portrait_mode. rewrite Hp. unfold copy.
    rewrite (portrait_image_no_faces p Hf). apply set_and_push_committed.
  - intros [_ Hpix]. unfold np_map. f_equal.
    apply map_ext_in. intros q Hq. apply rebalance_closed.
    rewrite Forall_forall in Hpix. exact (Hpix q Hq).
Qed.

(** A one-colour black image comes out of the retouch as it went in, as
    soon as smoothing keeps one-colour images. *)
Lemma portrait_black_unchanged :
  smoothing_keeps_uniform L ->
  no_faces black_image ->
  portrait_image black_image = black_image.
Proof.
  intros Hs Hf. rewrite (portrait_image_no_faces _ Hf).
  assert (E : np_map rebalance black_image = black_image).
  { unfold np_map, black_image. cbn [width height pixels map]. do 2 f_equal.
    rewrite rebalance_closed by (repeat split; cbn; lia). reflexivity. }
  rewrite E. apply (Hs 9 75 75 (0, 0, 0)).
  repeat constructor.
Qed.

End Portrait.

Lemma identity_imaging_smoothing : smoothing_keeps_uniform identity_imaging.
Proof. intros d sc ss c im _. reflexivity. Qed.

Lemma C9_portrait_without_faces_witness :
  (pil black_doc = Some black_image /\ no_faces (L := identity_imaging) black_image) /\
  portrait_image (L := identity_imaging) black_image
  = bilateralFilter (Imaging := identity_imaging) 9 75 75 (np_map rebalance black_image).
Proof.
  split; [split; [reflexivity | left; reflexivity]|].
  exact (proj1 (C9_portrait_without_faces (L := identity_imaging) black_doc black_image
                  eq_refl (or_introl eq_refl))).
Defined.

(** C9 (counterexample).  On the one-pixel black image, with no face
    found, the retouched image equals the input, for every imaging
    library whose smoothing keeps one-colour images; so "never equal to
    the input" fails. *)
Lemma C9_counterexample :
  valid_image black_image /\
  (forall L : Imaging,
     smoothing_keeps_uniform L -> no_faces black_image ->
     portrait_image black_image = black_image) /\
  ~ (forall (L : Imaging) (img : Image),
       smoothing_keeps_uniform L -> valid_image img -> no_faces img ->
       portrait_image img <> img).
Proof.
  assert (V : valid_image black_image).
  { split; [reflexivity|]. repeat constructor; cbn; lia. }
  split; [exact V|]. split.
  - intro L. apply portrait_black_unchanged.
  - intro H.
    apply (H identity_imaging black_image identity_imaging_smoothing V
             (or_introl eq_refl)).
    apply (portrait_black_unchanged (L := identity_imaging)
             identity_imaging_smoothing (or_introl eq_refl)).
Qed.

(** * Further properties of the code *)

(** ** Colour temperature: errors and monotonicity *)

(** The three gains written out, for a temperature the logarithm accepts. *)
Lemma gains_inv (k : Z) (r g b : R) :
  kelvin_to_rgb_gains k = Ok (r, g, b) ->
  let temp := (IZR k / 100)%R in
  (0 < temp)%R /\
  r = ((if Rle_dec temp 66 then 255
        else clamp (329.698727446 * Rpower (temp - 60) (-0.1332047592))) / 255)%R /\
  b = ((if Rge_dec temp 66 then 255
        else if Rle_dec temp 19 then 0
        else clamp (138.5177312231 * ln (temp - 10) - 305.0447927307)) / 255)%R.
Proof.
  unfold kelvin_to_rgb_gains, math_log. cbv zeta.
  destruct (Rle_dec (IZR k / 100) 66) as [Hle|Hgt].
  - destruct (Rlt_dec 0 (IZR k / 100)) as [Hpos|Hneg]; [|discriminate].
    intro H. inversion H. repeat split. exact Hpos.
  - intro H. inversion H. repeat split. lra.
Qed.

Lemma gains_raise (k : Z) : k <= 0 -> kelvin_to_rgb_gains k = Raise ValueError.
Proof.
  intro Hk. apply IZR_le in Hk.
  unfold kelvin_to_rgb_gains, math_log. cbv zeta.
  destruct (Rle_dec (IZR k / 100) 66) as [_|H]; [|lra].
  destruct (Rlt_dec 0 (IZR k / 100)) as [H|_]; [lra | reflexivity].
Qed.

(** X1.  On an integer temperature in the range of a float,
    [kelvin_to_rgb_gains] raises exactly when the temperature is zero or
    negative (where [math.log] has no value), and then the error is
    [ValueError]; on every positive temperature it returns gains. *)
Theorem X1_gains_error (k : Z) :
  Z.abs k < 2 ^ 1023 ->
  (k <= 0 -> kelvin_to_rgb_gains k = Raise ValueError) /\
  (0 < k -> exists r g b, kelvin_to_rgb_gains k = Ok (r, g, b)).
Proof.
  intros _. split.
  - apply gains_raise.
  - intro Hk. destruct (gains_in_unit_interval k Hk) as (r & g & b & H & _).
    exists r, g, b. exact H.
Qed.

Lemma X1_gains_error_witness :
  (Z.abs (-5) < 2 ^ 1023 /\ -5 <= 0) /\
  kelvin_to_rgb_gains (-5) = Raise ValueError.
Proof.
  split; [split; [reflexivity | lia]|].
  apply (proj1 (X1_gains_error (-5) eq_refl)). lia.
Defined.

Lemma exp_le_mono (x y : R) : (x <= y)%R -> (exp x <= exp y)%R.
Proof.
  intros [H|H]; [left; apply exp_increasing, H | right; now rewrite H].
Qed.

(** A power with a negative exponent decreases. *)
Lemma Rpower_neg_antitone (x y e : R) :
  (0 < x <= y)%R -> (e <= 0)%R -> (Rpower y e <= Rpower x e)%R.
Proof.
  intros [Hx Hxy] He. unfold Rpower. apply exp_le_mono.
  assert (ln x <= ln y)%R.
  { destruct Hxy as [Hlt|Heq]; [left; apply ln_increasing; assumption | right; now rewrite Heq]. }
  nra.
Qed.

Lemma clamp_mono (u v : R) : (u <= v)%R -> (clamp u <= clamp v)%R.
Proof.
  intro H. unfold clamp, Rmax, Rmin. repeat destruct Rle_dec; lra.
Qed.

Lemma ln_le_mono (x y : R) : (0 < x <= y)%R -> (ln x <= ln y)%R.
Proof.
  intros [Hx [Hlt|Heq]]; [left; apply ln_increasing; assumption | right; now rewrite Heq].
Qed.

(** X2.  Raising the temperature never raises the red gain and never
    lowers the blue gain; the red gain is 1 up to 6600 K, the blue gain
    is 1 from 6600 K on and 0 up to 1900 K. *)
Theorem X2_gains_monotone (k1 k2 : Z) (r1 g1 b1 r2 g2 b2 : R) :
  kelvin_to_rgb_gains k1 = Ok (r1, g1, b1) ->
  kelvin_to_rgb_gains k2 = Ok (r2, g2, b2) ->
  k1 <= k2 ->
  (r2 <= r1)%R /\ (b1 <= b2)%R /\
  (k1 <= 6600 -> r1 = 1%R) /\ (6600 <= k1 -> b1 = 1%R) /\ (k1 <= 1900 -> b1 = 0%R).
Proof.
  intros H1 H2 Hk.
  apply gains_inv in H1, H2. cbv zeta in H1, H2.
  destruct H1 as (T1 & -> & ->). destruct H2 as (T2 & -> & ->).
  assert (Ht : (IZR k1 / 100 <= IZR k2 / 100)%R) by (apply IZR_le in Hk; lra).
  set (t1 := (IZR k1 / 100)%R) in *. set (t2 := (IZR k2 / 100)%R) in *.
  split; [|split; [|split; [|split]]].
  - destruct (Rle_dec t1 66), (Rle_dec t2 66); try lra.
    + pose proof (clamp_range (329.698727446 * Rpower (t2 - 60) (-0.1332047592))). lra.
    + assert (Rpower (t2 - 60) (-0.1332047592) <= Rpower (t1 - 60) (-0.1332047592))%R
        by (apply Rpower_neg_antitone; lra).
      pose proof (clamp_mono (329.698727446 * Rpower (t2 - 60) (-0.1332047592))
                             (329.698727446 * Rpower (t1 - 60) (-0.1332047592))
                             ltac:(lra)).
      lra.
  - destruct (Rge_dec t1 66), (Rge_dec t2 66); try lra.
    + destruct (Rle_dec t1 19).
      * lra.
      * pose proof (clamp_range (138.5177312231 * ln (t1 - 10) - 305.0447927307)). lra.
    + destruct (Rle_dec t1 19), (Rle_dec t2 19); try lra.
      * pose proof (clamp_range (138.5177312231 * ln (t2 - 10) - 305.0447927307)). lra.
      * assert (ln (t1 - 10) <= ln (t2 - 10))%R by (apply ln_le_mono; lra).
        pose proof (clamp_mono (138.5177312231 * ln (t1 - 10) - 305.0447927307)
                               (138.5177312231 * ln (t2 - 10) - 305.0447927307)
                               ltac:(lra)).
        lra.
  - intro H. apply IZR_le in H. subst t1.
    destruct (Rle_dec (IZR k1 / 100) 66); lra.
  - intro H. apply IZR_le in H. subst t1.
    destruct (Rge_dec (IZR k1 / 100) 66); lra.
  - intro H. apply IZR_le in H. subst t1.
    destruct (Rge_dec (IZR k1 / 100) 66); [lra|].
    destruct (Rle_dec (IZR k1 / 100) 19); lra.
Qed.

Lemma X2_gains_monotone_witness :
  (kelvin_to_rgb_gains 6500 = Ok (1, green_6500 / 255, blue_6500 / 255)%R /\
   kelvin_to_rgb_gains 6600 = Ok (1, 1, 1)%R /\ 6500 <= 6600) /\
  (blue_6500 / 255 <= 1)%R.
Proof.
  split; [split; [exact gains_6500 | split; [exact gains_6600 | lia]]|].
  exact (proj1 (proj2 (X2_gains_monotone 6500 6600 _ _ _ _ _ _ gains_6500 gains_6600
                         ltac:(lia)))).
Defined.

(** ** The preview: errors, shape, saturation *)

Lemma last_item_nil_iff (h : list Image) : last_item h = None <-> h = [].
Proof.
  unfold last_item. split.
  - destruct (rev h) eqn:E; [|discriminate].
    intros _. rewrite <- (rev_involutive h), E. reflexivity.
  - intros ->. reflexivity.
Qed.

Lemma last_item_some (h : list Image) : h <> [] -> exists im, last_item h = Some im.
Proof.
  intro H. destruct (last_item h) as [im|] eqn:E; [eauto|].
  apply last_item_nil_iff in E. contradiction.
Qed.

(** The preview of a document with a base and a positive temperature,
    pixel by pixel. *)
Lemma preview_pixelwise (doc : ImageDocument.t) (base : Image) :
  last_item (history doc) = Some base ->
  0 < kelvin (adjustments doc) ->
  exists g0 g1 g2 : R,
    (0 <= g0 <= 1)%R /\ (0 <= g1 <= 1)%R /\ (0 <= g2 <= 1)%R /\
    PhotoEditorMain.apply_adjustments_preview doc
    = (Returned,
       set_pil doc (Some (np_map (adjust_pixel (g0, g1, g2) (adjustments doc)) base))).
Proof.
  intros Hb Hk.
  destruct (gains_in_unit_interval _ Hk) as (g0 & g1 & g2 & Hg & H0 & H1 & H2).
  exists g0, g1, g2. repeat split; try tauto.
  unfold PhotoEditorMain.apply_adjustments_preview. rewrite Hb, Hg. reflexivity.
Qed.

(** X4.  On parameters a slider can deliver,
    [apply_adjustments_preview] raises in two cases only: IndexError
    on a document with an empty history, ValueError when the stored
    temperature is zero or negative; in both the document is left as it
    was.  Otherwise it returns and only the image on display changes. *)
Theorem X4_preview_errors (doc : ImageDocument.t) :
  qt_values (adjustments doc) ->
  (history doc = [] ->
   PhotoEditorMain.apply_adjustments_preview doc = (Raised IndexError, doc)) /\
  (history doc <> [] -> kelvin (adjustments doc) <= 0 ->
   PhotoEditorMain.apply_adjustments_preview doc = (Raised ValueError, doc)) /\
  (history doc <> [] -> 0 < kelvin (adjustments doc) ->
   exists img,
     PhotoEditorMain.apply_adjustments_preview doc = (Returned, set_pil doc (Some img))).
Proof.
  intros _. split; [|split].
  - intro H. unfold PhotoEditorMain.apply_adjustments_preview. rewrite H. reflexivity.
  - intros H Hk. destruct (last_item_some _ H) as [base Hb].
    unfold PhotoEditorMain.apply_adjustments_preview.
    rewrite Hb, (gains_raise _ Hk). reflexivity.
  - intros H Hk. destruct (last_item_some _ H) as [base Hb].
    destruct (preview_pixelwise doc base Hb Hk) as (g0 & g1 & g2 & _ & _ & _ & E).
    eexists. exact E.
Qed.

Lemma qt_values_default : qt_values default_adjustments.
Proof. unfold qt_values, int32. cbn. lia. Defined.

Lemma X4_preview_errors_witness :
  (qt_values (adjustments empty_doc) /\ history empty_doc = []) /\
  PhotoEditorMain.apply_adjustments_preview empty_doc = (Raised IndexError, empty_doc).
Proof.
  split; [split; [exact qt_values_default | reflexivity]|].
  exact (proj1 (X4_preview_errors empty_doc qt_values_default) eq_refl).
Defined.

Lemma scale_contrast_clipped (ad : Adjustments) (p : fpixel) :
  clipped (scale_contrast ad p).
Proof.
  destruct p as [[r g] b]. unfold scale_contrast, fpixel_map, clipped.
  repeat split; apply np_clip_range.
Qed.

Lemma saturate_clipped (ad : Adjustments) (p : fpixel) :
  clipped p -> clipped (saturate ad p).
Proof.
  intro H. unfold saturate. destruct (Z.eqb (saturation ad) 0); [exact H|].
  destruct p as [[r g] b]. unfold fpixel_map, clipped.
  repeat split; apply np_clip_range.
Qed.

Lemma tone_clipped (ad : Adjustments) (p : fpixel) :
  clipped p -> clipped (tone ad p).
Proof.
  intro H. unfold tone.
  destruct (negb (Z.eqb (shadows ad) 0) || negb (Z.eqb (highlights ad) 0)); [|exact H].
  destruct p as [[r g] b]. unfold fpixel_map, clipped, tone_pixel.
  repeat split; apply np_clip_range.
Qed.

Lemma astype_uint8_clipped (x : R) :
  (0 <= x <= 255)%R -> astype_uint8 x = Int_part x /\ uint8 (Int_part x).
Proof.
  intros [H0 H1]. unfold astype_uint8.
  destruct (Rle_dec 0 x) as [_|H]; [|lra].
  destruct (base_Int_part x) as [Hlo Hhi].
  assert (B : 0 <= Int_part x <= 255).
  { split.
    - apply Z.lt_succ_r. apply lt_IZR. rewrite succ_IZR. lra.
    - apply le_IZR. lra. }
  split; [apply Z.mod_small; lia | exact B].
Qed.

(** The array handed to the cast holds values of [[0, 255]] only: every
    stage from the contrast on ends in a clip, also when the saturation
    and the tone stage are skipped. *)
Lemma adjust_float_clipped (gains : R * R * R) (ad : Adjustments) (p : pixel) :
  clipped (adjust_float gains ad p).
Proof.
  unfold adjust_float. apply tone_clipped, saturate_clipped, scale_contrast_clipped.
Qed.

Lemma adjust_pixel_floor (gains : R * R * R) (ad : Adjustments) (p : pixel) :
  adjust_pixel gains ad p = floor_pixel (adjust_float gains ad p).
Proof.
  pose proof (adjust_float_clipped gains ad p) as C.
  change (adjust_pixel gains ad p) with (fpixel_astype_uint8 (adjust_float gains ad p)).
  destruct (adjust_float gains ad p) as [[r g] b]. destruct C as (Hr & Hg & Hb).
  unfold fpixel_astype_uint8, floor_pixel.
  rewrite (proj1 (astype_uint8_clipped r Hr)), (proj1 (astype_uint8_clipped g Hg)),
    (proj1 (astype_uint8_clipped b Hb)).
  reflexivity.
Qed.

(** X5.  The final cast of the preview never wraps around.  Whatever
    the six parameters are, among the values a slider can deliver and
    with a positive temperature, the float array that
    [apply_adjustments_preview] hands to [astype(np.uint8)] holds values
    of [[0, 255]] only, and every sample of the preview is the integer
    part of the float at its place, for a preview of the width and
    height of the base. *)
Theorem X5_preview_never_wraps (doc : ImageDocument.t) (base : Image) :
  last_item (history doc) = Some base ->
  qt_values (adjustments doc) ->
  0 < kelvin (adjustments doc) ->
  exists gains img,
    kelvin_to_rgb_gains (kelvin (adjustments doc)) = Ok gains /\
    PhotoEditorMain.apply_adjustments_preview doc = (Returned, set_pil doc (Some img)) /\
    width img = width base /\ height img = height base /\
    pixels img
    = map (fun p => floor_pixel (adjust_float gains (adjustments doc) p)) (pixels base) /\
    (forall p, clipped (adjust_float gains (adjustments doc) p)).
Proof.
  intros Hb _ Hk.
  destruct (gains_in_unit_interval _ Hk) as (g0 & g1 & g2 & Hg & _).
  exists (g0, g1, g2).
  exists (np_map (adjust_pixel (g0, g1, g2) (adjustments doc)) base).
  split; [exact Hg|]. split.
  - unfold PhotoEditorMain.apply_adjustments_preview. rewrite Hb, Hg. reflexivity.
  - split; [reflexivity|]. split; [reflexivity|]. split.
    + unfold np_map. cbn [pixels]. apply map_ext. intro p. apply adjust_pixel_floor.
    + intro p. apply adjust_float_clipped.
Qed.

Lemma X5_preview_never_wraps_witness :
  (last_item (history black_doc) = Some black_image /\
   qt_values (adjustments black_doc) /\
   0 < kelvin (adjustments black_doc)) /\
  exists gains img,
    kelvin_to_rgb_gains (kelvin (adjustments black_doc)) = Ok gains /\
    PhotoEditorMain.apply_adjustments_preview black_doc
    = (Returned, set_pil black_doc (Some img)) /\
    clipped (adjust_float gains (adjustments black_doc) (0, 0, 0)).
Proof.
  split; [split; [reflexivity | split; [exact qt_values_default | reflexivity]]|].
  destruct (X5_preview_never_wraps black_doc black_image eq_refl qt_values_default
              eq_refl)
    as (gains & img & G & E & _ & _ & _ & C).
  exists gains, img. split; [exact G|]. split; [exact E | apply C].
Defined.

(** A property of every output pixel of the preview, from a property of
    [adjust_pixel] under gains in the unit interval. *)
Lemma preview_forall (P : pixel -> Prop) (doc : ImageDocument.t) (base : Image) :
  last_item (history doc) = Some base ->
  0 < kelvin (adjustments doc) ->
  (forall g0 g1 g2 p,
     (0 <= g0 <= 1)%R -> (0 <= g1 <= 1)%R -> (0 <= g2 <= 1)%R ->
     In p (pixels base) ->
     P (adjust_pixel (g0, g1, g2) (adjustments doc) p)) ->
  exists img,
    PhotoEditorMain.apply_adjustments_preview doc = (Returned, set_pil doc (Some img)) /\
    List.length (pixels img) = List.length (pixels base) /\
    Forall P (pixels img).
Proof.
  intros Hb Hk HP.
  destruct (preview_pixelwise doc base Hb Hk) as (g0 & g1 & g2 & H0 & H1 & H2 & E).
  eexists. split; [exact E|].
  unfold np_map. cbn [pixels]. split; [apply length_map|].
  apply Forall_forall. intros q Hq.
  apply in_map_iff in Hq. destruct Hq as (p & <- & Hp).
  apply HP; assumption.
Qed.

(** X3.  At 6600 K, where the conversion formula is neutral, and with
    contrast, saturation, shadows and highlights at zero, the brightness
    slider is an exact offset that saturates and never wraps around:
    every sample [x] of an 8-bit image becomes [min(255, max(0, x + b))].
    At [b = 0] the preview of every 8-bit image is the image itself. *)
Theorem X3_brightness_at_6600 (doc : ImageDocument.t) (base : Image) (b : Z) :
  last_item (history doc) = Some base ->
  valid_image base ->
  int32 b ->
  adjustments doc = setitem (setitem default_adjustments Kkelvin 6600) Kbrightness b ->
  PhotoEditorMain.apply_adjustments_preview doc
  = (Returned,
     set_pil doc
       (Some (np_map (fun p => (saturating (red p + b), saturating (green p + b),
                                saturating (blue p + b))) base))) /\
  (b = 0 ->
   PhotoEditorMain.apply_adjustments_preview doc = (Returned, set_pil doc (Some base))).
Proof.
  intros Hb Hv _ Ha. split.
  - destruct Hv as [_ Hpix]. rewrite Forall_forall in Hpix.
    unfold PhotoEditorMain.apply_adjustments_preview. rewrite Hb, Ha.
    change (kelvin (setitem (setitem default_adjustments Kkelvin 6600) Kbrightness b))
      with 6600.
    rewrite gains_6600. do 2 f_equal. f_equal.
    unfold np_map. f_equal. apply map_ext_in. intros p Hp.
    destruct (Hpix p Hp) as (Ur & Ug & Ub).
    rewrite adjust_pixel_channels by reflexivity.
    rewrite (adjust_sample_int 1 _ (red p) (red p)),
      (adjust_sample_int 1 _ (green p) (green p)),
      (adjust_sample_int 1 _ (blue p) (blue p));
      try reflexivity; try assumption; try (rewrite fl32_1; lra).
  - intros ->. apply preview_identity_at_6600; assumption.
Qed.

Lemma X3_brightness_at_6600_witness :
  (last_item (history bright_doc) = Some sample_image /\ valid_image sample_image /\
   int32 100 /\
   adjustments bright_doc
   = setitem (setitem default_adjustments Kkelvin 6600) Kbrightness 100) /\
  PhotoEditorMain.apply_adjustments_preview bright_doc
  = (Returned,
     set_pil bright_doc
       (Some (mkImage 2 2 [(255, 255, 255); (110, 255, 103); (100, 100, 100);
                           (255, 100, 100)]))).
Proof.
  assert (I : int32 100) by (unfold int32; lia).
  split; [split; [reflexivity | split; [exact sample_image_valid |
                                        split; [exact I | reflexivity]]]|].
  exact (proj1 (X3_brightness_at_6600 bright_doc sample_image 100 eq_refl
                  sample_image_valid I eq_refl)).
Defined.

(** The luma of the saturation stage at the mid-gray is the mid-gray:
    the three binary32 weights times 128 add up to 128 exactly. *)
Lemma luma_mid_gray :
  fl32 (fl32 (fl32 (fl32 (fl64 0.2126) * 128) + fl32 (fl32 (fl64 0.7152) * 128))
        + fl32 (fl32 (fl64 0.0722) * 128))
  = 128%R.
Proof.
  replace 0.2126%R with (IZR 2126 / IZR 10000)%R by lra.
  replace 0.7152%R with (IZR 7152 / IZR 10000)%R by lra.
  replace 0.0722%R with (IZR 722 / IZR 10000)%R by lra.
  fl_compute. lra.
Qed.

(** At other grays the binary32 luma can fall just below the gray: a
    saturation of -100 turns the gray 13 into 12. *)
Lemma desaturate_gray_13 :
  fpixel_astype_uint8
    (saturate (setitem default_adjustments Ksaturation (-100)) (13, 13, 13)%R)
  = (12, 12, 12).
Proof.
  unfold saturate, setitem, default_adjustments. cbn [saturation Z.eqb].
  cbv zeta. unfold fpixel_map, fpixel_astype_uint8.
  replace 0.2126%R with (IZR 2126 / IZR 10000)%R by lra.
  replace 0.7152%R with (IZR 7152 / IZR 10000)%R by lra.
  replace 0.0722%R with (IZR 722 / IZR 10000)%R by lra.
  replace (IZR (-100) / 100)%R with (IZR (-1) / IZR 1)%R by lra.
  fl_compute.
  replace (1 + -4503599627370496 / 4503599627370496)%R with 0%R by lra.
  rewrite fl64_0, fl32_0, Rmult_0_r, fl32_0, Rplus_0_r.
  fl_compute.
  rewrite np_clip_inside by lra.
  rewrite astype_uint8_frac by (vm_compute; intuition congruence).
  reflexivity.
Qed.

(** X7.  A contrast of -100 flattens the image: with shadows and
    highlights at zero, every pixel of the preview is the mid-gray
    (128, 128, 128), whatever the base image, the brightness, the
    saturation and the (positive) temperature, among the values a slider
    can deliver. *)
Theorem X7_contrast_flattens (doc : ImageDocument.t) (base : Image) :
  last_item (history doc) = Some base ->
  qt_values (adjustments doc) ->
  0 < kelvin (adjustments doc) ->
  contrast (adjustments doc) = -100 ->
  shadows (adjustments doc) = 0 -> highlights (adjustments doc) = 0 ->
  exists img,
    PhotoEditorMain.apply_adjustments_preview doc = (Returned, set_pil doc (Some img)) /\
    List.length (pixels img) = List.length (pixels base) /\
    Forall (fun p => p = (128, 128, 128)) (pixels img).
Proof.
  intros Hb _ Hk Hc Hsh Hh.
  apply (preview_forall _ doc base Hb Hk).
  intros g0 g1 g2 p _ _ _ _.
  unfold adjust_pixel, tone. rewrite Hsh, Hh. cbn [Z.eqb negb orb].
  assert (E : scale_contrast (adjustments doc)
                (add_brightness (adjustments doc)
                   (white_balance (g0, g1, g2) (astype_float p)))
              = (128, 128, 128)%R).
  { destruct (add_brightness _ _) as [[r g] b].
    unfold scale_contrast, fpixel_map. rewrite Hc, contrast_factor_m100.
    rewrite !Rmult_0_r, fl32_0, Rplus_0_l, (fl32_IZR 128) by lia.
    rewrite np_clip_inside by lra. reflexivity. }
  rewrite E. unfold saturate.
  destruct (Z.eqb (saturation (adjustments doc)) 0).
  - unfold fpixel_astype_uint8.
    rewrite (astype_uint8_IZR 128) by (unfold uint8; lia). reflexivity.
  - unfold fpixel_map, fpixel_astype_uint8. rewrite luma_mid_gray.
    replace (128 - 128)%R with 0%R by lra.
    rewrite fl32_0, Rmult_0_l, fl32_0, Rplus_0_r, (fl32_IZR 128) by lia.
    rewrite np_clip_inside by lra.
    rewrite (astype_uint8_IZR 128) by (unfold uint8; lia). reflexivity.
Qed.

Lemma X7_contrast_flattens_witness :
  (last_item (history flat_doc) = Some sample_image /\
   qt_values (adjustments flat_doc) /\
   0 < kelvin (adjustments flat_doc) /\ contrast (adjustments flat_doc) = -100) /\
  exists img,
    PhotoEditorMain.apply_adjustments_preview flat_doc
    = (Returned, set_pil flat_doc (Some img)) /\
    Forall (fun p => p = (128, 128, 128)) (pixels img).
Proof.
  assert (Q : qt_values (adjustments flat_doc))
    by (unfold qt_values, int32; cbn; lia).
  split; [split; [reflexivity | split; [exact Q | split; reflexivity]]|].
  destruct (X7_contrast_flattens flat_doc sample_image eq_refl Q eq_refl eq_refl
              eq_refl eq_refl) as (img & E & _ & W).
  exists img. split; assumption.
Defined.

(** X8.  A saturation of -100 removes all colour: in every pixel of the
    preview the three channels are equal, whatever the base image and
    the other five parameters, among the values a slider can deliver
    and with a positive temperature. *)
Theorem X8_desaturate_is_gray (doc : ImageDocument.t) (base : Image) :
  last_item (history doc) = Some base ->
  qt_values (adjustments doc) ->
  0 < kelvin (adjustments doc) ->
  saturation (adjustments doc) = -100 ->
  exists img,
    PhotoEditorMain.apply_adjustments_preview doc = (Returned, set_pil doc (Some img)) /\
    List.length (pixels img) = List.length (pixels base) /\
    Forall (fun p => red p = green p /\ green p = blue p) (pixels img).
Proof.
  intros Hb _ Hk Hs.
  apply (preview_forall _ doc base Hb Hk).
  intros g0 g1 g2 p _ _ _ _.
  unfold adjust_pixel.
  destruct (scale_contrast _ _) as [[r g] b].
  unfold saturate. rewrite Hs. cbn [Z.eqb]. unfold fpixel_map.
  rewrite contrast_factor_m100.
  rewrite !Rmult_0_r, fl32_0, Rplus_0_r, fl32_idem.
  set (lum := fl32 _).
  unfold tone.
  destruct (negb _ || negb _); unfold fpixel_map, fpixel_astype_uint8;
    cbn [red green blue fst snd]; split; reflexivity.
Qed.

Lemma X8_desaturate_is_gray_witness :
  (last_item (history gray_doc) = Some sample_image /\
   qt_values (adjustments gray_doc) /\
   0 < kelvin (adjustments gray_doc) /\ saturation (adjustments gray_doc) = -100) /\
  exists img,
    PhotoEditorMain.apply_adjustments_preview gray_doc
    = (Returned, set_pil gray_doc (Some img)) /\
    Forall (fun p => red p = green p /\ green p = blue p) (pixels img).
Proof.
  assert (Q : qt_values (adjustments gray_doc))
    by (unfold qt_values, int32; cbn; lia).
  split; [split; [reflexivity | split; [exact Q | split; reflexivity]]|].
  destruct (X8_desaturate_is_gray gray_doc sample_image eq_refl Q eq_refl eq_refl)
    as (img & E & _ & W).
  exists img. split; assumption.
Defined.

(** ** The tone curve *)


















Lemma tone_pixel_highlights (a : R) (h : Z) :
  tone_pixel a 0 h
  = np_clip
      (fl32
         ((if Req_dec_T (fl64 (IZR h / 100)) 0 then fl32 (a / 255)
           else fl32 (fl32 (a / 255)
                      - fl32 (fl32 (fl32 (fl64 (fl64 (IZR h / 100) * fl64 0.6))
                                    * Rmin 1 (Rmax 0
                                         (fl32 (fl32 (fl32 (a / 255) - fl32 (fl64 0.4))
                                                / fl32 (fl64 (1 - fl64 0.4))))))
                              * fl32 (a / 255)))) * 255)) 0 255.
Proof.
  unfold tone_pixel. cbv zeta.
  replace (IZR 0 / 100)%R with 0%R by lra. rewrite fl64_0.
  destruct (Req_dec_T 0 0) as [_|N]; [|contradiction].
  destruct (Req_dec_T (fl64 (IZR h / 100)) 0); reflexivity.
Qed.

(** Highlights at 100 bring white down to [1 - 0.6] in binary32, which
    is just below 0.4: the sample becomes 101. *)
Lemma compress_white : astype_uint8 (tone_pixel 255 0 100) = 101.
Proof.
  rewrite tone_pixel_highlights.
  replace (255 / 255)%R with (IZR 1 / IZR 1)%R by lra.
  replace (IZR 100 / 100)%R with (IZR 1 / IZR 1)%R by lra.
  replace 0.6%R with (IZR 6 / IZR 10)%R by lra.
  replace 0.4%R with (IZR 4 / IZR 10)%R by lra.
  fl_compute.
  destruct (Req_dec_T (4503599627370496 / 4503599627370496) 0) as [E|_]; [lra|].
  replace (Rmin 1 (Rmax 0 (8388608 / 8388608))) with (IZR 1 / IZR 1)%R
    by (unfold Rmin, Rmax; repeat destruct Rle_dec; lra).
  fl_compute.
  rewrite np_clip_inside by lra.
  rewrite astype_uint8_frac by (vm_compute; intuition congruence).
  reflexivity.
Qed.





(** ** Pixelwise effects *)






(** ** History: commit, undo and the loaded invariant *)

Lemma undo_committed (doc : ImageDocument.t) (img : Image) (ad : Adjustments) (base : Image) :
  last_item (history doc) = Some base ->
  ImageDocument.undo (committed doc img ad)
  = (true, mk (path doc) (Some base) (history doc) ad).
Proof.
  intro Hb. unfold ImageDocument.undo, committed. cbn [history path adjustments].
  rewrite length_app. cbn [List.length].
  destruct (history doc) as [|im h] eqn:E; [discriminate Hb|].
  destruct (Nat.ltb_spec 1 (List.length (im :: h) + 1)) as [_|H];
    [|cbn [List.length] in H; lia].
  rewrite removelast_last, Hb. reflexivity.
Qed.

Section Session.

Context {L : Imaging}.

Lemma commit_slot (a : action) (doc : ImageDocument.t) :
  commits a -> pil doc <> None ->
  exists img ad, slot a doc = (Returned, committed doc img ad).
Proof.
  intros Hc Hp. destruct (pil doc) as [p|] eqn:E; [|contradiction].
  destruct a; cbn [commits] in Hc; try contradiction; cbn [slot].
  - destruct (effect_image_known effect p Hc) as [img Hi].
    exists img, default_adjustments. exact (apply_effect_commits effect doc p img E Hi).
  - unfold PhotoEditorMain.rotate90. rewrite E. eexists _, _. apply set_and_push_committed.
  - unfold PhotoEditorMain.flip_horizontal. rewrite E. eexists _, _.
    apply set_and_push_committed.
  - unfold PhotoEditorMain.portrait_mode. rewrite E. eexists _, _.
    apply set_and_push_committed.
  - unfold PhotoEditorMain.auto_enhance. rewrite E. eexists _, _.
    apply set_and_push_committed.
Qed.

(** X11.  Commit, then undo: after any committing action (one of the
    eight named effects, rotate, flip, portrait, auto-enhance) on a loaded
    document, [undo] succeeds, the history is exactly what it was before
    the commit, and the image on display is the previous baseline
    [history[-1]], not the preview that was shown before the commit. *)
Theorem X11_commit_then_undo (a : action) (doc : ImageDocument.t) (base : Image) :
  commits a ->
  pil doc <> None ->
  last_item (history doc) = Some base ->
  exists doc1,
    slot a doc = (Returned, doc1) /\
    List.length (history doc1) = S (List.length (history doc)) /\
    ImageDocument.undo doc1
    = (true, mk (path doc) (Some base) (history doc) (adjustments doc1)).
Proof.
  intros Hc Hp Hb.
  destruct (commit_slot a doc Hc Hp) as (img & ad & E).
  exists (committed doc img ad). split; [exact E|]. split.
  - cbn [committed history]. rewrite length_app. cbn [List.length]. lia.
  - apply undo_committed, Hb.
Qed.

Lemma gains_raise_inv (k : Z) (e : exn) :
  kelvin_to_rgb_gains k = Raise e -> k <= 0 /\ e = ValueError.
Proof.
  intro H. destruct (Z_lt_le_dec 0 k) as [Hk|Hk].
  - destruct (gains_in_unit_interval k Hk) as (r & g & b & E & _).
    rewrite E in H. discriminate H.
  - rewrite (gains_raise k Hk) in H. inversion H. split; [exact Hk | reflexivity].
Qed.

Lemma hd_error_app (h : list Image) (im : Image) :
  h <> [] -> hd_error (h ++ [im]) = hd_error h.
Proof. destruct h; [contradiction | reflexivity]. Qed.

(** What one action keeps of a loaded document. *)
Lemma slot_keeps_loaded (a : action) (doc : ImageDocument.t) :
  loaded doc ->
  loaded (snd (slot a doc)) /\
  hd_error (history (snd (slot a doc))) = hd_error (history doc) /\
  (fst (slot a doc) = Returned \/
   fst (slot a doc) = Raised ValueError /\ kelvin (adjustments (snd (slot a doc))) <= 0).
Proof.
  intros [Hp Hh].
  destruct (pil doc) as [p|] eqn:Ep; [clear Hp | contradiction].
  destruct (last_item_some _ Hh) as [base Hb].
  assert (C : forall img ad,
             loaded (committed doc img ad) /\
             hd_error (history (committed doc img ad)) = hd_error (history doc)).
  { intros img ad. cbn [committed history]. split.
    - split; [discriminate | intro H; apply app_eq_nil in H; destruct H; discriminate].
    - apply hd_error_app, Hh. }
  destruct a; cbn [slot].
  - unfold PhotoEditorMain.on_slider.
    destruct (PhotoEditorMain.mapping name) as [k|].
    + unfold PhotoEditorMain.apply_adjustments_preview.
      cbn [history set_adjustments adjustments]. rewrite Hb.
      destruct (kelvin_to_rgb_gains _) as [gains|e] eqn:Eg;
        unfold loaded; cbn [fst snd set_pil set_adjustments pil history adjustments].
      * repeat split; auto; discriminate.
      * destruct (gains_raise_inv _ _ Eg) as [Hk ->].
        rewrite Ep. repeat split; auto; discriminate.
    + unfold loaded. cbn [fst snd]. rewrite Ep. repeat split; auto; discriminate.
  - unfold PhotoEditorMain.apply_effect. rewrite Ep.
    destruct (effect_image effect (copy p)) as [img|].
    + rewrite set_and_push_committed. cbn [fst snd].
      destruct (C img (adjustments doc)) as [Hl Hd]. split; [exact Hl|]. auto.
    + unfold loaded. cbn [fst snd]. rewrite Ep. repeat split; auto; discriminate.
  - unfold PhotoEditorMain.rotate90. rewrite Ep, set_and_push_committed.
    cbn [fst snd]. destruct (C (rotate (-90) true p) (adjustments doc)). auto.
  - unfold PhotoEditorMain.flip_horizontal. rewrite Ep, set_and_push_committed.
    cbn [fst snd]. destruct (C (mirror p) (adjustments doc)). auto.
  - unfold PhotoEditorMain.undo, ImageDocument.undo.
    destruct (Nat.ltb_spec 1 (List.length (history doc))) as [Hlen|Hlen]; cbn [fst snd].
    + destruct (two_or_more _ Hlen) as (h & b0 & top & E).
      rewrite E.
      replace (h ++ [b0; top]) with ((h ++ [b0]) ++ [top])
        by (rewrite <- app_assoc; reflexivity).
      rewrite removelast_last, last_item_app. cbn [pil history option_map].
      split; [split; [discriminate|]|].
      * intro H. apply app_eq_nil in H. destruct H; discriminate.
      * split; [|auto]. symmetry. apply hd_error_app.
        intro H. apply app_eq_nil in H. destruct H; discriminate.
    + unfold loaded. rewrite Ep. repeat split; auto; discriminate.
  - unfold PhotoEditorMain.portrait_mode. rewrite Ep, set_and_push_committed.
    cbn [fst snd]. destruct (C (portrait_image (copy p)) (adjustments doc)). auto.
  - unfold PhotoEditorMain.auto_enhance. rewrite Ep, set_and_push_committed.
    cbn [fst snd]. destruct (C (auto_enhance_image p) (adjustments doc)). auto.
  - unfold PhotoEditorMain.reset_adjustments.
    cbn [ImageDocument.reset_adjustments set_adjustments history]. rewrite Hb.
    unfold loaded. cbn [fst snd set_pil set_adjustments pil history].
    repeat split; auto; discriminate.
Qed.

(** X12.  A loaded document (an image on display, a non-empty history)
    stays loaded through every session of slider moves and button
    presses, the sliders delivering 32-bit integers; its first history entry, the image originally loaded, is
    never removed or replaced; and no slot raises AttributeError or
    IndexError: a session ends early only with ValueError, when a
    temperature of zero or less has been stored. *)
Theorem X12_session_invariant (acts : list action) (doc : ImageDocument.t) :
  loaded doc ->
  qt_values (adjustments doc) ->
  Forall qt_action acts ->
  loaded (snd (run acts doc)) /\
  hd_error (history (snd (run acts doc))) = hd_error (history doc) /\
  (fst (run acts doc) = Returned \/
   fst (run acts doc) = Raised ValueError /\
   kelvin (adjustments (snd (run acts doc))) <= 0).
Proof.
  intros Hl _ _. revert doc Hl.
  induction acts as [|a rest IH]; intros doc Hl.
  - cbn [run fst snd]. auto.
  - cbn [run]. destruct (slot_keeps_loaded a doc Hl) as (Hl1 & Hd1 & Ho).
    destruct (slot a doc) as [o doc1]. cbn [fst snd] in *.
    destruct o as [|e].
    + destruct (IH doc1 Hl1) as (Hl2 & Hd2 & Ho2).
      split; [exact Hl2|]. split; [congruence | exact Ho2].
    + cbn [fst snd]. destruct Ho as [Ho|[Ho Hk]]; [discriminate Ho|].
      auto.
Qed.

End Session.

Lemma X11_commit_then_undo_witness :
  (commits Rotate90Button /\ pil two_step_doc <> None /\
   last_item (history two_step_doc) = Some white_image) /\
  exists doc1,
    slot (L := identity_imaging) Rotate90Button two_step_doc = (Returned, doc1) /\
    List.length (history doc1) = 3%nat.
Proof.
  assert (Hp : pil two_step_doc <> None) by discriminate.
  split; [split; [exact I | split; [exact Hp | reflexivity]]|].
  destruct (X11_commit_then_undo (L := identity_imaging) Rotate90Button two_step_doc
              white_image I Hp eq_refl) as (doc1 & E & Hl & _).
  exists doc1. split; [exact E | exact Hl].
Defined.

Lemma two_step_doc_loaded : loaded two_step_doc.
Proof. split; discriminate. Defined.

Lemma X12_session_invariant_witness :
  (loaded two_step_doc /\ qt_values (adjustments two_step_doc) /\
   Forall qt_action
     [SliderMoved "Kontrast" 20; UndoButton; UndoButton; EffectButton "red";
      Rotate90Button]) /\
  loaded (snd (run (L := identity_imaging)
                 [SliderMoved "Kontrast" 20; UndoButton; UndoButton;
                  EffectButton "red"; Rotate90Button]
                 two_step_doc)).
Proof.
  assert (Q : qt_values (adjustments two_step_doc))
    by (unfold qt_values, int32; cbn; lia).
  assert (F : Forall qt_action
                [SliderMoved "Kontrast" 20; UndoButton; UndoButton;
                 EffectButton "red"; Rotate90Button])
    by (repeat constructor; unfold int32; lia).
  split; [split; [exact two_step_doc_loaded | split; [exact Q | exact F]]|].
  exact (proj1 (X12_session_invariant (L := identity_imaging) _
                  two_step_doc two_step_doc_loaded Q F)).
Defined.

Lemma last_item_cons (im : Image) (h : list Image) :
  last_item (im :: h) <> None.
Proof.
  intro H. apply last_item_nil_iff in H. discriminate H.
Qed.

Lemma undo_n_spec (doc : ImageDocument.t) (orig : Image) (rest : list Image) (n : nat) :
  history doc = orig :: rest ->
  history (undo_n n doc) = orig :: firstn (List.length rest - n) rest /\
  path (undo_n n doc) = path doc /\
  adjustments (undo_n n doc) = adjustments doc /\
  ((0 < n)%nat -> rest <> [] ->
   pil (undo_n n doc) = last_item (history (undo_n n doc))).
Proof.
  intro Hh. induction n as [|n (IHh & IHp & IHa & IHl)].
  - cbn [undo_n Nat.iter nat_rect]. rewrite Nat.sub_0_r, firstn_all.
    repeat split; [exact Hh | lia].
  - change (undo_n (S n) doc) with (snd (ImageDocument.undo (undo_n n doc))).
    set (d := undo_n n doc) in *.
    unfold ImageDocument.undo. rewrite IHh. cbn [List.length].
    destruct (Nat.ltb_spec 1 (S (List.length (firstn (List.length rest - n) rest))))
      as [Hlt|Hge]; cbn [snd history path adjustments pil].
    + rewrite length_firstn in Hlt.
      assert (Hn : (n < List.length rest)%nat) by lia.
      assert (R : removelast (orig :: firstn (List.length rest - n) rest)
                  = orig :: firstn (List.length rest - S n) rest).
      { replace (List.length rest - n)%nat with (S (List.length rest - S n)) by lia.
        destruct (firstn (S (List.length rest - S n)) rest) as [|x l] eqn:E.
        - destruct rest; [cbn in Hn; lia | discriminate E].
        - change (removelast (orig :: x :: l)) with (orig :: removelast (x :: l)).
          f_equal. rewrite <- E. apply removelast_firstn. lia. }
      rewrite R. repeat split; try assumption.
      intros _ _.
      destruct (last_item (orig :: firstn (List.length rest - S n) rest)) eqn:E;
        [reflexivity|].
      exfalso. exact (last_item_cons _ _ E).
    + rewrite length_firstn in Hge.
      assert (E0 : firstn (List.length rest - n) rest = []).
      { destruct (firstn (List.length rest - n) rest) eqn:E; [reflexivity|].
        apply (f_equal (@List.length Image)) in E.
        rewrite length_firstn in E. cbn [List.length] in E. lia. }
      assert (E1 : firstn (List.length rest - S n) rest = []).
      { replace (List.length rest - S n)%nat with 0%nat; [reflexivity|].
        destruct (Nat.le_gt_cases (List.length rest) n); [lia|].
        exfalso. apply (f_equal (@List.length Image)) in E0.
        rewrite length_firstn in E0. cbn [List.length] in E0. lia. }
      rewrite E1. split; [rewrite IHh, E0; reflexivity|].
      split; [exact IHp|]. split; [exact IHa|].
      intros _ Hr. destruct n as [|n].
      * exfalso. rewrite Nat.sub_0_r, firstn_all in E0. exact (Hr E0).
      * apply IHl; [lia | exact Hr].
Qed.

(** X13.  Undo bottoms out at the image originally loaded: pressing undo
    at least as many times as there are entries after the first leaves
    exactly the original in the history; if anything was undone the
    original is on display; a further undo returns [False] and changes
    nothing.  The path and the slider parameters are as they were. *)
Theorem X13_undo_to_original
    (doc : ImageDocument.t) (orig : Image) (rest : list Image) (n : nat) :
  history doc = orig :: rest ->
  (List.length rest <= n)%nat ->
  history (undo_n n doc) = [orig] /\
  (rest <> [] -> pil (undo_n n doc) = Some orig) /\
  ImageDocument.undo (undo_n n doc) = (false, undo_n n doc) /\
  path (undo_n n doc) = path doc /\
  adjustments (undo_n n doc) = adjustments doc.
Proof.
  intros Hh Hn.
  destruct (undo_n_spec doc orig rest n Hh) as (Eh & Ep & Ea & El).
  replace (List.length rest - n)%nat with 0%nat in Eh by lia.
  cbn [firstn] in Eh.
  split; [exact Eh|]. split; [|split; [|split; assumption]].
  - intro Hr. rewrite El; [rewrite Eh; reflexivity | | exact Hr].
    destruct rest; [contradiction | cbn [List.length] in Hn; lia].
  - unfold ImageDocument.undo. rewrite Eh. reflexivity.
Qed.

Lemma X13_undo_to_original_witness :
  (history two_step_doc = [black_image; white_image] /\ (1 <= 3)%nat) /\
  history (undo_n 3 two_step_doc) = [black_image].
Proof.
  split; [split; [reflexivity | lia]|].
  exact (proj1 (X13_undo_to_original two_step_doc black_image [white_image] 3
                  eq_refl ltac:(cbn; lia))).
Defined.

(** ** The histogram does not see positions *)

Lemma occurrences_perm (k : Z) (xs ys : list Z) :
  Permutation xs ys -> occurrences k xs = occurrences k ys.
Proof.
  induction 1 as [|x l l' _ IH|x y l|l l' l'' _ IH1 _ IH2].
  - reflexivity.
  - rewrite !occurrences_cons, IH. reflexivity.
  - rewrite !occurrences_cons. lia.
  - congruence.
Qed.

Lemma max_perm (xs ys : list Z) :
  Permutation xs ys -> fold_right Z.max (-1) xs = fold_right Z.max (-1) ys.
Proof.
  induction 1 as [|x l l' _ IH|x y l|l l' l'' _ IH1 _ IH2]; cbn [fold_right].
  - reflexivity.
  - rewrite IH. reflexivity.
  - lia.
  - congruence.
Qed.

Lemma bincount_perm (xs ys : list Z) (n : nat) :
  Permutation xs ys -> bincount xs n = bincount ys n.
Proof.
  intro H. unfold bincount. rewrite (max_perm xs ys H).
  apply map_ext. intro k. apply occurrences_perm, H.
Qed.

(** X14.  The histogram depends on how many pixels of each value there
    are, not on where they are: two images of the same area whose pixels
    are a rearrangement of each other (an image and its mirror image or
    its rotation, say) have the same histogram. *)
Theorem X14_histogram_permutation (a b : Image) :
  Permutation (pixels a) (pixels b) ->
  (width a * height a = width b * height b)%nat ->
  compute_histogram a = compute_histogram b.
Proof.
  intros H Hs. unfold compute_histogram, convert_RGB. cbv zeta.
  rewrite (bincount_perm _ _ 256 (Permutation_map red H)).
  rewrite (bincount_perm _ _ 256 (Permutation_map green H)).
  rewrite (bincount_perm _ _ 256 (Permutation_map blue H)).
  rewrite (bincount_perm _ _ 256 (Permutation_map lum_uint8 H)).
  rewrite Hs. reflexivity.
Qed.

Lemma X14_histogram_permutation_witness :
  (Permutation (pixels sample_image) (pixels sample_mirrored) /\
   (width sample_image * height sample_image
    = width sample_mirrored * height sample_mirrored)%nat) /\
  compute_histogram sample_image = compute_histogram sample_mirrored.
Proof.
  assert (P : Permutation (pixels sample_image) (pixels sample_mirrored)).
  { cbn [pixels sample_image sample_mirrored].
    apply perm_trans with ((10, 200, 3) :: (255, 255, 255) :: [(0, 0, 0); (255, 0, 0)]).
    - apply perm_swap.
    - do 2 apply perm_skip. apply perm_swap. }
  split; [split; [exact P | reflexivity]|].
  exact (X14_histogram_permutation sample_image sample_mirrored P eq_refl).
Defined.

(** ** Portrait retouch with faces *)

Lemma nth_error_indexed {A : Type} (f : nat * A -> A) (l : list A) (k i : nat) :
  nth_error (map f (combine (seq k (List.length l)) l)) i
  = option_map (fun p => f ((k + i)%nat, p)) (nth_error l i).
Proof.
  revert k i. induction l as [|p l IH]; intros k i.
  - destruct i; reflexivity.
  - destruct i as [|i]; cbn [List.length seq combine map nth_error option_map].
    + rewrite Nat.add_0_r. reflexivity.
    + rewrite IH. replace (S k + i)%nat with (k + S i)%nat by lia. reflexivity.
Qed.

(** [paste] keeps the shape and every pixel outside the rectangle. *)
Lemma paste_outside (rc : Rect) (patch a : Image) (i : nat) :
  width (paste rc patch a) = width a /\
  height (paste rc patch a) = height a /\
  List.length (pixels (paste rc patch a)) = List.length (pixels a) /\
  (in_rect rc (width a) i = false ->
   nth_error (pixels (paste rc patch a)) i = nth_error (pixels a) i).
Proof.
  destruct rc as [[[x y] w] h]. unfold paste, in_rect. cbn [width height pixels].
  split; [reflexivity|]. split; [reflexivity|]. split.
  - rewrite length_map, length_combine, length_seq. apply Nat.min_id.
  - intro H. rewrite nth_error_indexed. cbn [Nat.add].
    destruct (nth_error (pixels a) i) as [p|]; [|reflexivity].
    cbn [option_map]. rewrite H. reflexivity.
Qed.

Section Faces.

Context {L : Imaging}.

Lemma retouch_faces_outside (faces : list Rect) (a : Image) (i : nat) :
  (forall rc, In rc faces -> in_rect rc (width a) i = false) ->
  width (fold_left retouch_face faces a) = width a /\
  height (fold_left retouch_face faces a) = height a /\
  List.length (pixels (fold_left retouch_face faces a)) = List.length (pixels a) /\
  nth_error (pixels (fold_left retouch_face faces a)) i = nth_error (pixels a) i.
Proof.
  revert a. induction faces as [|rc faces IH]; intros a H.
  - cbn [fold_left]. repeat split.
  - cbn [fold_left].
    set (patch := addWeighted (crop rc a) 0.6 (bilateralFilter 9 75 75 (crop rc a)) 0.4 0).
    change (retouch_face a rc) with (paste rc patch a).
    destruct (paste_outside rc patch a i) as (Hw & Hh & Hl & Hn).
    destruct (IH (paste rc patch a)) as (Iw & Ih & Il & In').
    { intros rc' Hrc. rewrite Hw. apply H. right. exact Hrc. }
    split; [congruence|]. split; [congruence|]. split; [congruence|].
    rewrite In'. apply Hn. apply H. left. reflexivity.
Qed.

(** X15.  When the face locator finds faces, the retouch keeps the size
    of the image, and a pixel that lies in none of the face rectangles
    is only rebalanced, as binary32 does it ([rebalance]): it is not
    smoothed or blended. *)
Theorem X15_portrait_outside_faces (img : Image) (faces : list Rect) (i : nat) :
  detectMultiScale (cvtColor_RGB2GRAY img) 1.1 4 = Some faces ->
  faces <> [] ->
  (forall rc, In rc faces -> in_rect rc (width img) i = false) ->
  width (portrait_image img) = width img /\
  height (portrait_image img) = height img /\
  List.length (pixels (portrait_image img)) = List.length (pixels img) /\
  nth_error (pixels (portrait_image img)) i
  = option_map rebalance (nth_error (pixels img) i).
Proof.
  intros Hd Hf Hout. unfold portrait_image. rewrite Hd.
  destruct faces as [|rc faces]; [contradiction|].
  cbn [List.length Nat.ltb Nat.leb].
  destruct (retouch_faces_outside (rc :: faces) (np_map rebalance img) i)
    as (Hw & Hh & Hl & Hn).
  { intros rc' Hrc. cbn [np_map width]. apply Hout, Hrc. }
  split; [exact Hw|]. split; [exact Hh|]. split.
  - rewrite Hl. unfold np_map. cbn [pixels]. apply length_map.
  - rewrite Hn. unfold np_map. cbn [pixels]. apply nth_error_map.
Qed.

End Faces.

Lemma X15_portrait_outside_faces_witness :
  (detectMultiScale (Imaging := one_face_imaging)
     (cvtColor_RGB2GRAY (Imaging := one_face_imaging) sample_image) 1.1 4
   = Some [(0, 0, 1, 2)%nat] /\
   in_rect (0, 0, 1, 2)%nat (width sample_image) 1 = false) /\
  nth_error (pixels sample_image) 1 = Some (10, 200, 3) /\
  nth_error (pixels (portrait_image (L := one_face_imaging) sample_image)) 1
  = Some (9, 209, 3).
Proof.
  split; [split; reflexivity|]. split; [reflexivity|].
  etransitivity.
  - refine (proj2 (proj2 (proj2 (X15_portrait_outside_faces (L := one_face_imaging)
                                   sample_image [(0, 0, 1, 2)%nat] 1 eq_refl _ _)))).
    + discriminate.
    + intros rc [<-|[]]. reflexivity.
  - cbn [sample_image pixels nth_error option_map].
    rewrite rebalance_closed by (repeat split; cbn; lia). reflexivity.
Defined.

(** ** Export and loading *)

Local Open Scope string_scope.





Section FilesProperties.

Variable basename : string -> string.
Variable join : string -> string -> string.
Variable open_RGB : string -> option Image.
Variable save : Image -> string -> bool.




(** X17.  [load_images] skips a file that does not open and goes on with
    the others: the new tabs are the decodable files in the order of
    the dialog, appended after the tabs already there; every other path
    gets a warning; and every new document starts loaded, with the
    decoded image as its only history entry and on display, and the
    default parameters. *)
Theorem X17_load_images (paths : list string) (tabs_docs : list ImageDocument.t) :
  let new_docs :=
    flat_map (fun p => match open_RGB p with
                       | Some im => [mk (Some p) (Some im) [im] default_adjustments]
                       | None => []
                       end) paths in
  fst (load_images open_RGB paths tabs_docs) = (tabs_docs ++ new_docs)%list /\
  snd (load_images open_RGB paths tabs_docs)
  = filter (fun p => match open_RGB p with Some _ => false | None => true end) paths /\
  (List.length new_docs + List.length (snd (load_images open_RGB paths tabs_docs))
   = List.length paths)%nat /\
  Forall loaded new_docs.
Proof.
  cbv zeta. revert tabs_docs.
  induction paths as [|p rest IH]; intro tabs_docs.
  - cbn [load_images flat_map filter fst snd List.length].
    rewrite app_nil_r. repeat split. constructor.
  - cbn [load_images flat_map filter].
    destruct (open_RGB p) as [im|] eqn:E.
    + destruct (IH (add_tab tabs_docs (ImageDocument.init (Some p) (Some im))))
        as (H1 & H2 & H3 & H4).
      rewrite H1, H2. unfold add_tab. rewrite <- app_assoc.
      rewrite H2 in H3.
      split; [reflexivity|]. split; [reflexivity|]. split.
      * cbn [app List.length]. lia.
      * cbn [app]. constructor; [split; discriminate | exact H4].
    + destruct (IH tabs_docs) as (H1 & H2 & H3 & H4).
      destruct (load_images open_RGB rest tabs_docs) as [tabs warned].
      cbn [fst snd] in *. rewrite H2 in *.
      split; [exact H1|]. split; [reflexivity|]. split.
      * cbn [app List.length]. lia.
      * exact H4.
Qed.

End FilesProperties.

Local Close Scope string_scope.



(** ** Histogram bins per channel *)

(** X6.  In the histogram of an 8-bit image, bin [k] of the red, green
    and blue arrays is the number of pixels whose red, green and blue
    sample is [k]. *)
Theorem X6_histogram_channel_bins (im : Image) (k : nat) :
  valid_image im ->
  (k < 256)%nat ->
  let h := compute_histogram im in
  nth k (hist_r h) 0%nat
  = List.length (filter (fun p => Z.eqb (Z.of_nat k) (red p)) (pixels im)) /\
  nth k (hist_g h) 0%nat
  = List.length (filter (fun p => Z.eqb (Z.of_nat k) (green p)) (pixels im)) /\
  nth k (hist_b h) 0%nat
  = List.length (filter (fun p => Z.eqb (Z.of_nat k) (blue p)) (pixels im)).
Proof.
  intros [_ Hpix] Hk h. subst h. rewrite Forall_forall in Hpix.
  unfold compute_histogram, convert_RGB. cbn [hist_r hist_g hist_b].
  rewrite !bincount_nth, !occurrences_map;
    try exact Hk;
    try (apply Forall_map_uint8; intros p Hp; apply (Hpix p Hp)).
  repeat split.
Qed.

Lemma X6_histogram_channel_bins_witness :
  (valid_image sample_image /\ (255 < 256)%nat) /\
  nth 255 (hist_r (compute_histogram sample_image)) 0%nat = 2%nat.
Proof.
  split; [split; [exact sample_image_valid | lia]|].
  exact (proj1 (X6_histogram_channel_bins sample_image 255 sample_image_valid
                  ltac:(lia))).
Defined.

(** ** Sliders do not accumulate *)

Lemma setitem_overwrite (ad : Adjustments) (k : key) (v1 v2 : Z) :
  setitem (setitem ad k v1) k v2 = setitem ad k v2.
Proof. destruct k; reflexivity. Qed.

Lemma setitem_commute (ad : Adjustments) (k1 k2 : key) (v1 v2 : Z) :
  k1 <> k2 ->
  setitem (setitem ad k1 v1) k2 v2 = setitem (setitem ad k2 v2) k1 v1.
Proof. destruct k1, k2; intro H; try reflexivity; contradiction. Qed.

(** The preview overwrites the image on display: two documents that
    differ only there have the same preview, when it returns. *)
Lemma preview_ignores_pil (d1 d2 : ImageDocument.t) :
  path d1 = path d2 -> history d1 = history d2 -> adjustments d1 = adjustments d2 ->
  fst (PhotoEditorMain.apply_adjustments_preview d1) = Returned ->
  PhotoEditorMain.apply_adjustments_preview d1
  = PhotoEditorMain.apply_adjustments_preview d2.
Proof.
  intros Hp Hh Ha. unfold PhotoEditorMain.apply_adjustments_preview.
  rewrite <- Hh, <- Ha.
  destruct (last_item (history d1)); [|discriminate].
  destruct (kelvin_to_rgb_gains _); [|discriminate].
  intros _. unfold set_pil. rewrite Hp, Hh, Ha. reflexivity.
Qed.

Lemma on_slider_frame (name : string) (v : Z) (doc : ImageDocument.t) :
  path (snd (PhotoEditorMain.on_slider name v doc)) = path doc /\
  history (snd (PhotoEditorMain.on_slider name v doc)) = history doc /\
  adjustments (snd (PhotoEditorMain.on_slider name v doc))
  = match PhotoEditorMain.mapping name with
    | Some k => setitem (adjustments doc) k v
    | None => adjustments doc
    end.
Proof.
  unfold PhotoEditorMain.on_slider.
  destruct (PhotoEditorMain.mapping name) as [k|]; [|repeat split].
  unfold PhotoEditorMain.apply_adjustments_preview.
  cbn [history set_adjustments adjustments].
  destruct (last_item (history doc)); [|repeat split].
  destruct (kelvin_to_rgb_gains _); repeat split.
Qed.

(** X19.  Slider moves do not accumulate.  Moving the same slider twice
    leaves the document exactly as moving it once to the last value
    does; moving two different sliders gives the same document in either
    order.  (Both for values a slider can deliver and when the last
    move returns; the preview is always recomputed from the baseline.) *)
Theorem X19_sliders_do_not_accumulate
    (n1 n2 : string) (k1 k2 : key) (v1 v2 : Z) (doc : ImageDocument.t) :
  PhotoEditorMain.mapping n1 = Some k1 ->
  PhotoEditorMain.mapping n2 = Some k2 ->
  int32 v1 -> int32 v2 -> qt_values (adjustments doc) ->
  fst (PhotoEditorMain.on_slider n2 v2 (snd (PhotoEditorMain.on_slider n1 v1 doc)))
  = Returned ->
  (k1 = k2 ->
   PhotoEditorMain.on_slider n2 v2 (snd (PhotoEditorMain.on_slider n1 v1 doc))
   = PhotoEditorMain.on_slider n2 v2 doc) /\
  (k1 <> k2 ->
   PhotoEditorMain.on_slider n2 v2 (snd (PhotoEditorMain.on_slider n1 v1 doc))
   = PhotoEditorMain.on_slider n1 v1 (snd (PhotoEditorMain.on_slider n2 v2 doc))).
Proof.
  intros M1 M2 _ _ _ Hr.
  destruct (on_slider_frame n1 v1 doc) as (P1 & H1 & A1). rewrite M1 in A1.
  destruct (on_slider_frame n2 v2 doc) as (P2 & H2 & A2). rewrite M2 in A2.
  set (d1 := snd (PhotoEditorMain.on_slider n1 v1 doc)) in *.
  set (d2 := snd (PhotoEditorMain.on_slider n2 v2 doc)) in *.
  unfold PhotoEditorMain.on_slider at 1 in Hr. rewrite M2 in Hr.
  split; intro Hk.
  - subst k2.
    unfold PhotoEditorMain.on_slider at 1 2. rewrite M2.
    apply preview_ignores_pil; cbn [path history adjustments set_adjustments];
      try assumption.
    rewrite A1. apply setitem_overwrite.
  - unfold PhotoEditorMain.on_slider at 1 2. rewrite M1, M2.
    apply preview_ignores_pil; cbn [path history adjustments set_adjustments];
      try congruence.
    rewrite A1, A2. apply setitem_commute, Hk.
Qed.

Lemma X19_sliders_do_not_accumulate_witness :
  (PhotoEditorMain.mapping "Parlaklık" = Some Kbrightness /\
   int32 100 /\ int32 10 /\ qt_values (adjustments black_doc) /\
   fst (PhotoEditorMain.on_slider "Parlaklık" 10
          (snd (PhotoEditorMain.on_slider "Parlaklık" 100 black_doc))) = Returned) /\
  PhotoEditorMain.on_slider "Parlaklık" 10
    (snd (PhotoEditorMain.on_slider "Parlaklık" 100 black_doc))
  = PhotoEditorMain.on_slider "Parlaklık" 10 black_doc.
Proof.
  assert (R : fst (PhotoEditorMain.on_slider "Parlaklık" 10
                     (snd (PhotoEditorMain.on_slider "Parlaklık" 100 black_doc)))
              = Returned).
  { rewrite (slider_black 100) by (unfold uint8; lia). cbn [snd].
    unfold PhotoEditorMain.on_slider.
    change (PhotoEditorMain.mapping "Parlaklık") with (Some Kbrightness).
    cbv iota beta zeta.
    rewrite (preview_black 10); [reflexivity | reflexivity | reflexivity |
                                 unfold uint8; lia]. }
  assert (I1 : int32 100) by (unfold int32; lia).
  assert (I2 : int32 10) by (unfold int32; lia).
  split; [split; [reflexivity | split; [exact I1 | split; [exact I2 |
            split; [exact qt_values_default | exact R]]]]|].
  exact (proj1 (X19_sliders_do_not_accumulate "Parlaklık" "Parlaklık"
                  Kbrightness Kbrightness 100 10 black_doc eq_refl eq_refl
                  I1 I2 qt_values_default R)
           eq_refl).
Defined.

(** ** Reset after slider moves *)

Section ResetSession.

Context {L : Imaging}.

Lemma sliders_frame (acts : list action) (doc : ImageDocument.t) :
  Forall slider_move acts ->
  path (snd (run acts doc)) = path doc /\
  history (snd (run acts doc)) = history doc.
Proof.
  intro H. revert doc. induction H as [|a acts Ha _ IH]; intro doc.
  - split; reflexivity.
  - destruct a; try contradiction. cbn [run slot].
    destruct (on_slider_frame name value doc) as (P & Hh & _).
    destruct (PhotoEditorMain.on_slider name value doc) as [o d1].
    cbn [snd] in P, Hh. destruct o.
    + destruct (IH d1) as [P1 H1]. split; congruence.
    + cbn [snd]. split; assumption.
Qed.

(** X18.  Reset undoes any sequence of slider moves: starting from a
    document with nothing pending, after any moves of the sliders to
    32-bit values (whether the last one returned or raised) the reset button returns normally and
    gives back exactly the starting document. *)
Theorem X18_reset_after_sliders (acts : list action) (doc : ImageDocument.t) :
  clean doc ->
  Forall slider_move acts ->
  PhotoEditorMain.reset_adjustments (snd (run acts doc)) = (Returned, doc).
Proof.
  intros (Hh & Hp & Ha) Hs.
  destruct (sliders_frame acts doc Hs) as [P H].
  destruct (last_item_some _ Hh) as [base Hb].
  destruct (snd (run acts doc)) as [pa' pi' hi' ad'].
  destruct doc as [pa pi hi ad]. cbn [path pil history adjustments] in *.
  subst pa' hi' pi ad.
  unfold PhotoEditorMain.reset_adjustments, ImageDocument.reset_adjustments,
    set_adjustments, set_pil, copy.
  cbn [path pil history adjustments]. rewrite Hb. reflexivity.
Qed.

End ResetSession.

Lemma black_doc_clean : clean black_doc.
Proof. split; [discriminate | split; reflexivity]. Defined.

Lemma X18_reset_after_sliders_witness :
  (clean black_doc /\
   Forall slider_move [SliderMoved "Parlaklık" 40; SliderMoved "Kontrast" (-20)]) /\
  PhotoEditorMain.reset_adjustments
    (snd (run (L := identity_imaging)
            [SliderMoved "Parlaklık" 40; SliderMoved "Kontrast" (-20)] black_doc))
  = (Returned, black_doc).
Proof.
  assert (F : Forall slider_move [SliderMoved "Parlaklık" 40; SliderMoved "Kontrast" (-20)])
    by (repeat constructor; unfold int32; lia).
  split; [split; [exact black_doc_clean | exact F]|].
  exact (X18_reset_after_sliders (L := identity_imaging) _ black_doc black_doc_clean F).
Defined.
